(** * RP-growth: recurring-pattern mining over a time-stamped database

    A shallow embedding of [rp_growth.py] (class [PatternFinder]) and
    [tree.py] (classes [RPTree] and [RPNode]), and the properties of the
    mining engine that can be stated over it.

    Conventions of the embedding:
    - Python integers are [Z]; items are [string]s (hashable, totally
      ordered tokens); a timestamp is a [Z].
    - A Python [dict] is an insertion-ordered association list with unique
      keys ([dict_get], [dict_set], [dict_del]).
    - The node graph of a tree (parent, neighbor and children references)
      is an arena: a list of node records addressed by position; the root
      of a tree is the node at position 0.  Every tree owns its arena, as
      every [RPNode] belongs to exactly one [RPTree].
    - A call either returns a value, raises a Python exception, or, in the
      model only, runs out of fuel or follows a reference that is not in
      the arena ([Stuck]). *)

From stdpp Require Import base list strings.
From Stdlib Require Import ZArith Lia.

Open Scope Z_scope.

(** * The embedding *)

(** ** Outcomes of a call *)

Inductive exn : Type :=
  | KeyError
  | IndexError
  | AttributeError
  | TypeError
  | ZeroDivisionError
  | NotAChild.   (* Exception("Item is not a child of given element") *)

Inductive res (A : Type) : Type :=
  | Ok (a : A)
  | Raise (e : exn)
  | OutOfFuel
  | Stuck.

Arguments Ok {A} a.
Arguments Raise {A} e.
Arguments OutOfFuel {A}.
Arguments Stuck {A}.

#[global] Instance res_ret : MRet res := fun A a => Ok a.
#[global] Instance res_bind : MBind res := fun A B f m =>
  match m with
  | Ok a => f a
  | Raise e => Raise e
  | OutOfFuel => OutOfFuel
  | Stuck => Stuck
  end.

(** A reference that must be in the arena. *)
Definition deref {A : Type} (o : option A) : res A :=
  match o with Some a => Ok a | None => Stuck end.

(** A dictionary subscript [d[k]]. *)
Definition subscript {A : Type} (o : option A) : res A :=
  match o with Some a => Ok a | None => Raise KeyError end.

(** ** Dictionaries *)

Section dict.
Context {K V : Type} `{EqDecision K}.

Fixpoint dict_get (d : list (K * V)) (k : K) : option V :=
  match d with
  | [] => None
  | (k', v) :: d' => if decide (k' = k) then Some v else dict_get d' k
  end.

Definition dict_mem (d : list (K * V)) (k : K) : bool :=
  match dict_get d k with Some _ => true | None => false end.

(** [d[k] = v]: an existing key keeps its position, a new one goes last. *)
Fixpoint dict_set (d : list (K * V)) (k : K) (v : V) : list (K * V) :=
  match d with
  | [] => [(k, v)]
  | (k', v') :: d' =>
      if decide (k' = k) then (k', v) :: d' else (k', v') :: dict_set d' k v
  end.

(** [del d[k]] *)
Fixpoint dict_del (d : list (K * V)) (k : K) : list (K * V) :=
  match d with
  | [] => []
  | (k', v') :: d' =>
      if decide (k' = k) then dict_del d' k else (k', v') :: dict_del d' k
  end.

Definition dict_keys (d : list (K * V)) : list K := d.*1.
Definition dict_values (d : list (K * V)) : list V := d.*2.

End dict.

(** ** Python built-ins used by the miner *)

(** [sorted(l)] on integers. *)
Fixpoint insert_sorted (x : Z) (l : list Z) : list Z :=
  match l with
  | [] => [x]
  | y :: l' => if x <=? y then x :: l else y :: insert_sorted x l'
  end.

Definition sorted (l : list Z) : list Z := foldr insert_sorted [] l.

(** [set(a) - set(b)] for integer collections, as the list of its members. *)
Fixpoint set_of (l : list Z) : list Z :=
  match l with
  | [] => []
  | x :: l' => if decide (x ∈ l') then set_of l' else x :: set_of l'
  end.

Definition set_diff (a b : list Z) : list Z :=
  filter (fun x => x ∉ b) (set_of a).

(** ** The recurrence test ([PatternFinder._get_recurrence])

    The loop state: [last_occurence], [sub_db], [start_ts], [current_ps].
    An interval of [sub_db] is a pair [(start_ts, last_occurence)]; both
    components are [None] until the first timestamp is read. *)

Record rec_state : Type := mk_rec_state {
  last_occurence : option Z;
  sub_db : list (option Z * option Z);
  start_ts : option Z;
  current_ps : Z
}.

Definition rec_init : rec_state :=
  {| last_occurence := None; sub_db := []; start_ts := None; current_ps := 1 |}.

(** One iteration of [for timestamp in timestamps]. *)
Definition rec_step (per min_ps : Z) (s : rec_state) (timestamp : Z) : rec_state :=
  match last_occurence s with
  | None =>
      {| last_occurence := Some timestamp; sub_db := sub_db s;
         start_ts := Some timestamp; current_ps := 1 |}
  | Some last =>
      if timestamp - last <=? per then
        {| last_occurence := Some timestamp; sub_db := sub_db s;
           start_ts := start_ts s; current_ps := current_ps s + 1 |}
      else
        {| last_occurence := Some timestamp;
           sub_db := if min_ps <=? current_ps s
                     then sub_db s ++ [(start_ts s, Some last)]
                     else sub_db s;
           start_ts := Some timestamp; current_ps := 1 |}
  end.

Definition rec_loop (per min_ps : Z) (s : rec_state) (timestamps : list Z) : rec_state :=
  fold_left (rec_step per min_ps) timestamps s.

(** The statement after the loop: close the run that is still open. *)
Definition rec_close (min_ps : Z) (s : rec_state) : list (option Z * option Z) :=
  if min_ps <=? current_ps s
  then sub_db s ++ [(start_ts s, last_occurence s)]
  else sub_db s.

(** The list [sub_db] as it stands at the [return]. *)
Definition recurrence_intervals (per min_ps : Z) (timestamps : list Z)
  : list (option Z * option Z) :=
  rec_close min_ps (rec_loop per min_ps rec_init timestamps).

(** [len(sub_db)] at the [return]: the exact recurrence count. *)
Definition recurrence_count (per min_ps : Z) (timestamps : list Z) : Z :=
  Z.of_nat (length (recurrence_intervals per min_ps timestamps)).

Definition _get_recurrence (per min_ps min_rec : Z) (timestamps : list Z) : bool :=
  min_rec <=? recurrence_count per min_ps timestamps.

(** *** The recurrence test in the words of its description

    The maximal runs of a timestamp sequence: consecutive timestamps stay
    in one run while the gap between them is at most [per]. *)

Fixpoint maximal_runs (per : Z) (timestamps : list Z) : list (list Z) :=
  match timestamps with
  | [] => []
  | t :: rest =>
      match maximal_runs per rest with
      | (t' :: run) :: runs =>
          if t' - t <=? per then (t :: t' :: run) :: runs
          else [t] :: (t' :: run) :: runs
      | _ => [[t]]
      end
  end.

Definition long_enough (min_ps : Z) (run : list Z) : Prop :=
  min_ps ≤ Z.of_nat (length run).

#[global] Instance long_enough_dec min_ps run : Decision (long_enough min_ps run).
Proof. unfold long_enough. apply _. Defined.

Definition qualifying_runs (per min_ps : Z) (timestamps : list Z) : list (list Z) :=
  filter (long_enough min_ps) (maximal_runs per timestamps).

Definition qualifies_by_runs (per min_ps min_rec : Z) (timestamps : list Z) : bool :=
  min_rec <=? Z.of_nat (length (qualifying_runs per min_ps timestamps)).

(** ** The transactional database and the RP-list (Algorithm 1)

    The database is the sequence of [(timestamp, items)] pairs that
    [tdb.items()] yields. *)

Definition tdb_t : Type := list (Z * list string).

(** Class [Item]: the RP-list entry of an item. *)
Record Item : Type := mk_Item {
  item : string;
  support : Z;
  max_recurrence : Z;
  periodic_support : Z;
  last_timestamp : option Z
}.

(** [math.floor(float(a) / b)], with the exact quotient.  Python computes
    the exact quotient when [a] is below 2^53 and [b] below 2^1024 - 2^970
    in absolute value; beyond, it rounds [a] to a float, or raises
    [OverflowError] on the conversion of [b], neither of which is
    modelled. *)
Definition floor_div (a b : Z) : res Z :=
  if decide (b = 0) then Raise ZeroDivisionError else Ok (a / b).

(** The body of [for item in items] in the first scan. *)
Definition rp_scan_item (per min_ps timestamp : Z)
    (rp_list : list (string * Item)) (it : string) : res (list (string * Item)) :=
  rp_list ←
    match dict_get rp_list it with
    | None => Ok (dict_set rp_list it (mk_Item it 1 0 1 None))
    | Some e =>
        match last_timestamp e with
        | None => Raise TypeError
        | Some last =>
            if timestamp - last <=? per then
              Ok (dict_set rp_list it
                    (mk_Item (item e) (support e + 1) (max_recurrence e)
                             (periodic_support e + 1) (last_timestamp e)))
            else
              q ← floor_div (periodic_support e) min_ps;
              Ok (dict_set rp_list it
                    (mk_Item (item e) (support e + 1) (max_recurrence e + q)
                             1 (last_timestamp e)))
        end
    end;
  e ← subscript (dict_get rp_list it);
  Ok (dict_set rp_list it
        (mk_Item (item e) (support e) (max_recurrence e)
                 (periodic_support e) (Some timestamp))).

Fixpoint rp_scan_items (per min_ps timestamp : Z)
    (rp_list : list (string * Item)) (items : list string)
  : res (list (string * Item)) :=
  match items with
  | [] => Ok rp_list
  | it :: items' =>
      rp_list ← rp_scan_item per min_ps timestamp rp_list it;
      rp_scan_items per min_ps timestamp rp_list items'
  end.

(** [for timestamp, items in self.tdb.items()], first scan. *)
Fixpoint rp_scan (per min_ps : Z) (rp_list : list (string * Item)) (tdb : tdb_t)
  : res (list (string * Item)) :=
  match tdb with
  | [] => Ok rp_list
  | (timestamp, items) :: tdb' =>
      rp_list ← rp_scan_items per min_ps timestamp rp_list items;
      rp_scan per min_ps rp_list tdb'
  end.

(** The flush of one entry after the scan: a run that is still open is
    added to the estimate when [periodic_support > 1]. *)
Definition rp_flush_item (min_ps : Z) (e : Item) : res Item :=
  if 1 <? periodic_support e then
    q ← floor_div (periodic_support e) min_ps;
    Ok (mk_Item (item e) (support e) (max_recurrence e + q) 1 (last_timestamp e))
  else Ok e.

(** [for item in rp_list.keys()]: flush, then keep the entries whose
    estimate reaches [min_rec].  Returns [final_rp_list]. *)
Fixpoint rp_flush (min_ps min_rec : Z) (rp_list : list (string * Item))
  : res (list (string * Item)) :=
  match rp_list with
  | [] => Ok []
  | (it, e) :: rp_list' =>
      e ← rp_flush_item min_ps e;
      final ← rp_flush min_ps min_rec rp_list';
      if min_rec <=? max_recurrence e then Ok ((it, e) :: final) else Ok final
  end.

(** The sort key [(-1 * support, x)], compared as Python compares tuples. *)
Definition rp_key_le (a b : string * Item) : bool :=
  let ka := - support a.2 in
  let kb := - support b.2 in
  (ka <? kb) || ((ka =? kb) && String.leb a.1 b.1).

Fixpoint rp_insert (a : string * Item) (l : list (string * Item))
  : list (string * Item) :=
  match l with
  | [] => [a]
  | b :: l' => if rp_key_le a b then a :: l else b :: rp_insert a l'
  end.

(** [sorted(final_rp_list, key=...)]: the items by support descending,
    then by name. *)
Definition rp_sorted (final_rp_list : list (string * Item)) : list string :=
  (foldr rp_insert [] final_rp_list).*1.

(** The RP-list of a database: scan, flush and filter, sort. *)
Definition build_rp_list (per min_ps min_rec : Z) (tdb : tdb_t) : res (list string) :=
  rp_list ← rp_scan per min_ps [] tdb;
  final ← rp_flush min_ps min_rec rp_list;
  Ok (rp_sorted final).

(** The timestamps of the transactions that hold an item, and the sequence
    the exact test reads for it. *)
Definition item_timestamps (tdb : tdb_t) (it : string) : list Z :=
  (filter (fun tx => it ∈ tx.2) tdb).*1.

(** Ascending-timestamp iteration order of the database. *)
Fixpoint ascending (l : list Z) : Prop :=
  match l with
  | [] => True
  | t :: l' => match l' with [] => True | t' :: _ => t < t' end ∧ ascending l'
  end.

(** ** The RP-tree ([tree.py])

    Class [RPNode]: the item label ([None] for the root sentinel), the
    parent and neighbor references, the children dictionary and the list
    of timestamps.  References are positions in the arena of the tree. *)

Record RPNode : Type := mk_RPNode {
  _item : option string;
  _parent : option nat;
  _children : list (string * nat);
  _neighbor : option nat;
  _timestamps : list Z
}.

(** Class [RPTree]: the arena (with [_root] at position 0), the RP-list
    that orders the items, and the routes: for every item the [head] and
    the [tail] of the neighbor chain through the nodes that hold it. *)
Record RPTree : Type := mk_RPTree {
  arena : list RPNode;
  _rp_list : list string;
  _routes : list (string * (nat * nat))
}.

(** [RPNode(tree, item)] *)
Definition new_node (it : option string) : RPNode :=
  mk_RPNode it None [] None [].

(** [RPTree(rp_list)] *)
Definition new_tree (rp_list : list string) : RPTree :=
  mk_RPTree [new_node None] rp_list [].

Definition root : nat := 0%nat.

Definition with_parent (n : RPNode) (p : option nat) : RPNode :=
  mk_RPNode (_item n) p (_children n) (_neighbor n) (_timestamps n).
Definition with_children (n : RPNode) (c : list (string * nat)) : RPNode :=
  mk_RPNode (_item n) (_parent n) c (_neighbor n) (_timestamps n).
Definition with_neighbor (n : RPNode) (nb : option nat) : RPNode :=
  mk_RPNode (_item n) (_parent n) (_children n) nb (_timestamps n).
Definition with_timestamps (n : RPNode) (ts : list Z) : RPNode :=
  mk_RPNode (_item n) (_parent n) (_children n) (_neighbor n) ts.

(** Property [RPNode.root] *)
Definition is_root (n : RPNode) : bool :=
  match _item n with None => true | Some _ => false end.

(** Property [RPNode.is_leaf] *)
Definition is_leaf (n : RPNode) : bool :=
  match _children n with [] => true | _ => false end.

(** [RPNode.get_child] *)
Definition get_child (n : RPNode) (it : string) : option nat :=
  dict_get (_children n) it.

(** [RPNode.add_timestamp] *)
Definition add_timestamp (h : list RPNode) (self : nat) (timestamp : Z)
  : res (list RPNode) :=
  s ← deref (h !! self);
  Ok (<[self := with_timestamps s (_timestamps s ++ [timestamp])]> h).

(** [RPNode.add_timestamps] *)
Definition add_timestamps (h : list RPNode) (self : nat) (timestamps : list Z)
  : res (list RPNode) :=
  s ← deref (h !! self);
  Ok (<[self := with_timestamps s (_timestamps s ++ timestamps)]> h).

(** [RPNode.add]: a child with a new label is linked under [self]; for a
    label that [self] already has a child for, only timestamps are added
    to that child. *)
Definition add (h : list RPNode) (self child : nat) : res (list RPNode) :=
  s ← deref (h !! self);
  c ← deref (h !! child);
  ci ← deref (_item c);
  match dict_get (_children s) ci with
  | None =>
      let h := <[self := with_children s (dict_set (_children s) ci child)]> h in
      c ← deref (h !! child);
      Ok (<[child := with_parent c (Some self)]> h)
  | Some existing =>
      let new_ts := set_diff (_timestamps c) (_timestamps s) in
      add_timestamps h existing new_ts
  end.

(** [for grandchild in child.children: parent.add(grandchild)] *)
Fixpoint add_all (h : list RPNode) (parent : option nat) (grandchildren : list nat)
  : res (list RPNode) :=
  match grandchildren with
  | [] => Ok h
  | g :: rest =>
      match parent with
      | None => Raise AttributeError
      | Some p => h ← add h p g; add_all h parent rest
      end
  end.

(** [RPNode.remove] *)
Definition remove (h : list RPNode) (self child : nat) : res (list RPNode) :=
  s ← deref (h !! self);
  c ← deref (h !! child);
  ci ← deref (_item c);
  if negb (dict_mem (_children s) ci) then Raise NotAChild else
  h ← (if is_leaf c then Ok h else
         reg ← subscript (dict_get (_children s) ci);
         r ← deref (h !! reg);
         add_all h (_parent r) (dict_values (_children c)));
  s ← deref (h !! self);
  reg ← subscript (dict_get (_children s) ci);
  r ← deref (h !! reg);
  let h := <[reg := with_parent r None]> h in
  s ← deref (h !! self);
  Ok (<[self := with_children s (dict_del (_children s) ci)]> h).

(** [RPTree._update_route] *)
Definition _update_route (t : RPTree) (point : nat) : res RPTree :=
  p ← deref (arena t !! point);
  pi ← deref (_item p);
  match dict_get (_routes t) pi with
  | Some (head, tail) =>
      tl ← deref (arena t !! tail);
      Ok (mk_RPTree (<[tail := with_neighbor tl (Some point)]> (arena t))
                    (_rp_list t)
                    (dict_set (_routes t) pi (head, point)))
  | None =>
      Ok (mk_RPTree (arena t) (_rp_list t) (dict_set (_routes t) pi (point, point)))
  end.

(** One step down from [current_node], shared by the loop of
    [insert_node] and the second loop of [walk_path]: take the child for
    the item, or create it, link it and chain it into its route. *)
Definition descend (t : RPTree) (current_node : nat) (it : string)
  : res (RPTree * nat) :=
  cur ← deref (arena t !! current_node);
  match get_child cur it with
  | Some next_node => Ok (t, next_node)
  | None =>
      let next_node := length (arena t) in
      h ← add (arena t ++ [new_node (Some it)]) current_node next_node;
      t ← _update_route (mk_RPTree h (_rp_list t) (_routes t)) next_node;
      Ok (t, next_node)
  end.

Fixpoint descend_all (t : RPTree) (current_node : nat) (items : list string)
  : res (RPTree * nat) :=
  match items with
  | [] => Ok (t, current_node)
  | it :: items' =>
      '(t, next_node) ← descend t current_node it;
      descend_all t next_node items'
  end.

(** [RPTree.insert_node] (Algorithm 3) *)
Definition insert_node (t : RPTree) (items : list string) (timestamp : Z)
  : res RPTree :=
  '(t, current_node) ← descend_all t root items;
  h ← add_timestamp (arena t) current_node timestamp;
  Ok (mk_RPTree h (_rp_list t) (_routes t)).

(** The neighbor chain from a node: [while node: yield node;
    node = node.neighbor]. *)
Fixpoint route_walk (fuel : nat) (h : list RPNode) (node : option nat)
  : res (list nat) :=
  match node with
  | None => Ok []
  | Some n =>
      match fuel with
      | O => OutOfFuel
      | S fuel' =>
          nd ← deref (h !! n);
          rest ← route_walk fuel' h (_neighbor nd);
          Ok (n :: rest)
      end
  end.

(** [RPTree.nodes], consumed to its end. *)
Definition nodes (t : RPTree) (it : string) : res (list nat) :=
  match dict_get (_routes t) it with
  | None => Raise KeyError
  | Some (head, _) => route_walk (length (arena t)) (arena t) (Some head)
  end.

(** [RPTree.items_ordered], as the items it yields when nothing changes
    the routes in between. *)
Definition items_ordered (t : RPTree) : list string :=
  filter (fun it => dict_mem (_routes t) it = true) (reverse (_rp_list t)).

(** Property [RPTree.node_count] *)
Definition node_count (t : RPTree) : nat := length (_routes t).

(** The first loop of [walk_path]: climb from the occurrence node up to the
    root, collecting the path and crediting [current_ts] to every item on
    it. *)
Fixpoint climb (fuel : nat) (h : list RPNode) (node : option nat)
    (current_ts : list Z) (path : list nat) (temp : list (string * list Z))
  : res (list nat * list (string * list Z)) :=
  match node with
  | None => Ok (path, temp)
  | Some n =>
      nd ← deref (h !! n);
      match _item nd with
      | None => Ok (path, temp)
      | Some it =>
          match fuel with
          | O => OutOfFuel
          | S fuel' =>
              let temp :=
                match dict_get temp it with
                | Some ts => dict_set temp it (ts ++ current_ts)
                | None => dict_set temp it current_ts
                end in
              climb fuel' h (_parent nd) current_ts (path ++ [n]) temp
          end
      end
  end.

(** The labels of the nodes of a path. *)
Fixpoint path_items (h : list RPNode) (path : list nat) : res (list string) :=
  match path with
  | [] => Ok []
  | n :: path' =>
      nd ← deref (h !! n);
      it ← deref (_item nd);
      rest ← path_items h path';
      Ok (it :: rest)
  end.

(** [walk_path] of [RPTree.prefix_tree] *)
Definition walk_path (h : list RPNode) (node : nat)
    (temp : list (string * list Z)) (prefix_tree : RPTree)
  : res (list (string * list Z) * RPTree) :=
  nd ← deref (h !! node);
  let current_ts := _timestamps nd in
  '(path, temp) ← climb (length h) h (Some node) current_ts [] temp;
  above ← path_items h (reverse (tail path));
  '(prefix_tree, rt) ← descend_all prefix_tree root above;
  match path with
  | [] => Raise IndexError
  | first :: _ =>
      f ← deref (h !! first);
      pa ← add_timestamps (arena prefix_tree) rt (_timestamps f);
      Ok (temp, mk_RPTree pa (_rp_list prefix_tree) (_routes prefix_tree))
  end.

Fixpoint walk_paths (h : list RPNode) (occurrences : list nat)
    (temp : list (string * list Z)) (prefix_tree : RPTree)
  : res (list (string * list Z) * RPTree) :=
  match occurrences with
  | [] => Ok (temp, prefix_tree)
  | node :: rest =>
      '(temp, prefix_tree) ← walk_path h node temp prefix_tree;
      walk_paths h rest temp prefix_tree
  end.

(** [RPTree.prefix_tree] *)
Definition prefix_tree (t : RPTree) (it : string)
  : res (list (string * list Z) * RPTree) :=
  occurrences ← nodes t it;
  walk_paths (arena t) occurrences [] (new_tree (_rp_list t)).

(** The loop of [RPTree.remove_nodes] over the generator [self.nodes(item)]:
    the neighbor of a node is read after the node has been removed. *)
Fixpoint remove_nodes_loop (fuel : nat) (h : list RPNode) (node : option nat)
  : res (list RPNode) :=
  match node with
  | None => Ok h
  | Some n =>
      match fuel with
      | O => OutOfFuel
      | S fuel' =>
          nd ← deref (h !! n);
          match _parent nd with
          | None => Raise AttributeError
          | Some parent =>
              p ← deref (h !! parent);
              h ← (if is_root p then Ok h
                   else add_timestamps h parent (_timestamps nd));
              h ← remove h parent n;
              nd ← deref (h !! n);
              remove_nodes_loop fuel' h (_neighbor nd)
          end
      end
  end.

(** [RPTree.remove_nodes] *)
Definition remove_nodes (t : RPTree) (it : string) : res RPTree :=
  match dict_get (_routes t) it with
  | None => Raise KeyError
  | Some (head, _) =>
      h ← remove_nodes_loop (length (arena t)) (arena t) (Some head);
      Ok (mk_RPTree h (_rp_list t)
            (if dict_mem (_routes t) it then dict_del (_routes t) it
             else _routes t))
  end.

(** ** The miner ([rp_growth.py], class [PatternFinder]) *)

Record PatternFinder : Type := mk_PatternFinder {
  _tdb : tdb_t;
  _per : Z;
  _min_ps : Z;
  _min_rec : Z
}.

(** [PatternFinder.__init__] *)
Definition PatternFinder_init (tdb : tdb_t) (per min_ps min_rec : Z) : PatternFinder :=
  mk_PatternFinder tdb per min_ps min_rec.

(** The properties [tdb], [per], [min_ps] and [min_rec]. *)
Definition tdb (self : PatternFinder) : tdb_t := _tdb self.
Definition per (self : PatternFinder) : Z := _per self.
Definition min_ps (self : PatternFinder) : Z := _min_ps self.
Definition min_rec (self : PatternFinder) : Z := _min_rec self.

(** [PatternFinder._construct_conditional_from_prefix]: the loop over
    [conditional_tree.items_ordered()]; membership in the routes is tested
    when the generator reaches the item. *)
Fixpoint construct_loop (per min_ps min_rec : Z) (items : list string)
    (conditional_tree : RPTree) (timestamps : list (string * list Z))
  : res RPTree :=
  match items with
  | [] => Ok conditional_tree
  | it :: items' =>
      if dict_mem (_routes conditional_tree) it then
        ts ← subscript (dict_get timestamps it);
        conditional_tree ←
          (if _get_recurrence per min_ps min_rec (sorted ts)
           then Ok conditional_tree
           else remove_nodes conditional_tree it);
        construct_loop per min_ps min_rec items' conditional_tree timestamps
      else construct_loop per min_ps min_rec items' conditional_tree timestamps
  end.

Definition _construct_conditional_from_prefix (per min_ps min_rec : Z)
    (prefix_tree : RPTree) (timestamps : list (string * list Z)) : res RPTree :=
  construct_loop per min_ps min_rec (reverse (_rp_list prefix_tree))
    prefix_tree timestamps.

(** The body of the loop of [_rp_growth] for one item present in the tree;
    [rec] is the recursive call.  Returns the patterns the iteration
    yields and the tree after [remove_nodes]. *)
Definition growth_item (per min_ps min_rec : Z)
    (rec : RPTree → list string → res (list (list string)))
    (tree : RPTree) (pattern : list string) (curr_item : string)
  : res (list (list string) * RPTree) :=
  '(timestamps, prefix) ← prefix_tree tree curr_item;
  ts ← subscript (dict_get timestamps curr_item);
  yielded ←
    (if _get_recurrence per min_ps min_rec (sorted ts)
        && bool_decide (curr_item ∉ pattern)
     then
       let new_pattern := pattern ++ [curr_item] in
       let timestamps := dict_del timestamps curr_item in
       conditional_tree ←
         _construct_conditional_from_prefix per min_ps min_rec prefix timestamps;
       deeper ← (if bool_decide (0 < node_count conditional_tree)%nat
                 then rec conditional_tree new_pattern
                 else Ok []);
       Ok (new_pattern :: deeper)
     else Ok []);
  tree ← remove_nodes tree curr_item;
  Ok (yielded, tree).

(** [for node in tree.items_ordered()] in [_rp_growth]. *)
Fixpoint growth_loop (per min_ps min_rec : Z)
    (rec : RPTree → list string → res (list (list string)))
    (items : list string) (tree : RPTree) (pattern : list string)
  : res (list (list string) * RPTree) :=
  match items with
  | [] => Ok ([], tree)
  | it :: items' =>
      if dict_mem (_routes tree) it then
        '(yielded, tree) ← growth_item per min_ps min_rec rec tree pattern it;
        '(later, tree) ← growth_loop per min_ps min_rec rec items' tree pattern;
        Ok (yielded ++ later, tree)
      else growth_loop per min_ps min_rec rec items' tree pattern
  end.

(** [PatternFinder._rp_growth] (Algorithm 4), consumed to its end: the
    patterns in the order they are yielded, and the tree as the loop
    leaves it.  [depth] bounds the nesting of the recursive calls. *)
Fixpoint _rp_growth_tree (depth : nat) (per min_ps min_rec : Z)
    (tree : RPTree) (pattern : list string) {struct depth}
  : res (list (list string) * RPTree) :=
  match depth with
  | O => OutOfFuel
  | S depth' =>
      growth_loop per min_ps min_rec
        (fun t p => r ← _rp_growth_tree depth' per min_ps min_rec t p; Ok r.1)
        (reverse (_rp_list tree)) tree pattern
  end.

Definition _rp_growth (depth : nat) (per min_ps min_rec : Z)
    (tree : RPTree) (pattern : list string) : res (list (list string)) :=
  r ← _rp_growth_tree depth per min_ps min_rec tree pattern; Ok r.1.

(** The second scan: [sorted_items] of a transaction. *)
Definition sorted_items (final_rp_list items : list string) : list string :=
  filter (fun it => it ∈ items) final_rp_list.

(** Algorithm 2: build the RP-tree. *)
Fixpoint build_tree (final_rp_list : list string) (tree : RPTree) (tdb : tdb_t)
  : res RPTree :=
  match tdb with
  | [] => Ok tree
  | (timestamp, items) :: tdb' =>
      tree ← insert_node tree (sorted_items final_rp_list items) timestamp;
      build_tree final_rp_list tree tdb'
  end.

(** A method of [PatternFinder]: the value it returns or the exception it
    raises, and the object after the call. *)
Definition method (A : Type) : Type := PatternFinder → res A * PatternFinder.

Definition m_bind {A B : Type} (m : method A) (f : A → method B) : method B :=
  fun self =>
    match m self with
    | (Ok a, self) => f a self
    | (Raise e, self) => (Raise e, self)
    | (OutOfFuel, self) => (OutOfFuel, self)
    | (Stuck, self) => (Stuck, self)
    end.

(** A step that reads the properties of the object. *)
Definition m_reads {A : Type} (f : PatternFinder → res A) : method A :=
  fun self => (f self, self).

(** Algorithm 1, over [self.tdb.items()]. *)
Definition scan_rp_list : method (list string) :=
  m_reads (fun self =>
    build_rp_list (per self) (min_ps self) (min_rec self) (tdb self)).

(** Algorithms 2 and 3, over [self.tdb.items()] again. *)
Definition scan_tree (final_rp_list : list string) : method RPTree :=
  m_reads (fun self =>
    build_tree final_rp_list (new_tree final_rp_list) (tdb self)).

(** Algorithms 4 and 5: the patterns of [self._rp_growth(tree, [])].  The
    nesting of the recursive calls is bounded by the number of items of
    the RP-list plus one. *)
Definition mine (final_rp_list : list string) (tree : RPTree)
  : method (list (list string)) :=
  m_reads (fun self =>
    _rp_growth (S (length final_rp_list)) (per self) (min_ps self) (min_rec self)
      tree []).

(** [PatternFinder.find_recurring_patterns] *)
Definition find_recurring_patterns : method (list (list string)) :=
  m_bind scan_rp_list (fun final_rp_list =>
  m_bind (scan_tree final_rp_list) (fun tree =>
  mine final_rp_list tree)).

(** ** The miner over a store of Python objects

    The database that a [PatternFinder] is given is a dictionary object
    that maps timestamps to list objects, and the miner creates and fills
    list objects of its own ([sorted_items]).  Here the objects live in a
    store and are addressed by their position in it, so that a write to
    an object of the database could be told from a write to a new list. *)

Inductive pyobj : Type :=
  | PyDict (entries : list (Z * nat))   (* timestamp, reference to the items *)
  | PyList (elements : list string).

(** An operation on the store: what it returns or raises, and the store it
    leaves. *)
Definition op (A : Type) : Type := list pyobj → res A * list pyobj.

Definition op_ret {A : Type} (a : A) : op A := fun σ => (Ok a, σ).

Definition op_bind {A B : Type} (m : op A) (f : A → op B) : op B :=
  fun σ =>
    match m σ with
    | (Ok a, σ') => f a σ'
    | (Raise e, σ') => (Raise e, σ')
    | (OutOfFuel, σ') => (OutOfFuel, σ')
    | (Stuck, σ') => (Stuck, σ')
    end.

(** A computation that does not touch the store. *)
Definition op_lift {A : Type} (r : res A) : op A := fun σ => (r, σ).

(** [d.items()] of a dictionary object. *)
Definition dict_items (ref : nat) : op (list (Z * nat)) :=
  fun σ =>
    match σ !! ref with
    | Some (PyDict entries) => (Ok entries, σ)
    | _ => (Stuck, σ)
    end.

(** The elements of a list object, as [for item in items] and
    [item in items] read them. *)
Definition list_elements (ref : nat) : op (list string) :=
  fun σ =>
    match σ !! ref with
    | Some (PyList elements) => (Ok elements, σ)
    | _ => (Stuck, σ)
    end.

(** [[]]: a new list object. *)
Definition new_list : op nat :=
  fun σ => (Ok (length σ), σ ++ [PyList []]).

(** [l.append(x)] *)
Definition list_append (ref : nat) (x : string) : op unit :=
  fun σ =>
    match σ !! ref with
    | Some (PyList elements) => (Ok (), <[ref := PyList (elements ++ [x])]> σ)
    | _ => (Stuck, σ)
    end.

(** The object [self]: a reference to the database and the thresholds. *)
Record PatternFinder_obj : Type := mk_PatternFinder_obj {
  obj_tdb : nat;
  obj_per : Z;
  obj_min_ps : Z;
  obj_min_rec : Z
}.

(** The first scan, over the entries that [self.tdb.items()] yields. *)
Fixpoint rp_scan_obj (per min_ps : Z) (rp_list : list (string * Item))
    (entries : list (Z * nat)) : op (list (string * Item)) :=
  match entries with
  | [] => op_ret rp_list
  | (timestamp, items) :: entries' =>
      op_bind (list_elements items) (fun elements =>
      op_bind (op_lift (rp_scan_items per min_ps timestamp rp_list elements))
        (fun rp_list =>
      rp_scan_obj per min_ps rp_list entries'))
  end.

(** [for item in final_rp_list: if item in items:
    sorted_items.append(item)] *)
Fixpoint sort_items_obj (final_rp_list : list string) (items sorted_items : nat)
  : op unit :=
  match final_rp_list with
  | [] => op_ret ()
  | it :: rest =>
      op_bind (list_elements items) (fun elements =>
      op_bind (if bool_decide (it ∈ elements)
               then list_append sorted_items it else op_ret ()) (fun _ =>
      sort_items_obj rest items sorted_items))
  end.

(** The second scan: a new [sorted_items] list for every transaction. *)
Fixpoint build_tree_obj (final_rp_list : list string) (tree : RPTree)
    (entries : list (Z * nat)) : op RPTree :=
  match entries with
  | [] => op_ret tree
  | (timestamp, items) :: entries' =>
      op_bind new_list (fun sorted_items =>
      op_bind (sort_items_obj final_rp_list items sorted_items) (fun _ =>
      op_bind (list_elements sorted_items) (fun elements =>
      op_bind (op_lift (insert_node tree elements timestamp)) (fun tree =>
      build_tree_obj final_rp_list tree entries'))))
  end.

(** [PatternFinder.find_recurring_patterns] over the store. *)
Definition find_recurring_patterns_obj (self : PatternFinder_obj)
  : op (list (list string)) :=
  op_bind (dict_items (obj_tdb self)) (fun entries =>
  op_bind (rp_scan_obj (obj_per self) (obj_min_ps self) [] entries) (fun rp_list =>
  op_bind (op_lift (rp_flush (obj_min_ps self) (obj_min_rec self) rp_list))
    (fun final =>
  let final_rp_list := rp_sorted final in
  op_bind (dict_items (obj_tdb self)) (fun entries =>
  op_bind (build_tree_obj final_rp_list (new_tree final_rp_list) entries)
    (fun tree =>
  op_lift (_rp_growth (S (length final_rp_list)) (obj_per self) (obj_min_ps self)
             (obj_min_rec self) tree [])))))).

(** The database that a dictionary object stands for. *)
Fixpoint read_entries (σ : list pyobj) (entries : list (Z * nat)) : option tdb_t :=
  match entries with
  | [] => Some []
  | (timestamp, items) :: entries' =>
      match σ !! items, read_entries σ entries' with
      | Some (PyList elements), Some tdb => Some ((timestamp, elements) :: tdb)
      | _, _ => None
      end
  end.

Definition read_tdb (σ : list pyobj) (ref : nat) : option tdb_t :=
  match σ !! ref with
  | Some (PyDict entries) => read_entries σ entries
  | _ => None
  end.

(** The objects of a store are in another store as they are. *)
Definition extends (σ σ' : list pyobj) : Prop :=
  ∀ ref o, σ !! ref = Some o → σ' !! ref = Some o.

(** ** Measures used by the statements *)

(** The timestamps held by the nodes that can be reached from a node
    through the children dictionaries. *)
Fixpoint subtree_timestamps (fuel : nat) (h : list RPNode) (n : nat) : nat :=
  match fuel with
  | O => 0%nat
  | S fuel' =>
      match h !! n with
      | None => 0%nat
      | Some nd =>
          (length (_timestamps nd)
           + sum_list (map (subtree_timestamps fuel' h) (dict_values (_children nd))))%nat
      end
  end.

(** The timestamps remaining in a tree. *)
Definition tree_timestamps (t : RPTree) : nat :=
  subtree_timestamps (length (arena t)) (arena t) root.

(** The timestamps that [remove_nodes] drops because the parent of the
    node that holds them is the root. *)
Definition held_under_root (h : list RPNode) (n : nat) : nat :=
  match h !! n with
  | Some nd => if decide (_parent nd = Some root) then length (_timestamps nd) else 0%nat
  | None => 0%nat
  end.

Definition discarded_at_root (t : RPTree) (it : string) : nat :=
  match nodes t it with
  | Ok ns => sum_list (map (held_under_root (arena t)) ns)
  | _ => 0%nat
  end.

(** The timestamps held by the nodes that the routes of a tree lead to. *)
Definition node_timestamps (h : list RPNode) (n : nat) : nat :=
  match h !! n with Some nd => length (_timestamps nd) | None => 0%nat end.

Definition route_timestamps (t : RPTree) : nat :=
  sum_list (map (fun it => match nodes t it with
                           | Ok ns => sum_list (map (node_timestamps (arena t)) ns)
                           | _ => 0%nat
                           end)
                (dict_keys (_routes t))).

(** The timestamps of the transactions that hold every item of a
    pattern. *)
Definition pattern_timestamps (tdb : tdb_t) (pattern : list string) : list Z :=
  (filter (fun tx => Forall (fun it => it ∈ tx.2) pattern) tdb).*1.

(** The timestamps of the root sentinel. *)
Definition root_timestamps (t : RPTree) : list Z :=
  match arena t !! root with Some r => _timestamps r | None => [] end.

(** The label of the root sentinel. *)
Definition root_item (t : RPTree) : option string :=
  match arena t !! root with Some r => _item r | None => None end.

(** Two patterns hold the same items. *)
Definition same_items (p q : list string) : Prop := ∀ x, x ∈ p ↔ x ∈ q.

(** ** Well-formed trees

    The rank of an item is its position in the RP-list (the length of the
    list for an item that is not in it). *)

Fixpoint pos (l : list string) (x : string) : nat :=
  match l with
  | [] => 0%nat
  | y :: l' => if decide (y = x) then 0%nat else S (pos l' x)
  end.

(** The structure of an arena: labels, children entries, parent and
    neighbor references.  A child lies after its parent in the arena and
    has a later rank; a node that has a parent is registered among the
    children of that parent; a neighbor lies later in the arena and holds
    the same item. *)
Record wf_arena (rp : list string) (h : list RPNode) : Prop := mk_wf_arena {
  wf_root : ∃ r, h !! root = Some r ∧ _item r = None;
  wf_label : ∀ i nd, h !! i = Some nd → i ≠ root → is_Some (_item nd);
  wf_child : ∀ p pn it c,
    h !! p = Some pn → (it, c) ∈ _children pn →
    (p < c)%nat
    ∧ (∃ cn, h !! c = Some cn ∧ _item cn = Some it)
    ∧ (∀ pi, _item pn = Some pi → (pos rp pi < pos rp it)%nat);
  wf_parent : ∀ i nd p,
    h !! i = Some nd → _parent nd = Some p →
    ∃ pn it, h !! p = Some pn ∧ _item nd = Some it
             ∧ dict_get (_children pn) it = Some i;
  wf_neighbor : ∀ i nd j,
    h !! i = Some nd → _neighbor nd = Some j →
    (i < j)%nat ∧ ∃ jn, h !! j = Some jn ∧ _item jn = _item nd
}.

(** The routes of a tree lead to nodes that hold their item. *)
Definition wf_routes (h : list RPNode) (routes : list (string * (nat * nat))) : Prop :=
  ∀ it head tail, dict_get routes it = Some (head, tail) →
    (∃ hn, h !! head = Some hn ∧ _item hn = Some it)
    ∧ (∃ tn, h !! tail = Some tn ∧ _item tn = Some it).

(** A node whose item has a route has not been removed. *)
Definition live (h : list RPNode) (routes : list (string * (nat * nat))) : Prop :=
  ∀ i nd it, h !! i = Some nd → _item nd = Some it →
    is_Some (dict_get routes it) → is_Some (_parent nd).

(** A tree that nothing was removed from: every node but the root has a
    parent. *)
Definition pristine (h : list RPNode) : Prop :=
  ∀ i nd, h !! i = Some nd → i ≠ root → is_Some (_parent nd).

Definition wf (t : RPTree) : Prop :=
  wf_arena (_rp_list t) (arena t)
  ∧ wf_routes (arena t) (_routes t)
  ∧ live (arena t) (_routes t).

(** A sequence of items in ascending rank, above the rank of [prev]. *)
Fixpoint chain (rp : list string) (prev : option string) (l : list string) : Prop :=
  match l with
  | [] => True
  | x :: l' =>
      match prev with Some p => (pos rp p < pos rp x)%nat | None => True end
      ∧ chain rp (Some x) l'
  end.

(** A sequence of items in descending rank. *)
Fixpoint desc (rp : list string) (l : list string) : Prop :=
  match l with
  | [] => True
  | x :: l' =>
      match l' with y :: _ => (pos rp y < pos rp x)%nat | [] => True end
      ∧ desc rp l'
  end.

(** The items of the RP-list that have a route rank below [m]. *)
Definition bound (t : RPTree) (m : nat) : Prop :=
  ∀ it, is_Some (dict_get (_routes t) it) → (pos (_rp_list t) it < m)%nat.

(** Two arenas that differ in timestamps only. *)
Definition shape (n : RPNode) : option string * option nat * list (string * nat) * option nat :=
  (_item n, _parent n, _children n, _neighbor n).

Definition same_shape (h h' : list RPNode) : Prop := shape <$> h = shape <$> h'.

(** The trees that the miner derives from a tree: by removing an item,
    and by taking the prefix tree of an item. *)
Inductive derived (t : RPTree) : RPTree → Prop :=
  | derived_refl : derived t t
  | derived_remove t1 it t2 :
      derived t t1 → remove_nodes t1 it = Ok t2 → derived t t2
  | derived_prefix t1 it temp pt :
      derived t t1 → prefix_tree t1 it = Ok (temp, pt) → derived t pt.

(** [remove_nodes] for a sequence of items. *)
Fixpoint remove_seq (t : RPTree) (items : list string) : res RPTree :=
  match items with
  | [] => Ok t
  | it :: items' => t ← remove_nodes t it; remove_seq t items'
  end.

(** What [self.add(child)] leaves as it was. *)
Definition add_frame (h h' : list RPNode) (self child : nat) : Prop :=
  length h' = length h
  ∧ ∀ i nd, h !! i = Some nd →
      ∃ nd', h' !! i = Some nd'
        ∧ _item nd' = _item nd
        ∧ _neighbor nd' = _neighbor nd
        ∧ (i ≠ self → _children nd' = _children nd)
        ∧ (i ≠ child → _parent nd' = _parent nd)
        ∧ (i = child → _parent nd' = _parent nd ∨ _parent nd' = Some self)
        ∧ (i = self → ∀ k v, dict_get (_children nd) k = Some v →
                             dict_get (_children nd') k = Some v)
        ∧ (i = root → _timestamps nd' = _timestamps nd).

(** What a removal leaves as it was: labels, neighbors, the timestamps of
    the root, and the parent of every node but the removed one. *)
Definition remove_frame (h h' : list RPNode) (removed : nat → Prop) : Prop :=
  length h' = length h
  ∧ ∀ i nd, h !! i = Some nd →
      ∃ nd', h' !! i = Some nd'
        ∧ _item nd' = _item nd
        ∧ _neighbor nd' = _neighbor nd
        ∧ (¬ removed i → is_Some (_parent nd) → is_Some (_parent nd'))
        ∧ (i = root → _timestamps nd' = _timestamps nd).

(** The invariant of a tree while it is built: nothing has been removed. *)
Definition growing (t : RPTree) : Prop :=
  wf_arena (_rp_list t) (arena t)
  ∧ wf_routes (arena t) (_routes t)
  ∧ pristine (arena t).

(** An arena after nodes were added: the nodes it had keep their label
    and their timestamps. *)
Definition grows (h h' : list RPNode) : Prop :=
  (length h ≤ length h')%nat
  ∧ ∀ i nd, h !! i = Some nd →
      ∃ nd', h' !! i = Some nd' ∧ _item nd' = _item nd
             ∧ _timestamps nd' = _timestamps nd.

(** What a call of [_rp_growth] with prefix [pattern] yields on a tree
    whose items rank below [m]: patterns that extend the prefix by items
    in descending rank, no pattern twice. *)
Definition grown (rp : list string) (pattern : list string) (m : nat)
    (items : list string) (out : list (list string)) : Prop :=
  NoDup out
  ∧ Forall (fun q => ∃ it s, q = pattern ++ it :: s ∧ it ∈ items
                            ∧ (pos rp it < m)%nat ∧ desc rp (it :: s)) out.

(** What the loop of [_rp_growth] asks of its recursive call. *)
Definition rec_ok (rec : RPTree → list string → res (list (list string)))
    (depth : nat) : Prop :=
  ∀ t p m, wf t → bound t m → (m < depth)%nat → NoDup (_rp_list t) →
    ∃ out, rec t p = Ok out ∧ grown (_rp_list t) p m (reverse (_rp_list t)) out.

(** ** Auxiliary definitions of the proofs

    The loop of the recurrence test read from the right. *)

Definition closes (min_ps c : Z) : nat := if min_ps <=? c then 1%nat else 0%nat.

(** Number of intervals recorded from a state whose open run has length [c]
    and ends at [last], once [l] has been read and the last run closed. *)
Fixpoint count_from (per min_ps last c : Z) (l : list Z) : nat :=
  match l with
  | [] => closes min_ps c
  | t :: l' =>
      if t - last <=? per then count_from per min_ps t (c + 1) l'
      else (closes min_ps c + count_from per min_ps t 1 l')%nat
  end.

(** The entry of an item and the state of the exact test on the
    timestamps read so far. *)
Definition agrees (e : option Item) (s : rec_state) : Prop :=
  match e with
  | None => s = rec_init
  | Some e =>
      last_timestamp e = last_occurence s
      ∧ is_Some (last_occurence s)
      ∧ 1 ≤ current_ps s ≤ periodic_support e
      ∧ Z.of_nat (length (sub_db s)) ≤ max_recurrence e
  end.

(** Every entry of the RP-list has seen a timestamp. *)
Definition stamped (rp : list (string * Item)) : Prop :=
  ∀ k e, dict_get rp k = Some e → is_Some (last_timestamp e).


(** ** Databases and trees of the examples *)

Open Scope string_scope.

(** The tree of a database after a sequence of [remove_nodes] calls. *)
Definition mined_tree (per min_ps min_rec : Z) (tdb : tdb_t) (removed : list string)
  : res (list string * RPTree) :=
  rp ← build_rp_list per min_ps min_rec tdb;
  t ← build_tree rp (new_tree rp) tdb;
  t ← remove_seq t removed;
  Ok (rp, t).

Definition tdb_two_singletons : tdb_t := [(1, ["a"]); (10, ["a"])].

Definition tree_abcd_ac : res RPTree :=
  t ← insert_node (new_tree ["a"; "b"; "c"; "d"]) ["a"; "b"; "c"; "d"] 1;
  insert_node t ["a"; "c"] 2.

Definition tree_abc_ac : res RPTree :=
  t ← insert_node (new_tree ["a"; "b"; "c"]) ["a"; "b"; "c"] 1;
  insert_node t ["a"; "c"] 2.

Definition tdb_b_filtered : tdb_t := [(1, ["a"]); (2, ["a"]); (5, ["b"])].

Definition tree_b_filtered : RPTree :=
  Eval vm_compute in
    match mined_tree 1 2 1 tdb_b_filtered ["a"] with
    | Ok (_, t) => t
    | _ => new_tree []
    end.

Definition tdb_bcdx : tdb_t :=
  [ (1, ["b"; "c"; "d"; "x"]); (2, ["b"; "d"; "x"]); (3, ["b"; "c"; "d"; "x"]);
    (4, ["b"; "d"; "x"]); (5, ["b"; "c"; "d"; "x"]);
    (7, ["b"; "x"]); (9, ["c"; "d"; "x"]); (11, ["c"; "d"; "x"]);
    (13, ["b"; "c"; "d"]); (15, ["b"; "c"]); (17, ["c"]) ].

Definition tdb_bcdx_pairs : tdb_t :=
  [ (1, ["b"; "c"; "d"; "x"]); (2, ["b"; "c"; "d"; "x"]); (3, ["b"; "d"; "x"]);
    (4, ["b"; "c"; "d"; "x"]); (5, ["b"; "c"; "d"; "x"]); (6, ["b"; "d"; "x"]);
    (7, ["b"; "c"; "d"; "x"]); (8, ["b"; "c"; "d"; "x"]);
    (10, ["b"; "x"]); (11, ["b"; "x"]);
    (13, ["c"; "d"; "x"]); (14, ["c"; "d"; "x"]);
    (16, ["c"; "d"; "x"]); (17, ["c"; "d"; "x"]);
    (20, ["b"; "c"; "d"]); (22, ["b"; "c"; "d"]);
    (24, ["b"; "c"]); (26, ["b"; "c"]) ].

Definition paper_tdb : tdb_t :=
  [ (1, ["a"; "b"; "g"]); (2, ["a"; "c"; "d"]); (3, ["a"; "b"; "e"; "f"]);
    (4, ["a"; "b"; "c"; "d"]); (5, ["c"; "d"; "e"; "f"; "g"]);
    (6, ["e"; "f"; "g"]); (7, ["a"; "b"; "c"; "g"]); (9, ["c"; "d"]);
    (10, ["c"; "d"; "e"; "f"]); (11, ["a"; "b"; "e"; "f"]);
    (12, ["a"; "b"; "c"; "d"; "e"; "f"; "g"]); (14, ["a"; "b"; "g"]) ].

Definition paper_patterns : list (list string) :=
  [["f"]; ["f"; "e"]; ["e"]; ["d"]; ["d"; "c"]; ["b"]; ["b"; "a"]; ["a"]].

Close Scope string_scope.

(** ** Further definitions

    The interval that a run of timestamps is recorded as: its first and
    its last timestamp. *)

Definition run_interval (run : list Z) : option Z * option Z := (head run, last run).

(** The statement [if current_ps >= self.min_ps: sub_db.append(...)]. *)
Definition close_run (min_ps : Z) (start lst : option Z) (c : Z)
  : list (option Z * option Z) :=
  if min_ps <=? c then [(start, lst)] else [].

(** The intervals recorded from a state whose open run started at [start],
    has length [c] and ends at [prev], once [l] has been read and the last
    run closed. *)
Fixpoint intervals_from (per min_ps : Z) (start : option Z) (prev c : Z) (l : list Z)
  : list (option Z * option Z) :=
  match l with
  | [] => close_run min_ps start (Some prev) c
  | t :: l' =>
      if t - prev <=? per then intervals_from per min_ps start t (c + 1) l'
      else close_run min_ps start (Some prev) c
           ++ intervals_from per min_ps (Some t) t 1 l'
  end.

(** A run: consecutive timestamps at most [per] apart. *)
Fixpoint gaps_within (per : Z) (run : list Z) : Prop :=
  match run with
  | [] => True
  | t :: rest =>
      match rest with [] => True | t' :: _ => t' - t ≤ per end
      ∧ gaps_within per rest
  end.

(** Consecutive runs are more than [per] apart. *)
Fixpoint gaps_between (per : Z) (runs : list (list Z)) : Prop :=
  match runs with
  | [] => True
  | run :: rest =>
      match rest with
      | [] => True
      | run' :: _ => ∀ a b, last run = Some a → head run' = Some b → per < b - a
      end
      ∧ gaps_between per rest
  end.

(** The number of times an item is listed in a transaction, and in a
    database (an item listed twice in a transaction counts twice). *)
Definition count_in (a : string) (items : list string) : Z :=
  Z.of_nat (length (filter (fun x => x = a) items)).

Definition occurrences (tdb : tdb_t) (a : string) : Z :=
  count_in a (concat tdb.*2).

(** The entry of an item after [n] occurrences, the last of them at [lt]:
    its [support] has counted them and bounds [periodic_support]; for a
    positive [min_ps], every recurrence of the estimate is paid for by
    [min_ps] occurrences of their own. *)
Definition tally (min_ps : Z) (a : string) (o : option Item) (n : Z) (lt : option Z)
  : Prop :=
  match o with
  | None => n = 0
  | Some e =>
      item e = a ∧ support e = n ∧ 0 < n
      ∧ last_timestamp e = lt ∧ is_Some lt
      ∧ 1 ≤ periodic_support e ≤ support e
      ∧ (0 < min_ps →
         0 ≤ max_recurrence e ∧ 1 ≤ periodic_support e
         ∧ min_ps * max_recurrence e + periodic_support e ≤ support e)
  end.

(** A list of entries in the order of the sort key. *)
Fixpoint key_sorted (l : list (string * Item)) : Prop :=
  match l with
  | [] => True
  | a :: l' =>
      match l' with [] => True | b :: _ => rp_key_le a b = true end
      ∧ key_sorted l'
  end.

(** An item passes the exact test on the timestamps collected for it. *)
Definition passes_test (per min_ps min_rec : Z) (timestamps : list (string * list Z))
    (k : string) : Prop :=
  ∃ ts, dict_get timestamps k = Some ts
        ∧ _get_recurrence per min_ps min_rec (sorted ts) = true.

(** The items on the way up from a node: its own item, the item of its
    parent, and so on, up to the root or to a node that has no parent. *)
Fixpoint labels_up (fuel : nat) (h : list RPNode) (node : option nat) : list string :=
  match fuel, node with
  | S fuel', Some n =>
      match h !! n with
      | Some nd =>
          match _item nd with
          | Some it => it :: labels_up fuel' h (_parent nd)
          | None => []
          end
      | None => []
      end
  | _, _ => []
  end.

(** The timestamps of a node. *)
Definition timestamps_of (h : list RPNode) (n : nat) : list Z :=
  match h !! n with Some nd => _timestamps nd | None => [] end.

(** An item is on the way up from a node. *)
Definition above (h : list RPNode) (k : string) (n : nat) : Prop :=
  k ∈ labels_up (length h) h (Some n).

#[global] Instance above_dec h k n : Decision (above h k n).
Proof. unfold above. apply _. Defined.

(** The timestamps of the nodes of [ns] that have the item [k] on their
    way up, node after node. *)
Definition credited (h : list RPNode) (ns : list nat) (k : string) : list Z :=
  concat ((fun n => if decide (above h k n) then timestamps_of h n else []) <$> ns).

(** The node that [get_child] leads to from a node along a list of
    items. *)
Fixpoint get_path (h : list RPNode) (n : nat) (items : list string) : option nat :=
  match items with
  | [] => Some n
  | it :: rest =>
      match h !! n with
      | Some nd =>
          match get_child nd it with
          | Some c => get_path h c rest
          | None => None
          end
      | None => None
      end
  end.

(** The tail of the route of an item. *)
Definition route_tail (routes : list (string * (nat * nat))) (it : string) : option nat :=
  match dict_get routes it with Some (_, tail) => Some tail | None => None end.

(** The route of an item after a node was chained into it. *)
Definition route_with (routes : list (string * (nat * nat))) (it : string) (point : nat)
  : list (string * (nat * nat)) :=
  dict_set routes it
    (match dict_get routes it with
     | Some (head, _) => (head, point)
     | None => (point, point)
     end).

(** Every node that is registered among the children of a node has that
    node as its parent and the key as its item. *)
Definition owned (h : list RPNode) : Prop :=
  ∀ p pn it c, h !! p = Some pn → get_child pn it = Some c →
    ∃ cn, h !! c = Some cn ∧ _parent cn = Some p ∧ _item cn = Some it.

(** The timestamps of the transactions that the second scan turns into
    the item list [p]. *)
Definition stored (rp : list string) (tdb : list (Z * list string))
    (p : list string) : list Z :=
  (filter (fun tx => sorted_items rp tx.2 = p) tdb).*1.

(** A tree that holds the transactions of a database: the node that an
    item list leads to holds the timestamps of the transactions with that
    item list, and the item list of every transaction leads to a node. *)
Definition holds (t : RPTree) (tdb : tdb_t) : Prop :=
  (∀ p n, get_path (arena t) root p = Some n →
     timestamps_of (arena t) n = stored (_rp_list t) tdb p)
  ∧ (∀ p, stored (_rp_list t) tdb p ≠ [] → is_Some (get_path (arena t) root p)).

(** The databases and thresholds for which [floor_div] is the division
    that Python computes: fewer than 2^53 items listed, so that every
    [periodic_support] converts to a float exactly, and a [min_ps] that
    converts to a float at all. *)
Definition in_float_range (tdb : tdb_t) (min_ps : Z) : Prop :=
  Z.of_nat (length (concat tdb.*2)) < 2 ^ 53
  ∧ Z.abs min_ps < 2 ^ 1024 - 2 ^ 970.

(** The nodes of an arena that hold an item, in the order in which they
    were created. *)
Definition item_nodes (h : list RPNode) (it : string) : list nat :=
  filter (fun i => h !! i ≫= _item = Some it) (seq 0 (length h)).

(** The neighbor chain from a node runs through the nodes [ns] and ends
    there. *)
Fixpoint is_route (h : list RPNode) (n : nat) (ns : list nat) : Prop :=
  match ns with
  | [] => False
  | m :: rest =>
      m = n
      ∧ ∃ nd, h !! n = Some nd
          ∧ match rest with
            | [] => _neighbor nd = None
            | nb :: _ => _neighbor nd = Some nb ∧ is_route h nb rest
            end
  end.

(** The routes of a tree lead through all the nodes of their item, and
    every item that a node holds has a route. *)
Definition routed (t : RPTree) : Prop :=
  ∀ it,
    match dict_get (_routes t) it with
    | Some (head, tail) =>
        is_route (arena t) head (item_nodes (arena t) it)
        ∧ last (item_nodes (arena t) it) = Some tail
    | None => item_nodes (arena t) it = []
    end.

(** * Properties of the embedding *)

(** ** Dictionaries *)

Section dict_facts.
Context {K V : Type} `{EqDecision K}.
Implicit Types (d : list (K * V)) (k : K) (v : V).

Lemma dict_get_set_eq d k v : dict_get (dict_set d k v) k = Some v.
Proof.
  induction d as [|[k' v'] d IH]; simpl.
  - by rewrite decide_True.
  - destruct (decide (k' = k)) as [->|Hne]; simpl.
    + by rewrite decide_True.
    + by rewrite decide_False.
Qed.

Lemma dict_get_set_ne d k k' v :
  k ≠ k' → dict_get (dict_set d k v) k' = dict_get d k'.
Proof.
  intros Hne. induction d as [|[k0 v0] d IH]; simpl.
  - by rewrite decide_False.
  - destruct (decide (k0 = k)) as [->|Hne0]; simpl.
    + by rewrite !decide_False.
    + by rewrite IH.
Qed.

Lemma dict_get_del_eq d k : dict_get (dict_del d k) k = None.
Proof.
  induction d as [|[k0 v0] d IH]; simpl; [done|].
  destruct (decide (k0 = k)) as [->|Hne0]; simpl; [done|].
  by rewrite decide_False.
Qed.

Lemma dict_get_del_ne d k k' :
  k ≠ k' → dict_get (dict_del d k) k' = dict_get d k'.
Proof.
  intros Hne. induction d as [|[k0 v0] d IH]; simpl; [done|].
  destruct (decide (k0 = k)) as [->|Hne0]; simpl.
  - by rewrite decide_False.
  - by rewrite IH.
Qed.

Lemma dict_get_Some_elem d k v : dict_get d k = Some v → (k, v) ∈ d.
Proof.
  induction d as [|[k0 v0] d IH]; simpl; [done|].
  destruct (decide (k0 = k)) as [->|Hne0].
  - intros [= ->]. apply list_elem_of_here.
  - intros Hd. apply list_elem_of_further. by apply IH.
Qed.

Lemma dict_get_None_keys d k : dict_get d k = None ↔ k ∉ dict_keys d.
Proof.
  unfold dict_keys. induction d as [|[k0 v0] d IH]; simpl.
  - split; [intros _; apply not_elem_of_nil|done].
  - rewrite not_elem_of_cons. destruct (decide (k0 = k)) as [->|Hne0].
    + split; [done|]. by intros [? _].
    + rewrite IH. split; [by intros ?; split|by intros [_ ?]].
Qed.

Lemma dict_mem_true d k : dict_mem d k = true ↔ is_Some (dict_get d k).
Proof.
  unfold dict_mem. destruct (dict_get d k); split; try done.
Qed.

Lemma dict_mem_false d k : dict_mem d k = false ↔ dict_get d k = None.
Proof. unfold dict_mem. by destruct (dict_get d k). Qed.

Lemma dict_keys_set d k v :
  ∀ k', k' ∈ dict_keys (dict_set d k v) ↔ k' = k ∨ k' ∈ dict_keys d.
Proof.
  intros k'. unfold dict_keys. induction d as [|[k0 v0] d IH]; simpl.
  - rewrite list_elem_of_singleton. split; [by left|].
    intros [?|Hin]; [done|]. by apply not_elem_of_nil in Hin.
  - destruct (decide (k0 = k)) as [->|Hne0]; simpl.
    + rewrite !elem_of_cons. intuition congruence.
    + rewrite !elem_of_cons, IH. intuition congruence.
Qed.

End dict_facts.

(** ** The recurrence test and the maximal runs *)

Lemma rec_loop_count per min_ps l : ∀ s last,
  last_occurence s = Some last →
  length (rec_close min_ps (rec_loop per min_ps s l))
  = (length (sub_db s) + count_from per min_ps last (current_ps s) l)%nat.
Proof.
  induction l as [|t l IH]; intros s last Hlast.
  - simpl. unfold rec_close, closes. destruct (min_ps <=? current_ps s).
    + rewrite length_app. simpl. lia.
    + lia.
  - change (rec_loop per min_ps s (t :: l))
      with (rec_loop per min_ps (rec_step per min_ps s t) l).
    rewrite (IH _ t).
    + unfold rec_step. rewrite Hlast. simpl.
      destruct (t - last <=? per); simpl; [done|]. unfold closes.
      destruct (min_ps <=? current_ps s); [|lia].
      rewrite length_app. simpl. lia.
    + unfold rec_step. rewrite Hlast. by destruct (t - last <=? per).
Qed.

Lemma maximal_runs_nonempty per l : Forall (fun run => run ≠ []) (maximal_runs per l).
Proof.
  induction l as [|t l IH]; simpl; [constructor|].
  destruct (maximal_runs per l) as [|[|t' run] runs].
  - by repeat constructor.
  - by repeat constructor.
  - destruct (t' - t <=? per).
    + inversion IH; subst. by constructor.
    + by constructor.
Qed.

Lemma length_qualifying_cons min_ps (run : list Z) runs :
  length (filter (long_enough min_ps) (run :: runs))
  = (closes min_ps (Z.of_nat (length run))
     + length (filter (long_enough min_ps) runs))%nat.
Proof.
  rewrite filter_cons. unfold closes.
  destruct (Z.leb_spec min_ps (Z.of_nat (length run))).
  - by rewrite decide_True.
  - rewrite decide_False; [done|]. unfold long_enough. lia.
Qed.

Lemma count_from_runs per min_ps l : ∀ last c,
  count_from per min_ps last c l =
  match maximal_runs per l with
  | (t' :: run) :: runs =>
      ((if (t' - last <=? per)%Z
        then closes min_ps (c + Z.of_nat (length (t' :: run)))%Z
        else closes min_ps c + closes min_ps (Z.of_nat (length (t' :: run))))
       + length (filter (long_enough min_ps) runs))%nat
  | _ => closes min_ps c
  end.
Proof.
  induction l as [|t l IH]; intros last c; simpl; [done|].
  pose proof (maximal_runs_nonempty per l) as Hne.
  rewrite !IH. clear IH.
  destruct (maximal_runs per l) as [|[|t' run] runs].
  - change (Z.of_nat (S (length (@nil Z)))) with 1.
    change (length (filter (long_enough min_ps) [])) with 0%nat.
    destruct (t - last <=? per); lia.
  - by inversion Hne.
  - destruct (t' - t <=? per).
    + destruct (t - last <=? per).
      * simpl length. f_equal. f_equal. lia.
      * simpl length. replace (1 + Z.of_nat (S (length run)))
          with (Z.of_nat (S (S (length run)))) by lia. lia.
    + rewrite length_qualifying_cons.
      destruct (t - last <=? per); cbn [length];
        change (Z.of_nat 1) with 1; lia.
Qed.

(** On a sequence that holds a timestamp, the loop counts the maximal runs
    of length at least [min_ps]. *)
Lemma recurrence_count_runs per min_ps l :
  l ≠ [] →
  recurrence_count per min_ps l
  = Z.of_nat (length (qualifying_runs per min_ps l)).
Proof.
  destruct l as [|t l]; [done|]. intros _.
  unfold recurrence_count, recurrence_intervals, qualifying_runs. f_equal.
  change (rec_loop per min_ps rec_init (t :: l))
    with (rec_loop per min_ps (rec_step per min_ps rec_init t) l).
  rewrite (rec_loop_count _ _ _ _ t) by done.
  simpl. rewrite count_from_runs.
  pose proof (maximal_runs_nonempty per l) as Hne.
  destruct (maximal_runs per l) as [|[|t' run] runs].
  - rewrite length_qualifying_cons. cbn [length].
    change (Z.of_nat 1) with 1.
    change (length (filter (long_enough min_ps) [])) with 0%nat. lia.
  - by inversion Hne.
  - destruct (t' - t <=? per).
    + rewrite length_qualifying_cons. cbn [length].
      replace (1 + Z.of_nat (S (length run)))
        with (Z.of_nat (S (S (length run)))) by lia. done.
    + rewrite !length_qualifying_cons. cbn [length].
      change (Z.of_nat 1) with 1. lia.
Qed.

(** On the empty sequence the loop body never runs and [current_ps] keeps
    its initial value 1. *)
Lemma recurrence_intervals_nil per min_ps :
  recurrence_intervals per min_ps []
  = if min_ps <=? 1 then [(None, None)] else [].
Proof. reflexivity. Qed.

Lemma get_recurrence_runs per min_ps min_rec l :
  l ≠ [] ∨ 1 < min_ps →
  _get_recurrence per min_ps min_rec l = qualifies_by_runs per min_ps min_rec l.
Proof.
  intros Hl. unfold _get_recurrence, qualifies_by_runs.
  destruct l as [|t l].
  - destruct Hl as [?|Hps]; [done|].
    unfold recurrence_count. rewrite recurrence_intervals_nil.
    destruct (Z.leb_spec min_ps 1); [lia|done].
  - by rewrite recurrence_count_runs.
Qed.

(** ** The RP-list estimate against the exact recurrence count *)

Lemma bind_Ok {A B : Type} (m : res A) (f : A → res B) (b : B) :
  m ≫= f = Ok b → ∃ a, m = Ok a ∧ f a = Ok b.
Proof. destruct m as [a| | |]; simpl; try done. by exists a. Qed.

Lemma dict_set_keys_NoDup {V : Type} (d : list (string * V)) k v :
  NoDup (dict_keys d) → NoDup (dict_keys (dict_set d k v)).
Proof.
  unfold dict_keys. induction d as [|[k0 v0] d IH]; simpl; intros Hnd.
  - apply NoDup_singleton.
  - inversion Hnd as [|? ? Hnotin Hnd']; subst.
    destruct (decide (k0 = k)) as [->|Hne]; simpl.
    + by constructor.
    + constructor; [|by apply IH].
      intros Hin. apply (dict_keys_set d k v k0) in Hin.
      destruct Hin as [?|Hin]; [done|]. by apply Hnotin.
Qed.

Lemma dict_get_elem_NoDup {V : Type} (d : list (string * V)) k v :
  NoDup (dict_keys d) → (k, v) ∈ d → dict_get d k = Some v.
Proof.
  unfold dict_keys. induction d as [|[k0 v0] d IH]; simpl; intros Hnd Hin.
  - by apply not_elem_of_nil in Hin.
  - inversion Hnd as [|? ? Hnotin Hnd']; subst.
    apply elem_of_cons in Hin as [[= -> ->]|Hin].
    + by rewrite decide_True.
    + rewrite decide_False; [by apply IH|].
      intros ->. apply Hnotin. apply list_elem_of_fmap. by exists (k, v).
Qed.

Lemma floor_div_Ok a b q : floor_div a b = Ok q → b ≠ 0 ∧ q = a / b.
Proof. unfold floor_div. destruct (decide (b = 0)); [done|]. by intros [= <-]. Qed.

Lemma rp_scan_item_other per min_ps t rp rp' it a :
  rp_scan_item per min_ps t rp it = Ok rp' → a ≠ it →
  dict_get rp' a = dict_get rp a.
Proof.
  intros Hscan Hne. unfold rp_scan_item in Hscan.
  apply bind_Ok in Hscan as (rp1 & Hrp1 & Hscan).
  apply bind_Ok in Hscan as (e1 & He1 & [= <-]).
  rewrite dict_get_set_ne by done.
  destruct (dict_get rp it) as [e|].
  - destruct (last_timestamp e) as [last|]; [|done].
    destruct (t - last <=? per).
    + injection Hrp1 as <-. by rewrite dict_get_set_ne.
    + apply bind_Ok in Hrp1 as (q & _ & [= <-]). by rewrite dict_get_set_ne.
  - injection Hrp1 as <-. by rewrite dict_get_set_ne.
Qed.

Lemma rp_scan_item_keys per min_ps t rp rp' it :
  rp_scan_item per min_ps t rp it = Ok rp' →
  NoDup (dict_keys rp) → NoDup (dict_keys rp').
Proof.
  intros Hscan Hnd. unfold rp_scan_item in Hscan.
  apply bind_Ok in Hscan as (rp1 & Hrp1 & Hscan).
  apply bind_Ok in Hscan as (e1 & He1 & [= <-]).
  apply dict_set_keys_NoDup.
  destruct (dict_get rp it) as [e|].
  - destruct (last_timestamp e) as [last|]; [|done].
    destruct (t - last <=? per).
    + injection Hrp1 as <-. by apply dict_set_keys_NoDup.
    + apply bind_Ok in Hrp1 as (q & _ & [= <-]). by apply dict_set_keys_NoDup.
  - injection Hrp1 as <-. by apply dict_set_keys_NoDup.
Qed.

(** The first occurrence of the item in a transaction: the entry moves as
    the exact test does. *)
Lemma rp_scan_item_first per min_ps t rp rp' a s :
  0 < min_ps →
  rp_scan_item per min_ps t rp a = Ok rp' →
  agrees (dict_get rp a) s →
  agrees (dict_get rp' a) (rec_step per min_ps s t).
Proof.
  intros Hps Hscan Hag. unfold rp_scan_item in Hscan.
  apply bind_Ok in Hscan as (rp1 & Hrp1 & Hscan).
  apply bind_Ok in Hscan as (e1 & He1 & [= <-]).
  rewrite dict_get_set_eq. unfold rec_step.
  destruct (dict_get rp a) as [e|] eqn:Hget; simpl in Hag.
  - destruct Hag as (Hlast & [last Hsl] & Hcur & Hsub).
    rewrite Hsl in Hlast. rewrite Hlast in Hrp1. rewrite Hsl.
    destruct (t - last <=? per).
    + injection Hrp1 as <-. rewrite dict_get_set_eq in He1.
      injection He1 as <-. simpl. repeat split; eauto; lia.
    + apply bind_Ok in Hrp1 as (q & Hq & [= <-]).
      rewrite dict_get_set_eq in He1. injection He1 as <-.
      apply floor_div_Ok in Hq as [_ ->]. simpl.
      repeat split; eauto; try lia.
      destruct (Z.leb_spec min_ps (current_ps s)).
      * rewrite length_app. simpl.
        assert (1 ≤ periodic_support e / min_ps)
          by (apply Z.div_le_lower_bound; lia). lia.
      * assert (0 ≤ periodic_support e / min_ps)
          by (apply Z.div_pos; lia). lia.
  - subst s. injection Hrp1 as <-. rewrite dict_get_set_eq in He1.
    injection He1 as <-. simpl. repeat split; eauto; lia.
Qed.

(** A further occurrence of the item in the same transaction only
    lengthens the open run of the entry. *)
Lemma rp_scan_item_again per min_ps t rp rp' a s :
  0 ≤ per →
  rp_scan_item per min_ps t rp a = Ok rp' →
  agrees (dict_get rp a) s → last_occurence s = Some t →
  agrees (dict_get rp' a) s.
Proof.
  intros Hper Hscan Hag Hst. unfold rp_scan_item in Hscan.
  apply bind_Ok in Hscan as (rp1 & Hrp1 & Hscan).
  apply bind_Ok in Hscan as (e1 & He1 & [= <-]).
  rewrite dict_get_set_eq.
  destruct (dict_get rp a) as [e|] eqn:Hget; simpl in Hag.
  - destruct Hag as (Hlast & _ & Hcur & Hsub).
    rewrite Hst in Hlast. rewrite Hlast in Hrp1.
    destruct (Z.leb_spec (t - t) per); [|lia].
    injection Hrp1 as <-. rewrite dict_get_set_eq in He1.
    injection He1 as <-. simpl. rewrite Hst. repeat split; eauto; lia.
  - subst s. done.
Qed.

Lemma rp_scan_items_keys per min_ps t items : ∀ rp rp',
  rp_scan_items per min_ps t rp items = Ok rp' →
  NoDup (dict_keys rp) → NoDup (dict_keys rp').
Proof.
  induction items as [|it items IH]; simpl; intros rp rp' Hscan Hnd.
  - by injection Hscan as <-.
  - apply bind_Ok in Hscan as (rp1 & Hrp1 & Hscan).
    eapply IH; [done|]. by eapply rp_scan_item_keys.
Qed.

Lemma rp_scan_items_absent per min_ps t a items : ∀ rp rp',
  rp_scan_items per min_ps t rp items = Ok rp' → a ∉ items →
  dict_get rp' a = dict_get rp a.
Proof.
  induction items as [|it items IH]; simpl; intros rp rp' Hscan Hnotin.
  - by injection Hscan as <-.
  - apply bind_Ok in Hscan as (rp1 & Hrp1 & Hscan).
    apply not_elem_of_cons in Hnotin as [Hne Hnotin].
    rewrite (IH _ _ Hscan Hnotin). by eapply rp_scan_item_other.
Qed.

Lemma rp_scan_items_again per min_ps t a s items : ∀ rp rp',
  0 ≤ per →
  rp_scan_items per min_ps t rp items = Ok rp' →
  agrees (dict_get rp a) s → last_occurence s = Some t →
  agrees (dict_get rp' a) s.
Proof.
  induction items as [|it items IH]; simpl; intros rp rp' Hper Hscan Hag Hst.
  - by injection Hscan as <-.
  - apply bind_Ok in Hscan as (rp1 & Hrp1 & Hscan).
    eapply IH; [done..| |done].
    destruct (decide (a = it)) as [->|Hne].
    + by eapply rp_scan_item_again.
    + by rewrite (rp_scan_item_other _ _ _ _ _ _ _ Hrp1 Hne).
Qed.

Lemma rec_step_last per min_ps s t :
  last_occurence (rec_step per min_ps s t) = Some t.
Proof.
  unfold rec_step. destruct (last_occurence s); [|done].
  by destruct (_ <=? _).
Qed.

Lemma rp_scan_items_present per min_ps t a s items : ∀ rp rp',
  0 ≤ per → 0 < min_ps →
  rp_scan_items per min_ps t rp items = Ok rp' →
  agrees (dict_get rp a) s → a ∈ items →
  agrees (dict_get rp' a) (rec_step per min_ps s t).
Proof.
  induction items as [|it items IH]; simpl; intros rp rp' Hper Hps Hscan Hag Hin.
  - by apply not_elem_of_nil in Hin.
  - apply bind_Ok in Hscan as (rp1 & Hrp1 & Hscan).
    destruct (decide (a = it)) as [->|Hne].
    + eapply rp_scan_items_again; [done..| |apply rec_step_last].
      by eapply rp_scan_item_first.
    + apply elem_of_cons in Hin as [?|Hin]; [done|].
      eapply IH; [done..| |done].
      by rewrite (rp_scan_item_other _ _ _ _ _ _ _ Hrp1 Hne).
Qed.

Lemma item_timestamps_cons t items tdb a :
  item_timestamps ((t, items) :: tdb) a
  = if decide (a ∈ items) then t :: item_timestamps tdb a
    else item_timestamps tdb a.
Proof.
  unfold item_timestamps. cbn.
  by destruct (decide (a ∈ items)).
Qed.

Lemma rp_scan_keys per min_ps tdb : ∀ rp rp',
  rp_scan per min_ps rp tdb = Ok rp' →
  NoDup (dict_keys rp) → NoDup (dict_keys rp').
Proof.
  induction tdb as [|[t items] tdb IH]; simpl; intros rp rp' Hscan Hnd.
  - by injection Hscan as <-.
  - apply bind_Ok in Hscan as (rp1 & Hrp1 & Hscan).
    eapply IH; [done|]. by eapply rp_scan_items_keys.
Qed.

(** After the first scan the entry of an item agrees with the state of the
    exact test at the end of its loop over the timestamps of the item. *)
Lemma rp_scan_agrees per min_ps a tdb : ∀ rp rp' s,
  0 ≤ per → 0 < min_ps →
  rp_scan per min_ps rp tdb = Ok rp' →
  agrees (dict_get rp a) s →
  agrees (dict_get rp' a) (rec_loop per min_ps s (item_timestamps tdb a)).
Proof.
  induction tdb as [|[t items] tdb IH]; simpl; intros rp rp' s Hper Hps Hscan Hag.
  - by injection Hscan as <-.
  - apply bind_Ok in Hscan as (rp1 & Hrp1 & Hscan).
    rewrite item_timestamps_cons. destruct (decide (a ∈ items)) as [Hin|Hnotin].
    + change (rec_loop per min_ps s (t :: item_timestamps tdb a))
        with (rec_loop per min_ps (rec_step per min_ps s t) (item_timestamps tdb a)).
      eapply IH; [done..|]. by eapply rp_scan_items_present.
    + eapply IH; [done..|].
      by rewrite (rp_scan_items_absent _ _ _ _ _ _ _ Hrp1 Hnotin).
Qed.

Lemma rp_flush_elem min_ps min_rec rp : ∀ final a e',
  rp_flush min_ps min_rec rp = Ok final → (a, e') ∈ final →
  ∃ e, (a, e) ∈ rp ∧ rp_flush_item min_ps e = Ok e'
       ∧ min_rec ≤ max_recurrence e'.
Proof.
  induction rp as [|[it e] rp IH]; simpl; intros final a e' Hflush Hin.
  - injection Hflush as <-. by apply not_elem_of_nil in Hin.
  - apply bind_Ok in Hflush as (e1 & He1 & Hflush).
    apply bind_Ok in Hflush as (final' & Hfinal' & Hflush).
    destruct (Z.leb_spec min_rec (max_recurrence e1)).
    + injection Hflush as <-.
      apply elem_of_cons in Hin as [[= -> ->]|Hin].
      * exists e. split; [apply list_elem_of_here|done].
      * destruct (IH _ _ _ Hfinal' Hin) as (e0 & ? & ? & ?).
        exists e0. split; [by apply list_elem_of_further|done].
    + injection Hflush as <-.
      destruct (IH _ _ _ Hfinal' Hin) as (e0 & ? & ? & ?).
      exists e0. split; [by apply list_elem_of_further|done].
Qed.

(** Ascending sequences are what [sorted] returns them as. *)
Lemma ascending_Forall t l : ascending (t :: l) → Forall (fun t' => t < t') l.
Proof.
  revert t. induction l as [|t' l IH]; intros t Hasc; [constructor|].
  destruct Hasc as [Hlt Hasc]. constructor; [done|].
  eapply Forall_impl; [by apply IH|]. simpl. intros. lia.
Qed.

Lemma insert_sorted_head t l :
  Forall (fun t' => t < t') l → insert_sorted t l = t :: l.
Proof.
  destruct l as [|t' l]; [done|]. intros Hall. inversion Hall; subst. simpl.
  destruct (Z.leb_spec t t'); [done|lia].
Qed.

Lemma sorted_ascending l : ascending l → sorted l = l.
Proof.
  induction l as [|t l IH]; [done|]. intros Hasc.
  change (sorted (t :: l)) with (insert_sorted t (sorted l)).
  rewrite IH by apply Hasc. apply insert_sorted_head. by apply ascending_Forall.
Qed.

Lemma ascending_item_timestamps tdb a :
  ascending tdb.*1 → ascending (item_timestamps tdb a).
Proof.
  induction tdb as [|[t items] tdb IH]; [done|]. intros Hasc.
  rewrite item_timestamps_cons.
  assert (ascending (item_timestamps tdb a)) as Hrest by apply IH, Hasc.
  destruct (decide (a ∈ items)); [|done].
  split; [|done].
  apply ascending_Forall in Hasc.
  destruct (item_timestamps tdb a) as [|t' l] eqn:Heq; [done|].
  assert (t' ∈ tdb.*1) as Hin.
  { assert (t' ∈ item_timestamps tdb a) as Hin by (rewrite Heq; apply list_elem_of_here).
    unfold item_timestamps in Hin.
    apply list_elem_of_fmap in Hin as (tx & -> & Hin).
    apply list_elem_of_filter in Hin as [_ Hin].
    apply list_elem_of_fmap. by exists tx. }
  rewrite Forall_forall in Hasc. by apply Hasc.
Qed.

(** With [min_ps] at least 2 the estimate of the RP-list bounds the exact
    recurrence count of every item it keeps. *)
Lemma estimate_bounds_recurrence tdb per min_ps min_rec rp final a e :
  ascending tdb.*1 → 0 ≤ per → 2 ≤ min_ps →
  rp_scan per min_ps [] tdb = Ok rp →
  rp_flush min_ps min_rec rp = Ok final →
  (a, e) ∈ final →
  recurrence_count per min_ps (sorted (item_timestamps tdb a)) ≤ max_recurrence e.
Proof.
  intros Hasc Hper Hps Hscan Hflush Hin.
  rewrite sorted_ascending by by apply ascending_item_timestamps.
  destruct (rp_flush_elem _ _ _ _ _ _ Hflush Hin) as (e0 & Hin0 & Hfl & _).
  assert (NoDup (dict_keys rp)) as Hnd.
  { eapply rp_scan_keys; [done|]. apply NoDup_nil_2. }
  apply (dict_get_elem_NoDup _ _ _ Hnd) in Hin0.
  pose proof (rp_scan_agrees per min_ps a tdb [] rp rec_init
                Hper ltac:(lia) Hscan eq_refl) as Hag.
  rewrite Hin0 in Hag. simpl in Hag.
  destruct Hag as (_ & _ & Hcur & Hsub).
  unfold recurrence_count, recurrence_intervals, rec_close.
  set (s := rec_loop per min_ps rec_init (item_timestamps tdb a)) in *.
  unfold rp_flush_item in Hfl.
  destruct (Z.ltb_spec 1 (periodic_support e0)).
  - apply bind_Ok in Hfl as (q & Hq & [= <-]).
    apply floor_div_Ok in Hq as [_ ->]. simpl.
    destruct (Z.leb_spec min_ps (current_ps s)).
    + rewrite length_app. simpl.
      assert (1 ≤ periodic_support e0 / min_ps)
        by (apply Z.div_le_lower_bound; lia). lia.
    + assert (0 ≤ periodic_support e0 / min_ps)
        by (apply Z.div_pos; lia). lia.
  - injection Hfl as <-.
    destruct (Z.leb_spec min_ps (current_ps s)); [lia|lia].
Qed.

(** *** The RP-list holds every item once *)

Lemma rp_flush_keys min_ps min_rec rp : ∀ final,
  rp_flush min_ps min_rec rp = Ok final →
  dict_keys final `sublist_of` dict_keys rp.
Proof.
  unfold dict_keys. induction rp as [|[it e] rp IH]; simpl; intros final Hflush.
  - injection Hflush as <-. constructor.
  - apply bind_Ok in Hflush as (e1 & He1 & Hflush).
    apply bind_Ok in Hflush as (final' & Hfinal' & Hflush).
    destruct (min_rec <=? max_recurrence e1); injection Hflush as <-; simpl.
    + apply sublist_skip. by apply IH.
    + apply sublist_cons. by apply IH.
Qed.

Lemma rp_insert_Permutation a l : rp_insert a l ≡ₚ a :: l.
Proof.
  induction l as [|b l IH]; simpl; [done|].
  destruct (rp_key_le a b); [done|]. rewrite IH. apply Permutation_swap.
Qed.

Lemma rp_sorted_Permutation final : rp_sorted final ≡ₚ dict_keys final.
Proof.
  unfold rp_sorted, dict_keys. apply fmap_Permutation.
  induction final as [|a l IH]; simpl; [done|].
  by rewrite rp_insert_Permutation, IH.
Qed.

Lemma build_rp_list_NoDup per min_ps min_rec tdb rp :
  build_rp_list per min_ps min_rec tdb = Ok rp → NoDup rp.
Proof.
  unfold build_rp_list. intros Hb.
  apply bind_Ok in Hb as (rp_list & Hscan & Hb).
  apply bind_Ok in Hb as (final & Hflush & [= <-]).
  rewrite rp_sorted_Permutation.
  eapply sublist_NoDup; [|by eapply rp_flush_keys].
  eapply rp_scan_keys; [done|]. apply NoDup_nil_2.
Qed.

(** *** The first scan raises nothing but a division by zero *)

Lemma rp_scan_item_outcome per min_ps t rp it :
  stamped rp →
  (∃ rp', rp_scan_item per min_ps t rp it = Ok rp' ∧ stamped rp')
  ∨ (min_ps = 0 ∧ rp_scan_item per min_ps t rp it = Raise ZeroDivisionError).
Proof.
  intros Hlast.
  assert (∀ rp1 e1, dict_get rp1 it = Some e1 →
            (∀ k e, k ≠ it → dict_get rp1 k = Some e → is_Some (last_timestamp e)) →
            ∃ rp', (e ← subscript (dict_get rp1 it);
                    Ok (dict_set rp1 it
                          (mk_Item (item e) (support e) (max_recurrence e)
                                   (periodic_support e) (Some t)))) = Ok rp'
                   ∧ stamped rp')
    as Hfinish.
  { intros rp1 e1 Hget1 Hl1. rewrite Hget1. simpl. eexists. split; [done|].
    intros k e' Hk. destruct (decide (it = k)) as [<-|Hne].
    - rewrite dict_get_set_eq in Hk. injection Hk as <-. by eexists.
    - rewrite dict_get_set_ne in Hk by done. by eapply Hl1. }
  assert (∀ e1, ∀ k e, k ≠ it → dict_get (dict_set rp it e1) k = Some e →
            is_Some (last_timestamp e)) as Hother.
  { intros e1 k e Hne Hk. rewrite dict_get_set_ne in Hk by done. by eapply Hlast. }
  unfold rp_scan_item.
  destruct (dict_get rp it) as [e|] eqn:Hget.
  - destruct (Hlast _ _ Hget) as [last Hl]. rewrite Hl.
    destruct (t - last <=? per).
    + left. simpl. eapply Hfinish; [apply dict_get_set_eq|apply Hother].
    + unfold floor_div. destruct (decide (min_ps = 0)) as [Hz|Hnz].
      * right. by split.
      * left. simpl. eapply Hfinish; [apply dict_get_set_eq|apply Hother].
  - left. simpl. eapply Hfinish; [apply dict_get_set_eq|apply Hother].
Qed.

Lemma rp_scan_items_outcome per min_ps t items : ∀ rp,
  stamped rp →
  (∃ rp', rp_scan_items per min_ps t rp items = Ok rp' ∧ stamped rp')
  ∨ (min_ps = 0 ∧ rp_scan_items per min_ps t rp items = Raise ZeroDivisionError).
Proof.
  induction items as [|it items IH]; intros rp Hlast; simpl.
  - left. by exists rp.
  - destruct (rp_scan_item_outcome per min_ps t rp it Hlast)
      as [(rp1 & -> & Hl1)|[Hz ->]]; [|by right].
    simpl. by apply IH.
Qed.

Lemma rp_scan_outcome per min_ps tdb : ∀ rp,
  stamped rp →
  (∃ rp', rp_scan per min_ps rp tdb = Ok rp')
  ∨ (min_ps = 0 ∧ rp_scan per min_ps rp tdb = Raise ZeroDivisionError).
Proof.
  induction tdb as [|[t items] tdb IH]; intros rp Hlast; simpl.
  - left. by exists rp.
  - destruct (rp_scan_items_outcome per min_ps t items rp Hlast)
      as [(rp1 & -> & Hl1)|[Hz ->]]; [|by right].
    simpl. by apply IH.
Qed.

Lemma rp_flush_outcome min_ps min_rec rp :
  (∃ final, rp_flush min_ps min_rec rp = Ok final)
  ∨ (min_ps = 0 ∧ rp_flush min_ps min_rec rp = Raise ZeroDivisionError).
Proof.
  induction rp as [|[it e] rp IH]; simpl; [left; by eexists|].
  assert ((∃ e', rp_flush_item min_ps e = Ok e')
          ∨ (min_ps = 0 ∧ rp_flush_item min_ps e = Raise ZeroDivisionError))
    as [[e' ->]|[Hz ->]]; [|simpl|by right].
  { unfold rp_flush_item. destruct (1 <? periodic_support e); [|left; by eexists].
    unfold floor_div. destruct (decide (min_ps = 0)); [by right|left; by eexists]. }
  destruct IH as [[final ->]|[Hz ->]]; [|by right].
  simpl. left. destruct (min_rec <=? max_recurrence e'); by eexists.
Qed.

Lemma build_rp_list_outcome per min_ps min_rec tdb :
  (∃ rp, build_rp_list per min_ps min_rec tdb = Ok rp)
  ∨ (min_ps = 0
     ∧ build_rp_list per min_ps min_rec tdb = Raise ZeroDivisionError).
Proof.
  unfold build_rp_list.
  destruct (rp_scan_outcome per min_ps tdb []) as [[rp_list ->]|[Hz ->]];
    [done| |by right].
  simpl. destruct (rp_flush_outcome min_ps min_rec rp_list) as [[final ->]|[Hz ->]];
    [|by right].
  simpl. left. by eexists.
Qed.

(** ** The arena under the operations of a node *)

Lemma deref_Ok {A : Type} (o : option A) (a : A) : deref o = Ok a → o = Some a.
Proof. destruct o; simpl; congruence. Qed.

Lemma subscript_Ok {A : Type} (o : option A) (a : A) : subscript o = Ok a → o = Some a.
Proof. destruct o; simpl; congruence. Qed.

Lemma same_shape_length h h' : same_shape h h' → length h' = length h.
Proof.
  unfold same_shape. intros Heq.
  by rewrite <- (length_fmap shape h'), <- Heq, length_fmap.
Qed.

Lemma same_shape_lookup h h' i nd' :
  same_shape h h' → h' !! i = Some nd' →
  ∃ nd, h !! i = Some nd ∧ shape nd = shape nd'.
Proof.
  unfold same_shape. intros Heq Hi.
  assert ((shape <$> h) !! i = Some (shape nd')) as Hs
    by (rewrite Heq, list_lookup_fmap, Hi; done).
  rewrite list_lookup_fmap in Hs.
  destruct (h !! i) as [nd|]; [|done]. exists nd. split; [done|].
  simpl in Hs. congruence.
Qed.

Lemma same_shape_sym h h' : same_shape h h' → same_shape h' h.
Proof. unfold same_shape. congruence. Qed.

Lemma same_shape_trans h1 h2 h3 :
  same_shape h1 h2 → same_shape h2 h3 → same_shape h1 h3.
Proof. unfold same_shape. congruence. Qed.

Lemma shape_inv nd nd' :
  shape nd = shape nd' →
  _item nd = _item nd' ∧ _parent nd = _parent nd'
  ∧ _children nd = _children nd' ∧ _neighbor nd = _neighbor nd'.
Proof. unfold shape. intros [= ? ? ? ?]. done. Qed.

Lemma same_shape_wf_arena rp h h' :
  same_shape h h' → wf_arena rp h → wf_arena rp h'.
Proof.
  intros Hs [Hroot Hlabel Hchild Hparent Hneigh].
  pose proof (same_shape_sym _ _ Hs) as Hs'.
  split.
  - destruct Hroot as (r & Hr & Hit).
    destruct (same_shape_lookup _ _ _ _ Hs' Hr) as (r' & Hr' & Hsh).
    apply shape_inv in Hsh as (? & _). exists r'. split; [done|congruence].
  - intros i nd' Hi Hne.
    destruct (same_shape_lookup _ _ _ _ Hs Hi) as (nd & Hnd & Hsh).
    apply shape_inv in Hsh as (<- & _). by eapply Hlabel.
  - intros p pn' it c Hp Hin.
    destruct (same_shape_lookup _ _ _ _ Hs Hp) as (pn & Hpn & Hsh).
    apply shape_inv in Hsh as (Hit & _ & Hch & _). rewrite <- Hch in Hin.
    destruct (Hchild _ _ _ _ Hpn Hin) as (Hlt & (cn & Hcn & Hcit) & Hrank).
    split; [done|]. split.
    + destruct (same_shape_lookup _ _ _ _ Hs' Hcn) as (cn' & Hcn' & Hsh).
      apply shape_inv in Hsh as (? & _). exists cn'. split; [done|congruence].
    + intros pi Hpi. apply Hrank. congruence.
  - intros i nd' p Hi Hpar.
    destruct (same_shape_lookup _ _ _ _ Hs Hi) as (nd & Hnd & Hsh).
    apply shape_inv in Hsh as (Hit & Hp & _). rewrite <- Hp in Hpar.
    destruct (Hparent _ _ _ Hnd Hpar) as (pn & it & Hpn & Hnit & Hget).
    destruct (same_shape_lookup _ _ _ _ Hs' Hpn) as (pn' & Hpn' & Hsh).
    apply shape_inv in Hsh as (_ & _ & Hch & _).
    exists pn', it. split; [done|]. split; congruence.
  - intros i nd' j Hi Hnb.
    destruct (same_shape_lookup _ _ _ _ Hs Hi) as (nd & Hnd & Hsh).
    apply shape_inv in Hsh as (Hit & _ & _ & Hn). rewrite <- Hn in Hnb.
    destruct (Hneigh _ _ _ Hnd Hnb) as (Hlt & jn & Hjn & Hjit).
    split; [done|].
    destruct (same_shape_lookup _ _ _ _ Hs' Hjn) as (jn' & Hjn' & Hsh).
    apply shape_inv in Hsh as (? & _). exists jn'. split; [done|congruence].
Qed.

Lemma same_shape_wf_routes h h' routes :
  same_shape h h' → wf_routes h routes → wf_routes h' routes.
Proof.
  intros Hs Hr it head tail Hget.
  pose proof (same_shape_sym _ _ Hs) as Hs'.
  destruct (Hr _ _ _ Hget) as ((hn & Hhn & Hhit) & (tn & Htn & Htit)).
  destruct (same_shape_lookup _ _ _ _ Hs' Hhn) as (hn' & Hhn' & Hsh1).
  destruct (same_shape_lookup _ _ _ _ Hs' Htn) as (tn' & Htn' & Hsh2).
  apply shape_inv in Hsh1 as (? & _). apply shape_inv in Hsh2 as (? & _).
  split; [exists hn'|exists tn']; split; congruence.
Qed.

Lemma same_shape_live h h' routes :
  same_shape h h' → live h routes → live h' routes.
Proof.
  intros Hs Hl i nd' it Hi Hit Hsome.
  destruct (same_shape_lookup _ _ _ _ Hs Hi) as (nd & Hnd & Hsh).
  apply shape_inv in Hsh as (Hitem & Hp & _). rewrite <- Hp.
  eapply Hl; [done| |done]. congruence.
Qed.

Lemma same_shape_pristine h h' :
  same_shape h h' → pristine h → pristine h'.
Proof.
  intros Hs Hp i nd' Hi Hne.
  destruct (same_shape_lookup _ _ _ _ Hs Hi) as (nd & Hnd & Hsh).
  apply shape_inv in Hsh as (_ & Hpar & _). rewrite <- Hpar. by eapply Hp.
Qed.

Lemma insert_same_shape h i nd nd' :
  h !! i = Some nd → shape nd' = shape nd → same_shape h (<[i := nd']> h).
Proof.
  intros Hi Hsh. unfold same_shape.
  rewrite list_fmap_insert, Hsh. symmetry. apply list_insert_id.
  by rewrite list_lookup_fmap, Hi.
Qed.

Lemma add_timestamps_Ok h n nd ts :
  h !! n = Some nd →
  add_timestamps h n ts = Ok (<[n := with_timestamps nd (_timestamps nd ++ ts)]> h).
Proof. intros Hn. unfold add_timestamps. by rewrite Hn. Qed.

Lemma add_timestamps_shape h n ts h' :
  add_timestamps h n ts = Ok h' → same_shape h h'.
Proof.
  unfold add_timestamps. intros Hadd.
  apply bind_Ok in Hadd as (nd & Hnd & [= <-]). apply deref_Ok in Hnd.
  by eapply insert_same_shape.
Qed.

Lemma add_timestamp_shape h n t h' :
  add_timestamp h n t = Ok h' → same_shape h h'.
Proof.
  unfold add_timestamp. intros Hadd.
  apply bind_Ok in Hadd as (nd & Hnd & [= <-]). apply deref_Ok in Hnd.
  by eapply insert_same_shape.
Qed.

Lemma insert_lookup_cases {A : Type} (h : list A) i j x y :
  <[i := x]> h !! j = Some y →
  (i = j ∧ x = y ∧ (j < length h)%nat) ∨ (i ≠ j ∧ h !! j = Some y).
Proof. intros H. by apply list_lookup_insert_Some in H. Qed.

Lemma dict_set_elem {V : Type} (d : list (string * V)) k v k' v' :
  (k', v') ∈ dict_set d k v → (k', v') = (k, v) ∨ (k', v') ∈ d.
Proof.
  induction d as [|[k0 v0] d IH]; simpl.
  - rewrite list_elem_of_singleton. by left.
  - destruct (decide (k0 = k)) as [->|Hne]; rewrite !elem_of_cons.
    + intros [->|?]; [by left|by right; right].
    + intros [->|Hin]; [by right; left|].
      destruct (IH Hin) as [?|?]; [by left|by right; right].
Qed.

Lemma dict_del_elem {V : Type} (d : list (string * V)) k k' v' :
  (k', v') ∈ dict_del d k → (k', v') ∈ d.
Proof.
  induction d as [|[k0 v0] d IH]; simpl; [done|].
  destruct (decide (k0 = k)) as [->|Hne]; rewrite !elem_of_cons.
  - intros Hin. right. by apply IH.
  - intros [->|Hin]; [by left|right; by apply IH].
Qed.

Lemma dict_values_elem {V : Type} (d : list (string * V)) v :
  v ∈ dict_values d → ∃ k, (k, v) ∈ d.
Proof.
  unfold dict_values. intros Hin.
  apply list_elem_of_fmap in Hin as ([k v'] & -> & Hin). by exists k.
Qed.

(** [self.add(child)] for a label that [self] has no child for. *)
Lemma add_link_wf rp h self child s c ci :
  wf_arena rp h →
  h !! self = Some s → h !! child = Some c → _item c = Some ci →
  dict_get (_children s) ci = None →
  (self < child)%nat →
  (∀ si, _item s = Some si → (pos rp si < pos rp ci)%nat) →
  let h' := <[child := with_parent c (Some self)]>
              (<[self := with_children s (dict_set (_children s) ci child)]> h) in
  add h self child = Ok h' ∧ wf_arena rp h' ∧ add_frame h h' self child.
Proof.
  intros Hwf Hs Hc Hci Hnone Hlt Hrank h'.
  pose proof (lookup_lt_Some _ _ _ Hs) as Hsl.
  pose proof (lookup_lt_Some _ _ _ Hc) as Hcl.
  assert (self ≠ child) as Hne by lia.
  assert (∀ i, h' !! i =
    if decide (i = child) then Some (with_parent c (Some self))
    else if decide (i = self)
         then Some (with_children s (dict_set (_children s) ci child))
         else h !! i) as Hlook.
  { intros i. unfold h'. destruct (decide (i = child)) as [->|Hic].
    - apply list_lookup_insert_eq. by rewrite length_insert.
    - rewrite list_lookup_insert_ne by done.
      destruct (decide (i = self)) as [->|His].
      + by apply list_lookup_insert_eq.
      + by rewrite list_lookup_insert_ne. }
  assert (∀ i nd', h' !! i = Some nd' →
            ∃ nd, h !! i = Some nd ∧ _item nd' = _item nd
                  ∧ _neighbor nd' = _neighbor nd) as Hback.
  { intros i nd'. rewrite Hlook.
    destruct (decide (i = child)) as [->|Hic]; [intros [= <-]; by exists c|].
    destruct (decide (i = self)) as [->|His]; [intros [= <-]; by exists s|].
    intros Hi. by exists nd'. }
  assert (∀ i nd, h !! i = Some nd →
            ∃ nd', h' !! i = Some nd' ∧ _item nd' = _item nd) as Hfwd.
  { intros i nd Hi. rewrite Hlook.
    destruct (decide (i = child)) as [->|Hic].
    { eexists. split; [done|]. simpl. congruence. }
    destruct (decide (i = self)) as [->|His].
    { eexists. split; [done|]. simpl. congruence. }
    by exists nd. }
  destruct Hwf as [Hroot Hlabel Hchild Hparent Hneigh].
  split; [|split].
  - unfold add. rewrite Hs, Hc. simpl. rewrite Hci. simpl. rewrite Hnone.
    rewrite list_lookup_insert_ne by done. rewrite Hc. done.
  - split.
    + destruct Hroot as (r & Hr & Hit).
      destruct (Hfwd _ _ Hr) as (r' & Hr' & Hit'). exists r'.
      split; [done|congruence].
    + intros i nd' Hi Hnr. destruct (Hback _ _ Hi) as (nd & Hnd & Hit & _).
      rewrite Hit. by eapply Hlabel.
    + intros p pn' it x Hp Hin. rewrite Hlook in Hp.
      assert (∀ pn, h !! p = Some pn → (it, x) ∈ _children pn →
                _item pn' = _item pn →
                (p < x)%nat ∧ (∃ cn, h' !! x = Some cn ∧ _item cn = Some it)
                ∧ (∀ pi, _item pn' = Some pi → (pos rp pi < pos rp it)%nat)) as Hold.
      { intros pn Hpn Hin' Heq.
        destruct (Hchild _ _ _ _ Hpn Hin') as (? & (cn & Hcn & Hcit) & Hrk).
        split; [done|]. split.
        - destruct (Hfwd _ _ Hcn) as (cn' & ? & ?). exists cn'.
          split; [done|congruence].
        - intros pi Hpi. apply Hrk. congruence. }
      destruct (decide (p = child)) as [->|Hpc].
      { injection Hp as <-. simpl in Hin. by eapply Hold. }
      destruct (decide (p = self)) as [->|Hps].
      { injection Hp as <-. simpl in Hin.
        apply dict_set_elem in Hin as [[= -> ->]|Hin]; [|by eapply Hold].
        split; [done|]. split.
        - destruct (Hfwd _ _ Hc) as (c' & ? & ?). exists c'.
          split; [done|congruence].
        - simpl. done. }
      by eapply Hold.
    + intros i nd' p Hi Hpar. rewrite Hlook in Hi.
      assert (∀ nd, h !! i = Some nd → _parent nd = Some p → i ≠ child →
                _item nd' = _item nd →
                ∃ pn it, h' !! p = Some pn ∧ _item nd' = Some it
                         ∧ dict_get (_children pn) it = Some i) as Hold.
      { intros nd Hnd Hp Hic Heq.
        destruct (Hparent _ _ _ Hnd Hp) as (pn & it & Hpn & Hit & Hget).
        rewrite Hlook.
        destruct (decide (p = child)) as [->|Hpc].
        { exists (with_parent c (Some self)), it.
          rewrite Hpn in Hc. injection Hc as <-. split; [done|].
          split; [congruence|done]. }
        destruct (decide (p = self)) as [->|Hps].
        { eexists _, it. split; [done|]. split; [congruence|]. simpl.
          rewrite Hpn in Hs. injection Hs as <-.
          rewrite dict_get_set_ne; [done|]. congruence. }
        exists pn, it. split; [done|]. split; [congruence|done]. }
      destruct (decide (i = child)) as [->|Hic].
      { injection Hi as <-. simpl in Hpar. injection Hpar as <-.
        rewrite Hlook. rewrite decide_False by done. rewrite decide_True by done.
        eexists _, ci. split; [done|]. split; [done|]. simpl.
        apply dict_get_set_eq. }
      destruct (decide (i = self)) as [->|His].
      { injection Hi as <-. simpl in Hpar. by eapply Hold. }
      by eapply Hold.
    + intros i nd' j Hi Hnb.
      destruct (Hback _ _ Hi) as (nd & Hnd & Hit & Hn). rewrite Hn in Hnb.
      destruct (Hneigh _ _ _ Hnd Hnb) as (? & jn & Hjn & Hjit).
      split; [done|]. destruct (Hfwd _ _ Hjn) as (jn' & ? & ?).
      exists jn'. split; [done|congruence].
  - split; [unfold h'; by rewrite !length_insert|].
    intros i nd Hi. rewrite Hlook.
    destruct (decide (i = child)) as [->|Hic].
    { rewrite Hi in Hc. injection Hc as <-. eexists. split; [done|]. simpl.
      repeat split; try done. by right. }
    destruct (decide (i = self)) as [->|His].
    { rewrite Hi in Hs. injection Hs as <-. eexists. split; [done|]. simpl.
      repeat split; try done.
      intros _ k v Hget. rewrite dict_get_set_ne; [done|]. congruence. }
    exists nd. repeat split; done.
Qed.

Lemma add_spec rp h self child s c ci :
  wf_arena rp h →
  h !! self = Some s → h !! child = Some c → _item c = Some ci →
  (self < child)%nat →
  (∀ si, _item s = Some si → (pos rp si < pos rp ci)%nat) →
  ∃ h', add h self child = Ok h' ∧ wf_arena rp h' ∧ add_frame h h' self child.
Proof.
  intros Hwf Hs Hc Hci Hlt Hrank.
  destruct (dict_get (_children s) ci) as [existing|] eqn:Hget.
  - pose proof (wf_child _ _ Hwf _ _ _ _ Hs (dict_get_Some_elem _ _ _ Hget))
      as (Hlt' & (en & Hen & _) & _).
    eexists. split; [|split].
    + unfold add. rewrite Hs, Hc. simpl. rewrite Hci. simpl. rewrite Hget.
      by apply add_timestamps_Ok.
    + eapply same_shape_wf_arena; [|done]. by eapply insert_same_shape.
    + split; [by rewrite length_insert|]. intros i nd Hi.
      destruct (decide (i = existing)) as [->|Hne].
      * rewrite Hi in Hen. injection Hen as <-.
        eexists. split; [apply list_lookup_insert_eq; by eapply lookup_lt_Some|].
        simpl. repeat split; try done; try (by left). intros ->.
        unfold root in *. lia.
      * exists nd. rewrite list_lookup_insert_ne by done.
        repeat split; try done. by left.
  - destruct (add_link_wf rp h self child s c ci) as (Hadd & Hwf' & Hfr); try done.
    by eexists.
Qed.

Lemma remove_frame_refl h P : remove_frame h h P.
Proof. split; [done|]. intros i nd Hi. exists nd. repeat split; done. Qed.

Lemma remove_frame_trans h1 h2 h3 (P : nat → Prop) :
  remove_frame h1 h2 P → remove_frame h2 h3 P → remove_frame h1 h3 P.
Proof.
  intros [Hl1 H1] [Hl2 H2]. split; [congruence|]. intros i nd Hi.
  destruct (H1 _ _ Hi) as (nd2 & Hi2 & Hit2 & Hn2 & Hp2 & Hr2).
  destruct (H2 _ _ Hi2) as (nd3 & Hi3 & Hit3 & Hn3 & Hp3 & Hr3).
  exists nd3. split; [done|]. split; [congruence|]. split; [congruence|].
  split; [by auto|]. intros Hroot. rewrite Hr3, Hr2; done.
Qed.

Lemma remove_frame_weaken h h' (P Q : nat → Prop) :
  (∀ i, P i → Q i) → remove_frame h h' P → remove_frame h h' Q.
Proof.
  intros HPQ [Hl H]. split; [done|]. intros i nd Hi.
  destruct (H _ _ Hi) as (nd' & Hi' & Hit & Hn & Hp & Hr).
  exists nd'. repeat split; try done. intros HQ. apply Hp. by auto.
Qed.

Lemma add_frame_remove_frame h h' self child (P : nat → Prop) :
  add_frame h h' self child → remove_frame h h' P.
Proof.
  intros [Hl H]. split; [done|]. intros i nd Hi.
  destruct (H _ _ Hi) as (nd' & Hi' & Hit & Hn & _ & Hp & Hpc & _ & Hr).
  exists nd'. repeat split; try done. intros _ Hsome.
  destruct (decide (i = child)) as [->|Hne].
  - destruct (Hpc eq_refl) as [->| ->]; [done|by eexists].
  - by rewrite Hp.
Qed.

Lemma same_shape_remove_frame h n nd ts (P : nat → Prop) :
  h !! n = Some nd → n ≠ root →
  remove_frame h (<[n := with_timestamps nd ts]> h) P.
Proof.
  intros Hn Hne. split; [by rewrite length_insert|]. intros i nd0 Hi.
  destruct (decide (i = n)) as [->|Hin].
  - rewrite Hi in Hn. injection Hn as <-.
    eexists. split; [apply list_lookup_insert_eq; by eapply lookup_lt_Some|].
    simpl. repeat split; done.
  - exists nd0. rewrite list_lookup_insert_ne by done. repeat split; done.
Qed.

(** [for grandchild in child.children: parent.add(grandchild)], where
    [parent] is the node the child is registered under. *)
Lemma add_all_spec rp self child ci gs : ∀ h s c,
  wf_arena rp h →
  h !! self = Some s → h !! child = Some c → _item c = Some ci →
  dict_get (_children s) ci = Some child →
  (∀ g, g ∈ gs → ∃ k, (k, g) ∈ _children c) →
  ∃ h' s' c',
    add_all h (Some self) gs = Ok h' ∧ wf_arena rp h'
    ∧ remove_frame h h' (fun _ => False)
    ∧ h' !! self = Some s' ∧ h' !! child = Some c'
    ∧ _item c' = Some ci ∧ dict_get (_children s') ci = Some child.
Proof.
  induction gs as [|g gs IH]; intros h s c Hwf Hs Hc Hci Hreg Hgs.
  - exists h, s, c. simpl. split_and!; try done. apply remove_frame_refl.
  - destruct (Hgs g) as (k & Hk); [apply list_elem_of_here|].
    destruct (wf_child _ _ Hwf _ _ _ _ Hc Hk) as (Hcg & (gn & Hgn & Hgit) & Hrk).
    destruct (wf_child _ _ Hwf _ _ _ _ Hs (dict_get_Some_elem _ _ _ Hreg))
      as (Hsc & _ & Hrs).
    destruct (add_spec rp h self g s gn k) as (h1 & Hadd & Hwf1 & Hfr);
      [done|done|done|done|lia| |].
    { intros si Hsi. specialize (Hrs _ Hsi). specialize (Hrk _ Hci). lia. }
    pose proof Hfr as [Hlen Hnodes].
    destruct (Hnodes _ _ Hs) as (s1 & Hs1 & _ & _ & _ & _ & _ & Hkeep & _).
    destruct (Hnodes _ _ Hc) as (c1 & Hc1 & Hit1 & _ & Hch1 & _).
    destruct (IH h1 s1 c1) as (h' & s' & c' & Hall & Hwf' & Hfr' & Hs' & Hc' & Hci' & Hreg');
      [done|done|done|congruence|by apply Hkeep| |].
    { intros g' Hg'. rewrite Hch1 by lia. apply Hgs. by apply list_elem_of_further. }
    exists h', s', c'. simpl. rewrite Hadd. simpl. split_and!; try done.
    eapply remove_frame_trans; [|done]. by eapply add_frame_remove_frame.
Qed.

(** The last two statements of [RPNode.remove]: the child loses its parent
    and the parent its entry. *)
Lemma unlink_wf rp h self child s c ci :
  wf_arena rp h →
  h !! self = Some s → h !! child = Some c → _item c = Some ci →
  dict_get (_children s) ci = Some child →
  let h' := <[self := with_children s (dict_del (_children s) ci)]>
              (<[child := with_parent c None]> h) in
  wf_arena rp h' ∧ remove_frame h h' (fun i => i = child).
Proof.
  intros Hwf Hs Hc Hci Hreg h'.
  pose proof (lookup_lt_Some _ _ _ Hs) as Hsl.
  pose proof (lookup_lt_Some _ _ _ Hc) as Hcl.
  destruct (wf_child _ _ Hwf _ _ _ _ Hs (dict_get_Some_elem _ _ _ Hreg))
    as (Hsc & _ & _).
  assert (self ≠ child) as Hne by lia.
  assert (∀ i, h' !! i =
    if decide (i = self) then Some (with_children s (dict_del (_children s) ci))
    else if decide (i = child) then Some (with_parent c None)
         else h !! i) as Hlook.
  { intros i. unfold h'. destruct (decide (i = self)) as [->|His].
    - apply list_lookup_insert_eq. by rewrite length_insert.
    - rewrite list_lookup_insert_ne by done.
      destruct (decide (i = child)) as [->|Hic].
      + by apply list_lookup_insert_eq.
      + by rewrite list_lookup_insert_ne. }
  assert (∀ i nd', h' !! i = Some nd' →
            ∃ nd, h !! i = Some nd ∧ _item nd' = _item nd
                  ∧ _neighbor nd' = _neighbor nd) as Hback.
  { intros i nd'. rewrite Hlook.
    destruct (decide (i = self)) as [->|His]; [intros [= <-]; by exists s|].
    destruct (decide (i = child)) as [->|Hic]; [intros [= <-]; by exists c|].
    intros Hi. by exists nd'. }
  assert (∀ i nd, h !! i = Some nd →
            ∃ nd', h' !! i = Some nd' ∧ _item nd' = _item nd) as Hfwd.
  { intros i nd Hi. rewrite Hlook.
    destruct (decide (i = self)) as [->|His].
    { eexists. split; [done|]. simpl. congruence. }
    destruct (decide (i = child)) as [->|Hic].
    { eexists. split; [done|]. simpl. congruence. }
    by exists nd. }
  destruct Hwf as [Hroot Hlabel Hchild Hparent Hneigh].
  split.
  - split.
    + destruct Hroot as (r & Hr & Hit).
      destruct (Hfwd _ _ Hr) as (r' & Hr' & Hit'). exists r'.
      split; [done|congruence].
    + intros i nd' Hi Hnr. destruct (Hback _ _ Hi) as (nd & Hnd & Hit & _).
      rewrite Hit. by eapply Hlabel.
    + intros p pn' it x Hp Hin. rewrite Hlook in Hp.
      assert (∀ pn, h !! p = Some pn → (it, x) ∈ _children pn →
                _item pn' = _item pn →
                (p < x)%nat ∧ (∃ cn, h' !! x = Some cn ∧ _item cn = Some it)
                ∧ (∀ pi, _item pn' = Some pi → (pos rp pi < pos rp it)%nat)) as Hold.
      { intros pn Hpn Hin' Heq.
        destruct (Hchild _ _ _ _ Hpn Hin') as (? & (cn & Hcn & Hcit) & Hrk).
        split; [done|]. split.
        - destruct (Hfwd _ _ Hcn) as (cn' & ? & ?). exists cn'.
          split; [done|congruence].
        - intros pi Hpi. apply Hrk. congruence. }
      destruct (decide (p = self)) as [->|Hps].
      { injection Hp as <-. simpl in Hin. apply dict_del_elem in Hin.
        by eapply Hold. }
      destruct (decide (p = child)) as [->|Hpc].
      { injection Hp as <-. simpl in Hin. by eapply Hold. }
      by eapply Hold.
    + intros i nd' p Hi Hpar. rewrite Hlook in Hi.
      assert (∀ nd, h !! i = Some nd → _parent nd = Some p → i ≠ child →
                _item nd' = _item nd →
                ∃ pn it, h' !! p = Some pn ∧ _item nd' = Some it
                         ∧ dict_get (_children pn) it = Some i) as Hold.
      { intros nd Hnd Hp Hic Heq.
        destruct (Hparent _ _ _ Hnd Hp) as (pn & it & Hpn & Hit & Hget).
        rewrite Hlook.
        destruct (decide (p = self)) as [->|Hps].
        { eexists _, it. split; [done|]. split; [congruence|]. simpl.
          rewrite Hpn in Hs. injection Hs as <-.
          rewrite dict_get_del_ne; [done|]. intros <-. congruence. }
        destruct (decide (p = child)) as [->|Hpc].
        { exists (with_parent c None), it.
          rewrite Hpn in Hc. injection Hc as <-. split; [done|].
          split; [congruence|done]. }
        exists pn, it. split; [done|]. split; [congruence|done]. }
      destruct (decide (i = self)) as [->|His].
      { injection Hi as <-. simpl in Hpar. by eapply Hold. }
      destruct (decide (i = child)) as [->|Hic].
      { injection Hi as <-. simpl in Hpar. done. }
      by eapply Hold.
    + intros i nd' j Hi Hnb.
      destruct (Hback _ _ Hi) as (nd & Hnd & Hit & Hn). rewrite Hn in Hnb.
      destruct (Hneigh _ _ _ Hnd Hnb) as (? & jn & Hjn & Hjit).
      split; [done|]. destruct (Hfwd _ _ Hjn) as (jn' & ? & ?).
      exists jn'. split; [done|congruence].
  - split; [unfold h'; by rewrite !length_insert|].
    intros i nd Hi. rewrite Hlook.
    destruct (decide (i = self)) as [->|His].
    { rewrite Hi in Hs. injection Hs as <-. eexists. split; [done|]. simpl.
      repeat split; done. }
    destruct (decide (i = child)) as [->|Hic].
    { rewrite Hi in Hc. injection Hc as <-. eexists. split; [done|]. simpl.
      repeat split; try done. }
    exists nd. repeat split; done.
Qed.

(** [parent.remove(node)] for a node that has [parent] as its parent. *)
Lemma remove_spec rp h self child c :
  wf_arena rp h → h !! child = Some c → _parent c = Some self →
  ∃ h', remove h self child = Ok h' ∧ wf_arena rp h'
        ∧ remove_frame h h' (fun i => i = child).
Proof.
  intros Hwf Hc Hpar.
  destruct (wf_parent _ _ Hwf _ _ _ Hc Hpar) as (s & ci & Hs & Hci & Hreg).
  destruct (wf_child _ _ Hwf _ _ _ _ Hs (dict_get_Some_elem _ _ _ Hreg))
    as (Hsc & _ & _).
  assert (self ≠ child) as Hne by lia.
  assert (∃ h2 s2 c2,
    (is_leaf c = true ∧ h2 = h
     ∨ is_leaf c = false
       ∧ add_all h (Some self) (dict_values (_children c)) = Ok h2)
    ∧ wf_arena rp h2 ∧ remove_frame h h2 (fun _ => False)
    ∧ h2 !! self = Some s2 ∧ h2 !! child = Some c2
    ∧ _item c2 = Some ci ∧ dict_get (_children s2) ci = Some child)
    as (h2 & s2 & c2 & Hstep & Hwf2 & Hfr2 & Hs2 & Hc2 & Hci2 & Hreg2).
  { destruct (is_leaf c) eqn:Hleaf.
    - exists h, s, c. split_and!; try done; [by left|apply remove_frame_refl].
    - destruct (add_all_spec rp self child ci (dict_values (_children c)) h s c)
        as (h2 & s2 & c2 & Hall & ?); try done.
      { intros g Hg. by apply dict_values_elem. }
      exists h2, s2, c2. split; [by right|done]. }
  destruct (unlink_wf rp h2 self child s2 c2 ci) as (Hwf' & Hfr'); try done.
  eexists. split; [|split; [exact Hwf'|]].
  - unfold remove. rewrite Hs, Hc. simpl. rewrite Hci. simpl.
    unfold dict_mem. rewrite Hreg. simpl.
    destruct Hstep as [[Hleaf ->]|[Hleaf Hall]]; rewrite Hleaf.
    + simpl. rewrite Hs2. simpl. rewrite Hreg2. simpl. rewrite Hc2. simpl.
      rewrite list_lookup_insert_ne by done. rewrite Hs2. done.
    + rewrite Hc. simpl. rewrite Hpar. rewrite Hall. simpl.
      rewrite Hs2. simpl. rewrite Hreg2. simpl. rewrite Hc2. simpl.
      rewrite list_lookup_insert_ne by done. rewrite Hs2. done.
  - eapply remove_frame_trans; [|done].
    eapply remove_frame_weaken; [|done]. done.
Qed.

Lemma remove_frame_back h h' (P : nat → Prop) i nd' :
  remove_frame h h' P → h' !! i = Some nd' →
  ∃ nd, h !! i = Some nd ∧ _item nd' = _item nd ∧ _neighbor nd' = _neighbor nd
        ∧ (¬ P i → is_Some (_parent nd) → is_Some (_parent nd'))
        ∧ (i = root → _timestamps nd' = _timestamps nd).
Proof.
  intros [Hl Hnodes] Hi.
  assert (is_Some (h !! i)) as [nd Hnd].
  { apply lookup_lt_is_Some. rewrite <- Hl. by eapply lookup_lt_Some. }
  destruct (Hnodes _ _ Hnd) as (nd2 & Hi2 & ?).
  rewrite Hi in Hi2. injection Hi2 as <-. by exists nd.
Qed.

(** The loop of [remove_nodes] from a node of the route on. *)
Lemma remove_nodes_loop_spec rp it : ∀ fuel h n nd,
  wf_arena rp h →
  (length h - n ≤ fuel)%nat →
  h !! n = Some nd → _item nd = Some it →
  (∀ i ndi, h !! i = Some ndi → _item ndi = Some it → (n ≤ i)%nat →
            is_Some (_parent ndi)) →
  ∃ h', remove_nodes_loop fuel h (Some n) = Ok h' ∧ wf_arena rp h'
        ∧ remove_frame h h'
            (fun i => ∃ ndi, h !! i = Some ndi ∧ _item ndi = Some it).
Proof.
  induction fuel as [|fuel IH]; intros h n nd Hwf Hfuel Hn Hit Hlive.
  { apply lookup_lt_Some in Hn. lia. }
  destruct (Hlive _ _ Hn Hit ltac:(lia)) as [parent Hpar].
  destruct (wf_parent _ _ Hwf _ _ _ Hn Hpar) as (p & ci & Hp & Hci & Hreg).
  assert (∃ h1,
    (if is_root p then Ok h else add_timestamps h parent (_timestamps nd)) = Ok h1
    ∧ same_shape h h1 ∧ remove_frame h h1 (fun i => i = n))
    as (h1 & Hstep & Hsh & Hfr1).
  { destruct (is_root p) eqn:Hroot.
    - exists h. split_and!; try done. apply remove_frame_refl.
    - eexists. split; [by apply add_timestamps_Ok|].
      split; [by eapply insert_same_shape|].
      apply same_shape_remove_frame; [done|].
      intros ->. destruct (wf_root _ _ Hwf) as (r & Hr & Hrit).
      unfold is_root in Hroot. rewrite Hp in Hr. injection Hr as <-.
      by rewrite Hrit in Hroot. }
  pose proof (same_shape_wf_arena _ _ _ Hsh Hwf) as Hwf1.
  destruct (proj2 Hfr1 _ _ Hn) as (nd1 & Hn1 & Hit1 & Hnb1 & _).
  assert (_parent nd1 = Some parent) as Hpar1.
  { destruct (same_shape_lookup _ _ _ _ Hsh Hn1) as (nd0 & Hnd0 & Heq).
    rewrite Hn in Hnd0. injection Hnd0 as <-.
    apply shape_inv in Heq as (_ & Heq & _). congruence. }
  destruct (remove_spec rp h1 parent n nd1 Hwf1 Hn1 Hpar1) as (h2 & Hrem & Hwf2 & Hfr2).
  pose proof (remove_frame_trans _ _ _ _ Hfr1 Hfr2) as Hfr.
  destruct (proj2 Hfr2 _ _ Hn1) as (nd2 & Hn2 & Hit2 & Hnb2 & _).
  assert (remove_frame h h2
            (fun i => ∃ ndi, h !! i = Some ndi ∧ _item ndi = Some it)) as Hfrit.
  { eapply remove_frame_weaken; [|exact Hfr]. intros i ->. by exists nd. }
  simpl. rewrite Hn. simpl. rewrite Hpar. rewrite Hp. simpl.
  rewrite Hstep. simpl. rewrite Hrem. simpl. rewrite Hn2. simpl.
  destruct (_neighbor nd2) as [j|] eqn:Hj;
    [|exists h2; split_and!; try done; by destruct fuel].
  destruct (wf_neighbor _ _ Hwf2 _ _ _ Hn2 Hj) as (Hlt & jn & Hjn & Hjit).
  assert (length h2 = length h) as Hlen by apply Hfr.
  assert (∀ i ndi, h2 !! i = Some ndi → _item ndi = Some it → (j ≤ i)%nat →
            is_Some (_parent ndi)) as Hlive2.
  { intros i ndi Hi Hiit Hle.
    destruct (remove_frame_back _ _ _ _ _ Hfr Hi) as (nd0 & Hnd0 & Hit0 & _ & Hp0 & _).
    apply Hp0; [lia|]. eapply Hlive; [done|congruence|lia]. }
  destruct (IH h2 j jn Hwf2 ltac:(lia) Hjn ltac:(congruence) Hlive2)
    as (h' & Hloop & Hwf' & Hfr').
  exists h'. split; [done|]. split; [done|].
  eapply remove_frame_trans; [exact Hfrit|].
  eapply remove_frame_weaken; [|exact Hfr'].
  intros i (ndi & Hi & Hiit).
  destruct (remove_frame_back _ _ _ _ _ Hfr Hi) as (nd0 & Hnd0 & Hit0 & _).
  exists nd0. split; [done|congruence].
Qed.

(** ** Removing an item from a well-formed tree *)

Lemma remove_nodes_spec t it :
  wf t → is_Some (dict_get (_routes t) it) →
  ∃ t', remove_nodes t it = Ok t' ∧ wf t'
        ∧ _rp_list t' = _rp_list t
        ∧ _routes t' = dict_del (_routes t) it
        ∧ remove_frame (arena t) (arena t')
            (fun i => ∃ ndi, arena t !! i = Some ndi ∧ _item ndi = Some it).
Proof.
  intros (Hwf & Hroutes & Hlive) [[head tail] Hget].
  destruct (Hroutes _ _ _ Hget) as ((hn & Hhn & Hhit) & _).
  destruct (remove_nodes_loop_spec (_rp_list t) it (length (arena t)) (arena t)
              head hn Hwf ltac:(lia) Hhn Hhit) as (h' & Hloop & Hwf' & Hfr).
  { intros i ndi Hi Hiit _. eapply Hlive; [done..|]. by rewrite Hget. }
  exists (mk_RPTree h' (_rp_list t) (dict_del (_routes t) it)).
  split; [|split; [|done]].
  - unfold remove_nodes. rewrite Hget, Hloop. simpl.
    unfold dict_mem. by rewrite Hget.
  - split; [done|]. split; simpl.
    + intros it' head' tail' Hget'.
      destruct (decide (it = it')) as [->|Hne];
        [by rewrite dict_get_del_eq in Hget'|].
      rewrite dict_get_del_ne in Hget' by done.
      destruct (Hroutes _ _ _ Hget') as ((hn' & Hhn' & Hhit') & (tn' & Htn' & Htit')).
      destruct (proj2 Hfr _ _ Hhn') as (x & Hx & Hxit & _).
      destruct (proj2 Hfr _ _ Htn') as (y & Hy & Hyit & _).
      split; [exists x|exists y]; split; congruence.
    + intros i nd' it' Hi Hiit Hsome.
      destruct (decide (it = it')) as [->|Hne].
      { rewrite dict_get_del_eq in Hsome. by destruct Hsome. }
      rewrite dict_get_del_ne in Hsome by done.
      destruct (remove_frame_back _ _ _ _ _ Hfr Hi) as (nd & Hnd & Hit & _ & Hp & _).
      apply Hp.
      * intros (ndi & Hndi & Hndit). congruence.
      * eapply Hlive; [done| |done]. congruence.
Qed.

Lemma remove_nodes_bound t t' it m :
  _rp_list t' = _rp_list t → _routes t' = dict_del (_routes t) it →
  bound t m → bound t' m.
Proof.
  intros Hrp Hr Hb it' Hsome. rewrite Hrp. apply Hb. rewrite Hr in Hsome.
  destruct (decide (it = it')) as [->|Hne].
  - rewrite dict_get_del_eq in Hsome. by destruct Hsome.
  - by rewrite dict_get_del_ne in Hsome.
Qed.

(** ** Growing a tree

    A node whose neighbor, parent or children are set keeps the arena
    well formed when the new references are. *)
Lemma wf_arena_alloc rp h it :
  wf_arena rp h → wf_arena rp (h ++ [new_node (Some it)]).
Proof.
  intros [Hroot Hlabel Hchild Hparent Hneigh].
  assert (∀ i nd, (h ++ [new_node (Some it)]) !! i = Some nd →
            h !! i = Some nd ∨ (i = length h ∧ nd = new_node (Some it))) as Hcases.
  { intros i nd Hi. apply lookup_app_Some in Hi as [?|[Hge Hi]]; [by left|].
    right. apply list_lookup_singleton_Some in Hi as [? <-]. split; [lia|done]. }
  assert (∀ i nd, h !! i = Some nd → (h ++ [new_node (Some it)]) !! i = Some nd)
    as Hkeep.
  { intros i nd Hi. by apply lookup_app_l_Some. }
  split.
  - destruct Hroot as (r & Hr & Hit). exists r. split; [by apply Hkeep|done].
  - intros i nd Hi Hne. destruct (Hcases _ _ Hi) as [Hold|[_ ->]].
    + by eapply Hlabel.
    + by eexists.
  - intros p pn k c Hp Hin. destruct (Hcases _ _ Hp) as [Hold|[_ ->]].
    + destruct (Hchild _ _ _ _ Hold Hin) as (? & (cn & Hcn & ?) & ?).
      split; [done|]. split; [|done]. exists cn. split; [by apply Hkeep|done].
    + simpl in Hin. by apply not_elem_of_nil in Hin.
  - intros i nd p Hi Hpar. destruct (Hcases _ _ Hi) as [Hold|[_ ->]].
    + destruct (Hparent _ _ _ Hold Hpar) as (pn & k & Hpn & ? & ?).
      exists pn, k. split; [by apply Hkeep|done].
    + done.
  - intros i nd j Hi Hnb. destruct (Hcases _ _ Hi) as [Hold|[_ ->]].
    + destruct (Hneigh _ _ _ Hold Hnb) as (? & jn & Hjn & ?).
      split; [done|]. exists jn. split; [by apply Hkeep|done].
    + done.
Qed.

Lemma wf_arena_set_neighbor rp h tail tl point pn :
  wf_arena rp h →
  h !! tail = Some tl → h !! point = Some pn →
  (tail < point)%nat → _item pn = _item tl →
  wf_arena rp (<[tail := with_neighbor tl (Some point)]> h).
Proof.
  intros [Hroot Hlabel Hchild Hparent Hneigh] Htl Hpn Hlt Hit.
  pose proof (lookup_lt_Some _ _ _ Htl) as Hlen.
  set (h' := <[tail := with_neighbor tl (Some point)]> h).
  assert (∀ i nd', h' !! i = Some nd' →
            ∃ nd, h !! i = Some nd ∧ _item nd' = _item nd
                  ∧ _parent nd' = _parent nd ∧ _children nd' = _children nd
                  ∧ (_neighbor nd' = _neighbor nd
                     ∨ (i = tail ∧ _neighbor nd' = Some point))) as Hback.
  { intros i nd' Hi. apply insert_lookup_cases in Hi as [(<- & <- & _)|[Hne Hi]].
    - exists tl. simpl. split_and!; try done. by right.
    - exists nd'. split_and!; try done. by left. }
  assert (∀ i nd, h !! i = Some nd →
            ∃ nd', h' !! i = Some nd' ∧ _item nd' = _item nd
                   ∧ _children nd' = _children nd) as Hfwd.
  { intros i nd Hi. unfold h'. destruct (decide (i = tail)) as [->|Hne].
    - rewrite list_lookup_insert_eq by done. eexists. split; [done|].
      simpl. rewrite Htl in Hi. by injection Hi as <-.
    - rewrite list_lookup_insert_ne by done. by exists nd. }
  split.
  - destruct Hroot as (r & Hr & Hrit). destruct (Hfwd _ _ Hr) as (r' & ? & ? & _).
    exists r'. split; [done|congruence].
  - intros i nd' Hi Hne. destruct (Hback _ _ Hi) as (nd & Hnd & -> & _).
    by eapply Hlabel.
  - intros p pn' k c Hp Hin.
    destruct (Hback _ _ Hp) as (pn0 & Hpn0 & Hpit & _ & Hch & _).
    rewrite Hch in Hin.
    destruct (Hchild _ _ _ _ Hpn0 Hin) as (? & (cn & Hcn & ?) & Hrk).
    split; [done|]. split.
    + destruct (Hfwd _ _ Hcn) as (cn' & ? & ? & _). exists cn'.
      split; [done|congruence].
    + intros pi Hpi. apply Hrk. congruence.
  - intros i nd' p Hi Hpar.
    destruct (Hback _ _ Hi) as (nd & Hnd & Hndit & Hndp & _).
    rewrite Hndp in Hpar.
    destruct (Hparent _ _ _ Hnd Hpar) as (pn0 & k & Hpn0 & ? & ?).
    destruct (Hfwd _ _ Hpn0) as (pn' & ? & ? & Hch').
    exists pn', k. split; [done|]. split; [congruence|]. by rewrite Hch'.
  - intros i nd' j Hi Hnb.
    destruct (Hback _ _ Hi) as (nd & Hnd & Hndit & _ & _ & [Hsame|[-> Hnew]]).
    + rewrite Hsame in Hnb.
      destruct (Hneigh _ _ _ Hnd Hnb) as (? & jn & Hjn & ?).
      split; [done|]. destruct (Hfwd _ _ Hjn) as (jn' & ? & ? & _).
      exists jn'. split; [done|congruence].
    + rewrite Hnew in Hnb. injection Hnb as <-. split; [done|].
      destruct (Hfwd _ _ Hpn) as (pn' & ? & ? & _).
      exists pn'. split; [done|]. rewrite Htl in Hnd. injection Hnd as <-.
      congruence.
Qed.

Lemma growing_wf t : growing t → wf t.
Proof.
  intros (Hwf & Hroutes & Hpr). split; [done|]. split; [done|].
  intros i nd it Hi Hit _. eapply Hpr; [done|].
  intros ->. destruct (wf_root _ _ Hwf) as (r & Hr & Hrit). congruence.
Qed.

Lemma grows_refl h : grows h h.
Proof. split; [done|]. intros i nd Hi. by exists nd. Qed.

Lemma grows_trans h1 h2 h3 : grows h1 h2 → grows h2 h3 → grows h1 h3.
Proof.
  intros [Hl1 H1] [Hl2 H2]. split; [lia|]. intros i nd Hi.
  destruct (H1 _ _ Hi) as (nd2 & Hi2 & ? & ?).
  destruct (H2 _ _ Hi2) as (nd3 & Hi3 & ? & ?).
  exists nd3. split; [done|]. split; congruence.
Qed.

Lemma new_tree_growing rp : growing (new_tree rp).
Proof.
  split; [|split].
  - split; simpl.
    + eexists. split; [done|done].
    + intros [|i] nd Hi Hne; [done|]. done.
    + intros [|p] pn it c Hp Hin; [|done]. injection Hp as <-.
      by apply not_elem_of_nil in Hin.
    + intros [|i] nd p Hi Hpar; [|done]. by injection Hi as <-.
    + intros [|i] nd j Hi Hnb; [|done]. by injection Hi as <-.
  - intros it head tail Hget. done.
  - intros [|i] nd Hi Hne; [done|]. done.
Qed.

(** One step down the tree. *)
Lemma descend_spec t current cur it :
  growing t →
  arena t !! current = Some cur →
  (∀ ci, _item cur = Some ci → (pos (_rp_list t) ci < pos (_rp_list t) it)%nat) →
  ∃ t' next nn,
    descend t current it = Ok (t', next)
    ∧ growing t' ∧ _rp_list t' = _rp_list t
    ∧ arena t' !! next = Some nn ∧ _item nn = Some it ∧ next ≠ root
    ∧ grows (arena t) (arena t')
    ∧ (∀ k, is_Some (dict_get (_routes t') k) →
            k = it ∨ is_Some (dict_get (_routes t) k)).
Proof.
  intros (Hwf & Hroutes & Hpr) Hcur Hrank.
  unfold descend. rewrite Hcur. simpl. unfold get_child.
  destruct (dict_get (_children cur) it) as [next|] eqn:Hget.
  { destruct (wf_child _ _ Hwf _ _ _ _ Hcur (dict_get_Some_elem _ _ _ Hget))
      as (Hlt & (nn & Hnn & Hnit) & _).
    exists t, next, nn. split_and!; try done.
    - unfold root. lia.
    - apply grows_refl.
    - intros k ?. by right. }
  set (rp := _rp_list t) in *.
  set (next := length (arena t)).
  set (h0 := arena t ++ [new_node (Some it)]).
  pose proof (lookup_lt_Some _ _ _ Hcur) as Hcl.
  assert (h0 !! current = Some cur) as Hcur0 by by apply lookup_app_l_Some.
  assert (h0 !! next = Some (new_node (Some it))) as Hnext0
    by (by apply list_lookup_middle).
  destruct (add_link_wf rp h0 current next cur (new_node (Some it)) it
              (wf_arena_alloc _ _ _ Hwf) Hcur0 Hnext0 eq_refl Hget Hcl Hrank)
    as (Hadd & Hwf1 & _).
  set (h1 := <[next := with_parent (new_node (Some it)) (Some current)]>
               (<[current := with_children cur
                               (dict_set (_children cur) it next)]> h0)) in *.
  rewrite Hadd. simpl.
  assert (length h0 = S next) as Hlen0
    by (unfold h0; rewrite length_app; simpl; lia).
  assert (length h1 = S next) as Hlen1
    by (unfold h1; rewrite !length_insert; done).
  assert (h1 !! next = Some (with_parent (new_node (Some it)) (Some current)))
    as Hnext1.
  { unfold h1. apply list_lookup_insert_eq. rewrite length_insert. lia. }
  assert (∀ i nd, arena t !! i = Some nd →
            ∃ nd', h1 !! i = Some nd' ∧ _item nd' = _item nd
                   ∧ _timestamps nd' = _timestamps nd
                   ∧ _parent nd' = _parent nd) as Hold1.
  { intros i nd Hi. pose proof (lookup_lt_Some _ _ _ Hi) as Hil.
    unfold h1. rewrite list_lookup_insert_ne by (unfold next; lia).
    destruct (decide (i = current)) as [->|Hne].
    - rewrite list_lookup_insert_eq by lia. eexists. split; [done|]. simpl.
      rewrite Hcur in Hi. by injection Hi as <-.
    - rewrite list_lookup_insert_ne by done. exists nd.
      split; [by apply lookup_app_l_Some|done]. }
  assert (∀ i nd', h1 !! i = Some nd' → i ≠ root → is_Some (_parent nd')) as Hpr1.
  { intros i nd' Hi Hne. destruct (decide (i = next)) as [->|Hin].
    - rewrite Hnext1 in Hi. injection Hi as <-. by eexists.
    - assert (is_Some (arena t !! i)) as [nd Hnd].
      { apply lookup_lt_is_Some. apply lookup_lt_Some in Hi. unfold next in *. lia. }
      destruct (Hold1 _ _ Hnd) as (nd2 & Hnd2 & _ & _ & Hp).
      rewrite Hi in Hnd2. injection Hnd2 as <-. rewrite Hp. by eapply Hpr. }
  unfold _update_route. simpl. rewrite Hnext1. simpl.
  destruct (dict_get (_routes t) it) as [[head tail]|] eqn:Hroute.
  - destruct (Hroutes _ _ _ Hroute) as ((hn & Hhn & Hhit) & (tn & Htn & Htit)).
    destruct (Hold1 _ _ Htn) as (tl & Htl & Htlit & Htlts & _).
    rewrite Htl. simpl.
    pose proof (lookup_lt_Some _ _ _ Htn) as Htlen.
    assert (tail ≠ next) as Htne by (unfold next; lia).
    set (h2 := <[tail := with_neighbor tl (Some next)]> h1).
    assert (wf_arena rp h2) as Hwf2.
    { eapply wf_arena_set_neighbor; [done..|unfold next; lia|].
      simpl. congruence. }
    assert (∀ i nd, h1 !! i = Some nd →
              ∃ nd', h2 !! i = Some nd' ∧ _item nd' = _item nd
                     ∧ _timestamps nd' = _timestamps nd
                     ∧ _parent nd' = _parent nd) as Hold2.
    { intros i nd Hi. unfold h2. destruct (decide (i = tail)) as [->|Hne].
      - rewrite list_lookup_insert_eq by (by eapply lookup_lt_Some).
        eexists. split; [done|]. simpl. rewrite Htl in Hi. by injection Hi as <-.
      - rewrite list_lookup_insert_ne by done. by exists nd. }
    destruct (Hold2 _ _ Hnext1) as (nn & Hnn & Hnit & _).
    eexists _, next, nn. split; [done|]. simpl. split_and!.
    + split; [done|]. split; simpl.
      * intros k head' tail' Hk. destruct (decide (it = k)) as [<-|Hne].
        { rewrite dict_get_set_eq in Hk. injection Hk as <- <-.
          split.
          - destruct (Hold1 _ _ Hhn) as (x & Hx & ? & _).
            destruct (Hold2 _ _ Hx) as (y & Hy & ? & _).
            exists y. split; [done|congruence].
          - exists nn. split; [done|]. by rewrite Hnit. }
        rewrite dict_get_set_ne in Hk by done.
        destruct (Hroutes _ _ _ Hk) as ((hn' & Hhn' & ?) & (tn' & Htn' & ?)).
        destruct (Hold1 _ _ Hhn') as (x & Hx & ? & _).
        destruct (Hold2 _ _ Hx) as (y & Hy & ? & _).
        destruct (Hold1 _ _ Htn') as (x' & Hx' & ? & _).
        destruct (Hold2 _ _ Hx') as (y' & Hy' & ? & _).
        split; [exists y|exists y']; split; congruence.
      * intros i nd' Hi Hne.
        assert (is_Some (h1 !! i)) as [nd Hnd].
        { apply lookup_lt_is_Some. apply lookup_lt_Some in Hi.
          unfold h2 in Hi. by rewrite length_insert in Hi. }
        destruct (Hold2 _ _ Hnd) as (nd2 & Hnd2 & _ & _ & Hp).
        rewrite Hi in Hnd2. injection Hnd2 as <-. rewrite Hp. by eapply Hpr1.
    + done.
    + done.
    + by rewrite Hnit.
    + unfold root, next. lia.
    + split; [unfold h2; rewrite length_insert; unfold next in *; lia|].
      intros i nd Hi. destruct (Hold1 _ _ Hi) as (x & Hx & ? & ? & _).
      destruct (Hold2 _ _ Hx) as (y & Hy & ? & ? & _).
      exists y. split; [done|]. split; congruence.
    + intros k Hk. destruct (decide (it = k)) as [<-|Hne]; [by left|].
      rewrite dict_get_set_ne in Hk by done. by right.
  - eexists _, next, _. split; [done|]. simpl. split_and!.
    + split; [done|]. split; simpl; [|done].
      intros k head' tail' Hk. destruct (decide (it = k)) as [<-|Hne].
      { rewrite dict_get_set_eq in Hk. injection Hk as <- <-.
        split; eexists; split; done. }
      rewrite dict_get_set_ne in Hk by done.
      destruct (Hroutes _ _ _ Hk) as ((hn' & Hhn' & ?) & (tn' & Htn' & ?)).
      destruct (Hold1 _ _ Hhn') as (x & Hx & ? & _).
      destruct (Hold1 _ _ Htn') as (x' & Hx' & ? & _).
      split; [exists x|exists x']; split; congruence.
    + done.
    + done.
    + done.
    + unfold root, next. lia.
    + split; [unfold next in *; lia|].
      intros i nd Hi. destruct (Hold1 _ _ Hi) as (x & Hx & ? & ? & _).
      by exists x.
    + intros k Hk. destruct (decide (it = k)) as [<-|Hne]; [by left|].
      rewrite dict_get_set_ne in Hk by done. by right.
Qed.

Lemma descend_all_spec items : ∀ t current cur,
  growing t →
  arena t !! current = Some cur →
  chain (_rp_list t) (_item cur) items →
  ∃ t' last ln,
    descend_all t current items = Ok (t', last)
    ∧ growing t' ∧ _rp_list t' = _rp_list t
    ∧ arena t' !! last = Some ln
    ∧ (items = [] → last = current)
    ∧ (items ≠ [] → last ≠ root)
    ∧ grows (arena t) (arena t')
    ∧ (∀ k, is_Some (dict_get (_routes t') k) →
            k ∈ items ∨ is_Some (dict_get (_routes t) k)).
Proof.
  induction items as [|it items IH]; intros t current cur Hg Hcur Hchain.
  - exists t, current, cur. simpl. split_and!; try done.
    + apply grows_refl.
    + intros k ?. by right.
  - destruct Hchain as [Hrank Hchain].
    destruct (descend_spec t current cur it Hg Hcur)
      as (t1 & next & nn & Hd & Hg1 & Hrp1 & Hnn & Hnit & Hnr & Hgr1 & Hk1).
    { intros ci Hci. by rewrite Hci in Hrank. }
    destruct (IH t1 next nn Hg1 Hnn)
      as (t' & last & ln & Hall & Hg' & Hrp' & Hln & Hnil & Hcons & Hgr' & Hk').
    { by rewrite Hrp1, Hnit. }
    exists t', last, ln. simpl. rewrite Hd. simpl. split_and!; try done.
    + congruence.
    + intros _. destruct items as [|it2 items]; [by rewrite Hnil|].
      by apply Hcons.
    + by eapply grows_trans.
    + intros k Hk. destruct (Hk' _ Hk) as [Hin|Hold].
      * left. by apply list_elem_of_further.
      * destruct (Hk1 _ Hold) as [->|?]; [left; apply list_elem_of_here|by right].
Qed.

Lemma root_timestamps_grows t t' :
  is_Some (arena t !! root) → grows (arena t) (arena t') →
  root_timestamps t' = root_timestamps t ∧ root_item t' = root_item t.
Proof.
  intros [r Hr] [_ Hnodes]. destruct (Hnodes _ _ Hr) as (r' & Hr' & Hit & Hts).
  unfold root_timestamps, root_item. by rewrite Hr, Hr'.
Qed.

(** [insert_node] on a tree that is being built, for items in the order of
    the RP-list: the timestamp goes to the root exactly when there is no
    item. *)
Lemma insert_node_spec t items timestamp :
  growing t → chain (_rp_list t) None items →
  ∃ t', insert_node t items timestamp = Ok t'
        ∧ growing t' ∧ _rp_list t' = _rp_list t
        ∧ (∀ k, is_Some (dict_get (_routes t') k) →
                k ∈ items ∨ is_Some (dict_get (_routes t) k))
        ∧ root_item t' = None
        ∧ root_timestamps t'
          = root_timestamps t ++ (if decide (items = []) then [timestamp] else []).
Proof.
  intros Hg Hchain.
  destruct (wf_root _ _ (proj1 Hg)) as (r & Hr & Hrit).
  destruct (descend_all_spec items t root r Hg Hr)
    as (t1 & last & ln & Hall & Hg1 & Hrp1 & Hln & Hnil & Hcons & Hgr & Hk).
  { by rewrite Hrit. }
  destruct (root_timestamps_grows t t1) as [Hts Hit]; [by eexists|done|].
  set (h' := <[last := with_timestamps ln (_timestamps ln ++ [timestamp])]> (arena t1)).
  assert (same_shape (arena t1) h') as Hsh by by eapply insert_same_shape.
  exists (mk_RPTree h' (_rp_list t1) (_routes t1)).
  unfold insert_node. rewrite Hall. simpl. unfold add_timestamp. rewrite Hln. simpl.
  destruct Hg1 as (Hwf1 & Hroutes1 & Hpr1).
  split; [done|]. split; [|split; [done|split; [done|]]].
  - split; [|split]; simpl.
    + by eapply same_shape_wf_arena.
    + by eapply same_shape_wf_routes.
    + by eapply same_shape_pristine.
  - unfold root_item, root_timestamps in *. simpl.
    destruct (wf_root _ _ Hwf1) as (r1 & Hr1 & Hr1it). rewrite Hr1 in Hts, Hit.
    rewrite Hr in Hts, Hit. rewrite Hr.
    destruct (decide (items = [])) as [Hempty|Hne].
    + pose proof (Hnil Hempty) as Hlast. unfold h'. rewrite Hlast.
      rewrite list_lookup_insert_eq by (by eapply lookup_lt_Some).
      simpl. rewrite Hlast, Hr1 in Hln. injection Hln as <-.
      split; [done|]. by rewrite Hts.
    + unfold h'. rewrite list_lookup_insert_ne by (by apply Hcons).
      rewrite Hr1. split; [done|]. rewrite Hts. by rewrite app_nil_r.
Qed.

(** ** Ranks *)

Lemma pos_lt_length l x : x ∈ l → (pos l x < length l)%nat.
Proof.
  induction l as [|y l IH]; simpl; intros Hin; [by apply not_elem_of_nil in Hin|].
  destruct (decide (y = x)) as [->|Hne]; [lia|].
  apply elem_of_cons in Hin as [?|Hin]; [congruence|].
  specialize (IH Hin). lia.
Qed.

Lemma pos_app_l l1 l2 x : x ∈ l1 → pos (l1 ++ l2) x = pos l1 x.
Proof.
  induction l1 as [|y l1 IH]; simpl; intros Hin; [by apply not_elem_of_nil in Hin|].
  destruct (decide (y = x)) as [->|Hne]; [done|].
  apply elem_of_cons in Hin as [?|Hin]; [congruence|]. by rewrite IH.
Qed.

Lemma pos_app_r l1 l2 x : x ∉ l1 → pos (l1 ++ l2) x = (length l1 + pos l2 x)%nat.
Proof.
  induction l1 as [|y l1 IH]; simpl; intros Hin; [done|].
  apply not_elem_of_cons in Hin as [Hne Hin].
  rewrite decide_False by done. by rewrite IH.
Qed.

Lemma chain_filter_suffix (P : string → Prop) `{∀ x, Decision (P x)} l2 :
  ∀ l1 prev,
    NoDup (l1 ++ l2) →
    (∀ p, prev = Some p → p ∈ l1) →
    chain (l1 ++ l2) prev (filter P l2).
Proof.
  induction l2 as [|x l2 IH]; intros l1 prev Hnd Hprev; [done|].
  rewrite filter_cons.
  assert (x ∉ l1) as Hx.
  { apply NoDup_app in Hnd as (_ & Hdisj & _). intros Hin.
    apply (Hdisj _ Hin). apply list_elem_of_here. }
  replace (l1 ++ x :: l2) with ((l1 ++ [x]) ++ l2) in *
    by (by rewrite <- app_assoc).
  destruct (decide (P x)) as [HP|HP].
  - split.
    + destruct prev as [p|]; [|done]. specialize (Hprev p eq_refl).
      rewrite <- app_assoc. rewrite (pos_app_l l1) by done.
      rewrite (pos_app_r l1) by done. simpl. rewrite decide_True by done.
      pose proof (pos_lt_length _ _ Hprev). lia.
    + apply IH; [done|]. intros p [= <-]. apply elem_of_app. right.
      apply list_elem_of_here.
  - apply IH; [done|]. intros p Hp. apply elem_of_app. left. by apply Hprev.
Qed.

Lemma chain_sorted_items rp items : NoDup rp → chain rp None (sorted_items rp items).
Proof.
  intros Hnd. unfold sorted_items.
  by apply (chain_filter_suffix (fun it => it ∈ items) rp [] None).
Qed.

Lemma sorted_items_elem rp items k : k ∈ sorted_items rp items → k ∈ rp.
Proof. unfold sorted_items. intros Hin. by apply list_elem_of_filter in Hin as [_ ?]. Qed.

(** ** Building the tree of a database *)

Lemma build_tree_spec rp tdb : ∀ t,
  growing t → _rp_list t = rp → NoDup rp →
  ∃ t', build_tree rp t tdb = Ok t'
        ∧ growing t' ∧ _rp_list t' = rp
        ∧ (∀ k, is_Some (dict_get (_routes t') k) →
                k ∈ rp ∨ is_Some (dict_get (_routes t) k))
        ∧ root_item t' = None
        ∧ root_timestamps t'
          = root_timestamps t
            ++ (filter (fun tx => sorted_items rp tx.2 = []) tdb).*1.
Proof.
  induction tdb as [|[timestamp items] tdb IH]; intros t Hg Hrp Hnd.
  - exists t. simpl. split_and!; try done.
    + intros k ?. by right.
    + destruct (wf_root _ _ (proj1 Hg)) as (r & Hr & Hrit).
      unfold root_item. by rewrite Hr.
    + by rewrite app_nil_r.
  - destruct (insert_node_spec t (sorted_items rp items) timestamp Hg)
      as (t1 & Hins & Hg1 & Hrp1 & Hk1 & Hit1 & Hts1).
    { rewrite Hrp. by apply chain_sorted_items. }
    destruct (IH t1 Hg1 ltac:(congruence) Hnd)
      as (t' & Hb & Hg' & Hrp' & Hk' & Hit' & Hts').
    exists t'. simpl. rewrite Hins. simpl. split_and!; try done.
    + intros k Hk. destruct (Hk' _ Hk) as [?|Hold]; [by left|].
      destruct (Hk1 _ Hold) as [Hin|?]; [|by right].
      left. by eapply sorted_items_elem.
    + rewrite Hts', Hts1, <- app_assoc. f_equal. cbn.
      by destruct (decide (sorted_items rp items = [])).
Qed.

(** ** Routes and paths *)

Lemma route_walk_spec rp h it : ∀ fuel n nd,
  wf_arena rp h → (length h - n ≤ fuel)%nat →
  h !! n = Some nd → _item nd = Some it →
  ∃ ns, route_walk fuel h (Some n) = Ok (n :: ns)
        ∧ Forall (fun i => ∃ ndi, h !! i = Some ndi ∧ _item ndi = Some it) (n :: ns).
Proof.
  induction fuel as [|fuel IH]; intros n nd Hwf Hfuel Hn Hit.
  { apply lookup_lt_Some in Hn. lia. }
  simpl. rewrite Hn. simpl.
  destruct (_neighbor nd) as [j|] eqn:Hj.
  - destruct (wf_neighbor _ _ Hwf _ _ _ Hn Hj) as (Hlt & jn & Hjn & Hjit).
    destruct (IH j jn Hwf ltac:(lia) Hjn ltac:(congruence)) as (ns & Hwalk & Hall).
    rewrite Hwalk. simpl. exists (j :: ns). split; [done|].
    constructor; [by exists nd|done].
  - exists []. split; [by destruct fuel|]. constructor; [by exists nd|constructor].
Qed.

Lemma nodes_spec t it :
  wf t → is_Some (dict_get (_routes t) it) →
  ∃ n ns, nodes t it = Ok (n :: ns)
          ∧ Forall (fun i => ∃ ndi, arena t !! i = Some ndi ∧ _item ndi = Some it)
                   (n :: ns).
Proof.
  intros (Hwf & Hroutes & _) [[head tail] Hget].
  destruct (Hroutes _ _ _ Hget) as ((hn & Hhn & Hhit) & _).
  destruct (route_walk_spec (_rp_list t) (arena t) it (length (arena t)) head hn
              Hwf ltac:(lia) Hhn Hhit) as (ns & Hwalk & Hall).
  exists head, ns. unfold nodes. by rewrite Hget.
Qed.

Lemma desc_Forall rp x l :
  desc rp (x :: l) → Forall (fun k => (pos rp k < pos rp x)%nat) l.
Proof.
  revert x. induction l as [|y l IH]; intros x Hd; [constructor|].
  destruct Hd as [Hlt Hd]. constructor; [done|].
  eapply Forall_impl; [by apply IH|]. simpl. intros. lia.
Qed.

Lemma chain_app rp prev l x :
  chain rp prev l →
  Forall (fun k => (pos rp k < pos rp x)%nat) l →
  (∀ p, prev = Some p → (pos rp p < pos rp x)%nat) →
  chain rp prev (l ++ [x]).
Proof.
  revert prev. induction l as [|y l IH]; intros prev Hc Hall Hprev; simpl.
  - split; [|done]. destruct prev as [p|]; [by apply Hprev|done].
  - destruct Hc as [Hy Hc]. inversion Hall; subst. split; [done|].
    apply IH; [done..|]. by intros p [= <-].
Qed.

Lemma desc_chain_reverse rp l : desc rp l → chain rp None (reverse l).
Proof.
  induction l as [|x l IH]; intros Hd; [done|].
  rewrite reverse_cons. apply chain_app.
  - apply IH. apply Hd.
  - apply Forall_reverse. by apply desc_Forall.
  - done.
Qed.

Lemma path_items_app h l1 : ∀ l2 a b,
  path_items h l1 = Ok a → path_items h l2 = Ok b →
  path_items h (l1 ++ l2) = Ok (a ++ b).
Proof.
  induction l1 as [|n l1 IH]; simpl; intros l2 a b Ha Hb.
  - by injection Ha as <-.
  - apply bind_Ok in Ha as (nd & Hnd & Ha).
    apply bind_Ok in Ha as (it & Hit & Ha).
    apply bind_Ok in Ha as (rest & Hrest & [= <-]).
    rewrite Hnd. simpl. rewrite Hit. simpl.
    rewrite (IH _ _ _ Hrest Hb). done.
Qed.

Lemma path_items_reverse h l : ∀ a,
  path_items h l = Ok a → path_items h (reverse l) = Ok (reverse a).
Proof.
  induction l as [|n l IH]; simpl; intros a Ha.
  - by injection Ha as <-.
  - apply bind_Ok in Ha as (nd & Hnd & Ha).
    apply bind_Ok in Ha as (it & Hit & Ha).
    apply bind_Ok in Ha as (rest & Hrest & [= <-]).
    rewrite !reverse_cons. apply path_items_app; [by apply IH|].
    simpl. rewrite Hnd. simpl. rewrite Hit. done.
Qed.

(** The climb from an occurrence node: the path ends at the root or at a
    node that was removed, the items on it descend in rank, and every one
    of them gets an entry in the timestamp dictionary. *)
Lemma climb_spec rp h current_ts : ∀ fuel n nd it path temp,
  wf_arena rp h → (n < fuel)%nat →
  h !! n = Some nd → _item nd = Some it →
  ∃ rest labels temp',
    climb fuel h (Some n) current_ts path temp = Ok (path ++ n :: rest, temp')
    ∧ path_items h rest = Ok labels
    ∧ desc rp (it :: labels)
    ∧ is_Some (dict_get temp' it)
    ∧ (∀ k, k ∈ labels → is_Some (dict_get temp' k))
    ∧ (∀ k, is_Some (dict_get temp k) → is_Some (dict_get temp' k)).
Proof.
  induction fuel as [|fuel IH]; intros n nd it path temp Hwf Hfuel Hn Hit; [lia|].
  simpl. rewrite Hn. simpl. rewrite Hit.
  set (temp1 := match dict_get temp it with
                | Some ts => dict_set temp it (ts ++ current_ts)
                | None => dict_set temp it current_ts
                end).
  assert (is_Some (dict_get temp1 it)) as Hit1.
  { unfold temp1. destruct (dict_get temp it); rewrite dict_get_set_eq; by eexists. }
  assert (∀ k, is_Some (dict_get temp k) → is_Some (dict_get temp1 k)) as Hkeep1.
  { intros k Hk. destruct (decide (it = k)) as [<-|Hne]; [done|].
    unfold temp1. destruct (dict_get temp it); by rewrite dict_get_set_ne. }
  assert (∀ f, climb f h None current_ts (path ++ [n]) temp1
               = Ok (path ++ [n], temp1)) as Hnone by (by intros [|f]).
  destruct (_parent nd) as [p|] eqn:Hpar.
  - destruct (wf_parent _ _ Hwf _ _ _ Hn Hpar) as (pn & it' & Hpn & Hit' & Hreg).
    assert (it' = it) as -> by congruence.
    destruct (wf_child _ _ Hwf _ _ _ _ Hpn (dict_get_Some_elem _ _ _ Hreg))
      as (Hlt & _ & Hrank).
    destruct (_item pn) as [pi|] eqn:Hpi.
    + destruct (IH p pn pi (path ++ [n]) temp1 Hwf ltac:(lia) Hpn Hpi)
        as (rest & labels & temp' & Hclimb & Hlabels & Hdesc & Hpi' & Hin & Hkeep).
      assert (desc rp (it :: pi :: labels)) as Hdesc'
        by (split; [by apply Hrank|done]).
      exists (p :: rest), (pi :: labels), temp'.
      split; [rewrite Hclimb; by rewrite <- app_assoc|].
      split; [simpl; rewrite Hpn; simpl; rewrite Hpi; simpl; by rewrite Hlabels|].
      split; [done|]. split; [by apply Hkeep|]. split.
      * intros k Hk. apply elem_of_cons in Hk as [->|Hk]; [done|by apply Hin].
      * intros k Hk. by apply Hkeep, Hkeep1.
    + exists [], [], temp1.
      split; [destruct fuel; simpl; rewrite Hpn; simpl; by rewrite Hpi|].
      split; [done|]. split; [done|]. split; [done|]. split; [|done].
      intros k Hk. by apply not_elem_of_nil in Hk.
  - exists [], [], temp1.
    split; [done|]. split; [done|]. split; [done|]. split; [done|]. split; [|done].
    intros k Hk. by apply not_elem_of_nil in Hk.
Qed.

(** ** The prefix tree of an item *)

Lemma walk_path_spec rp h node nd it0 temp pt :
  wf_arena rp h → h !! node = Some nd → _item nd = Some it0 →
  growing pt → _rp_list pt = rp →
  (∀ k, is_Some (dict_get (_routes pt) k) →
        (pos rp k < pos rp it0)%nat ∧ is_Some (dict_get temp k)) →
  ∃ temp' pt',
    walk_path h node temp pt = Ok (temp', pt')
    ∧ growing pt' ∧ _rp_list pt' = rp
    ∧ is_Some (dict_get temp' it0)
    ∧ (∀ k, is_Some (dict_get temp k) → is_Some (dict_get temp' k))
    ∧ (∀ k, is_Some (dict_get (_routes pt') k) →
            (pos rp k < pos rp it0)%nat ∧ is_Some (dict_get temp' k)).
Proof.
  intros Hwf Hn Hit Hg Hrp Hkeys.
  destruct (climb_spec rp h (_timestamps nd) (length h) node nd it0 [] temp Hwf
              (lookup_lt_Some _ _ _ Hn) Hn Hit)
    as (rest & labels & temp' & Hclimb & Hlabels & Hdesc & Hit0 & Hin & Hkeep).
  pose proof (path_items_reverse _ _ _ Hlabels) as Habove.
  destruct (wf_root _ _ (proj1 Hg)) as (r & Hr & Hrit).
  destruct (descend_all_spec (reverse labels) pt root r Hg Hr)
    as (pt1 & last & ln & Hall & Hg1 & Hrp1 & Hln & _ & _ & _ & Hk1).
  { rewrite Hrit, Hrp. apply desc_chain_reverse. apply Hdesc. }
  set (pa := <[last := with_timestamps ln (_timestamps ln ++ _timestamps nd)]>
               (arena pt1)).
  assert (same_shape (arena pt1) pa) as Hsh by by eapply insert_same_shape.
  exists temp', (mk_RPTree pa (_rp_list pt1) (_routes pt1)).
  split.
  { unfold walk_path. rewrite Hn. simpl. rewrite Hclimb. simpl.
    rewrite Habove. simpl. rewrite Hall. simpl. rewrite Hn. simpl.
    unfold add_timestamps. rewrite Hln. reflexivity. }
  destruct Hg1 as (Hwf1 & Hroutes1 & Hpr1).
  split.
  { split; [|split]; simpl.
    - by eapply same_shape_wf_arena.
    - by eapply same_shape_wf_routes.
    - by eapply same_shape_pristine. }
  split; [simpl; congruence|]. split; [done|]. split; [done|].
  simpl. intros k Hk. destruct (Hk1 _ Hk) as [Hkin|Hold].
  - rewrite elem_of_reverse in Hkin. split; [|by apply Hin].
    pose proof (desc_Forall _ _ _ Hdesc) as Hall'.
    rewrite Forall_forall in Hall'. by apply Hall'.
  - destruct (Hkeys _ Hold) as [? ?]. split; [done|by apply Hkeep].
Qed.

Lemma walk_paths_spec rp h it0 occurrences : ∀ temp pt,
  wf_arena rp h →
  Forall (fun i => ∃ ndi, h !! i = Some ndi ∧ _item ndi = Some it0) occurrences →
  growing pt → _rp_list pt = rp →
  (∀ k, is_Some (dict_get (_routes pt) k) →
        (pos rp k < pos rp it0)%nat ∧ is_Some (dict_get temp k)) →
  ∃ temp' pt',
    walk_paths h occurrences temp pt = Ok (temp', pt')
    ∧ growing pt' ∧ _rp_list pt' = rp
    ∧ (occurrences ≠ [] → is_Some (dict_get temp' it0))
    ∧ (∀ k, is_Some (dict_get temp k) → is_Some (dict_get temp' k))
    ∧ (∀ k, is_Some (dict_get (_routes pt') k) →
            (pos rp k < pos rp it0)%nat ∧ is_Some (dict_get temp' k)).
Proof.
  induction occurrences as [|n ns IH]; intros temp pt Hwf Hall Hg Hrp Hkeys.
  - exists temp, pt. simpl. split_and!; done.
  - apply Forall_cons in Hall as [(nd & Hn & Hit) Hall'].
    destruct (walk_path_spec rp h n nd it0 temp pt Hwf Hn Hit Hg Hrp Hkeys)
      as (temp1 & pt1 & Hwalk & Hg1 & Hrp1 & Hit1 & Hkeep1 & Hkeys1).
    destruct (IH temp1 pt1 Hwf Hall' Hg1 Hrp1 Hkeys1)
      as (temp' & pt' & Hwalks & Hg' & Hrp' & _ & Hkeep' & Hkeys').
    exists temp', pt'. simpl. rewrite Hwalk. simpl. split_and!; try done.
    + intros _. by apply Hkeep'.
    + intros k Hk. by apply Hkeep', Hkeep1.
Qed.

Lemma prefix_tree_spec t it :
  wf t → is_Some (dict_get (_routes t) it) →
  ∃ temp pt,
    prefix_tree t it = Ok (temp, pt)
    ∧ growing pt ∧ _rp_list pt = _rp_list t
    ∧ is_Some (dict_get temp it)
    ∧ (∀ k, is_Some (dict_get (_routes pt) k) →
            (pos (_rp_list t) k < pos (_rp_list t) it)%nat
            ∧ is_Some (dict_get temp k)).
Proof.
  intros Hwf Hroute.
  destruct (nodes_spec t it Hwf Hroute) as (n & ns & Hnodes & Hall).
  destruct (walk_paths_spec (_rp_list t) (arena t) it (n :: ns) []
              (new_tree (_rp_list t)) (proj1 Hwf) Hall
              (new_tree_growing _) eq_refl)
    as (temp & pt & Hwalks & Hg & Hrp & Hit & _ & Hkeys).
  { intros k Hk. simpl in Hk. by destruct Hk. }
  exists temp, pt. unfold prefix_tree. rewrite Hnodes. simpl.
  split_and!; try done. by apply Hit.
Qed.

(** ** The miner on well-formed trees *)

Lemma construct_loop_spec per min_ps min_rec timestamps items : ∀ pt,
  wf pt →
  (∀ k, is_Some (dict_get (_routes pt) k) → is_Some (dict_get timestamps k)) →
  ∃ ct, construct_loop per min_ps min_rec items pt timestamps = Ok ct
        ∧ wf ct ∧ _rp_list ct = _rp_list pt
        ∧ (∀ k, is_Some (dict_get (_routes ct) k) →
                is_Some (dict_get (_routes pt) k)).
Proof.
  induction items as [|it items IH]; intros pt Hwf Hkeys; simpl.
  - by exists pt.
  - destruct (dict_mem (_routes pt) it) eqn:Hmem; [|by apply IH].
    apply dict_mem_true in Hmem.
    destruct (Hkeys _ Hmem) as [ts Hts]. rewrite Hts. simpl.
    destruct (_get_recurrence per min_ps min_rec (sorted ts)); simpl;
      [by apply IH|].
    destruct (remove_nodes_spec pt it Hwf Hmem) as (pt1 & Hrem & Hwf1 & Hrp1 & Hr1 & _).
    rewrite Hrem. simpl.
    assert (∀ k, is_Some (dict_get (_routes pt1) k) →
              is_Some (dict_get (_routes pt) k)) as Hsub.
    { intros k Hk. rewrite Hr1 in Hk. destruct (decide (it = k)) as [<-|Hne].
      - rewrite dict_get_del_eq in Hk. by destruct Hk.
      - by rewrite dict_get_del_ne in Hk. }
    destruct (IH pt1 Hwf1) as (ct & Hloop & Hwf' & Hrp' & Hsub').
    { intros k Hk. by apply Hkeys, Hsub. }
    exists ct. split_and!; try done; [congruence|].
    intros k Hk. by apply Hsub, Hsub'.
Qed.

Lemma desc_tail rp x l : desc rp (x :: l) → desc rp l.
Proof. by intros [_ ?]. Qed.

Lemma desc_length rp l :
  desc rp l →
  match l with [] => True | x :: _ => (length l ≤ S (pos rp x))%nat end.
Proof.
  induction l as [|x l IH]; [done|]. intros [Hlt Hd].
  specialize (IH Hd). destruct l as [|y l]; simpl in *; lia.
Qed.

Lemma desc_NoDup rp l : desc rp l → NoDup l.
Proof.
  induction l as [|x l IH]; intros Hd; [constructor|].
  constructor; [|apply IH; by eapply desc_tail].
  intros Hin. pose proof (desc_Forall _ _ _ Hd) as Hall.
  rewrite Forall_forall in Hall. specialize (Hall _ Hin). lia.
Qed.

(** Two patterns in descending rank that hold the same items are the same
    pattern. *)
Lemma desc_same_items rp p : ∀ q,
  desc rp p → desc rp q → same_items p q → p = q.
Proof.
  induction p as [|a p IH]; intros q Hp Hq Hsame.
  - destruct q as [|b q]; [done|].
    pose proof (proj2 (Hsame b) (list_elem_of_here _ _)) as Hin.
    by apply not_elem_of_nil in Hin.
  - destruct q as [|b q].
    { pose proof (proj1 (Hsame a) (list_elem_of_here _ _)) as Hin.
      by apply not_elem_of_nil in Hin. }
    pose proof (desc_Forall _ _ _ Hp) as Hpa.
    pose proof (desc_Forall _ _ _ Hq) as Hqb.
    rewrite Forall_forall in Hpa, Hqb.
    assert (a = b) as <-.
    { pose proof (proj1 (Hsame a) (list_elem_of_here _ _)) as Ha.
      pose proof (proj2 (Hsame b) (list_elem_of_here _ _)) as Hb.
      apply elem_of_cons in Ha as [?|Ha]; [done|].
      apply elem_of_cons in Hb as [?|Hb]; [done|].
      specialize (Hpa _ Hb). specialize (Hqb _ Ha). lia. }
    f_equal. apply IH; [by eapply desc_tail..|].
    intros x. split; intros Hx.
    + pose proof (proj1 (Hsame x) (list_elem_of_further _ _ _ Hx)) as Hx'.
      apply elem_of_cons in Hx' as [->|?]; [|done].
      specialize (Hpa _ Hx). lia.
    + pose proof (proj2 (Hsame x) (list_elem_of_further _ _ _ Hx)) as Hx'.
      apply elem_of_cons in Hx' as [->|?]; [|done].
      specialize (Hqb _ Hx). lia.
Qed.

Lemma grown_nil rp pattern m items : grown rp pattern m items [].
Proof. split; constructor. Qed.

Lemma grown_app rp pattern m it items out1 out2 :
  it ∉ items →
  grown rp pattern m [it] out1 → grown rp pattern m items out2 →
  grown rp pattern m (it :: items) (out1 ++ out2).
Proof.
  intros Hnotin [Hnd1 Hall1] [Hnd2 Hall2]. split.
  - apply NoDup_app. split; [done|]. split; [|done].
    intros q Hq1 Hq2. rewrite Forall_forall in Hall1, Hall2.
    destruct (Hall1 _ Hq1) as (it1 & s1 & -> & Hit1 & _).
    destruct (Hall2 _ Hq2) as (it2 & s2 & Heq & Hit2 & _).
    apply app_inv_head in Heq. injection Heq as -> _.
    apply list_elem_of_singleton in Hit1 as ->. done.
  - apply Forall_app. split.
    + eapply Forall_impl; [done|]. simpl.
      intros q (it1 & s1 & -> & Hit1 & ? & ?). exists it1, s1.
      split; [done|]. split; [|done].
      apply list_elem_of_singleton in Hit1 as ->. apply list_elem_of_here.
    + eapply Forall_impl; [done|]. simpl.
      intros q (it2 & s2 & -> & Hit2 & ? & ?). exists it2, s2.
      split; [done|]. split; [|done]. by apply list_elem_of_further.
Qed.

Lemma grown_skip rp pattern m it items out :
  grown rp pattern m items out → grown rp pattern m (it :: items) out.
Proof.
  intros [Hnd Hall]. split; [done|].
  eapply Forall_impl; [done|]. simpl.
  intros q (it2 & s2 & -> & Hit2 & ? & ?). exists it2, s2.
  split; [done|]. split; [|done]. by apply list_elem_of_further.
Qed.

(** The patterns of one iteration: the new pattern, then those of the
    recursive call. *)
Lemma grown_item rp pattern m it deeper items' :
  (pos rp it < m)%nat →
  grown rp (pattern ++ [it]) (pos rp it) items' deeper →
  grown rp pattern m [it] ((pattern ++ [it]) :: deeper).
Proof.
  intros Hlt [Hnd Hall]. rewrite Forall_forall in Hall. split.
  - constructor; [|done]. intros Hin.
    destruct (Hall _ Hin) as (it' & s & Heq & _).
    rewrite <- app_assoc in Heq. apply app_inv_head in Heq. done.
  - constructor.
    + exists it, []. split; [done|]. split; [apply list_elem_of_here|].
      split; [done|]. by split.
    + apply Forall_forall. intros q Hq.
      destruct (Hall _ Hq) as (it' & s & -> & _ & Hlt' & Hdesc).
      exists it, (it' :: s). split; [by rewrite <- app_assoc|].
      split; [apply list_elem_of_here|]. split; [done|]. by split.
Qed.

Lemma growth_item_spec per min_ps min_rec rec depth tree pattern it m :
  rec_ok rec depth →
  wf tree → bound tree m → (m ≤ depth)%nat → NoDup (_rp_list tree) →
  is_Some (dict_get (_routes tree) it) →
  ∃ yielded tree',
    growth_item per min_ps min_rec rec tree pattern it = Ok (yielded, tree')
    ∧ grown (_rp_list tree) pattern m [it] yielded
    ∧ wf tree' ∧ _rp_list tree' = _rp_list tree
    ∧ _routes tree' = dict_del (_routes tree) it.
Proof.
  intros Hrec Hwf Hbound Hm Hnd Hroute.
  set (rp := _rp_list tree).
  destruct (prefix_tree_spec tree it Hwf Hroute)
    as (temp & pt & Hprefix & Hg & Hrp & [ts Hts] & Hkeys).
  destruct (remove_nodes_spec tree it Hwf Hroute)
    as (tree' & Hrem & Hwf' & Hrp' & Hr' & _).
  pose proof (Hbound _ Hroute) as Hlt. fold rp in Hlt, Hkeys.
  assert (∃ yielded,
    (if _get_recurrence per min_ps min_rec (sorted ts)
        && bool_decide (it ∉ pattern)
     then
       conditional_tree ←
         _construct_conditional_from_prefix per min_ps min_rec pt
           (dict_del temp it);
       deeper ← (if bool_decide (0 < node_count conditional_tree)%nat
                 then rec conditional_tree (pattern ++ [it])
                 else Ok []);
       Ok ((pattern ++ [it]) :: deeper)
     else Ok []) = Ok yielded
    ∧ grown rp pattern m [it] yielded) as (yielded & Hy & Hgrown).
  { destruct (_get_recurrence per min_ps min_rec (sorted ts)
              && bool_decide (it ∉ pattern));
      [|exists []; split; [done|apply grown_nil]].
    destruct (construct_loop_spec per min_ps min_rec (dict_del temp it)
                (reverse (_rp_list pt)) pt (growing_wf _ Hg))
      as (ct & Hct & Hwfc & Hrpc & Hsub).
    { intros k Hk. destruct (Hkeys _ Hk) as [Hpos Hin].
      rewrite dict_get_del_ne; [done|]. intros <-. lia. }
    unfold _construct_conditional_from_prefix. rewrite Hct. simpl.
    assert (_rp_list ct = rp) as Hrpct by (unfold rp; congruence).
    destruct (bool_decide (0 < node_count ct)%nat).
    - destruct (Hrec ct (pattern ++ [it]) (pos rp it)) as (deeper & Hdeeper & Hgd);
        [done| |lia|by rewrite Hrpct|].
      { intros k Hk. rewrite Hrpct. by apply Hkeys, Hsub. }
      rewrite Hdeeper. simpl. eexists. split; [done|].
      rewrite Hrpct in Hgd. by eapply grown_item.
    - simpl. eexists. split; [done|].
      eapply (grown_item rp pattern m it [] []); [done|apply grown_nil]. }
  exists yielded, tree'. unfold growth_item. rewrite Hprefix. simpl.
  rewrite Hts. simpl. rewrite Hy. simpl. rewrite Hrem. simpl. done.
Qed.

Lemma growth_loop_spec per min_ps min_rec rec depth pattern m items : ∀ tree,
  rec_ok rec depth →
  wf tree → bound tree m → (m ≤ depth)%nat → NoDup (_rp_list tree) →
  NoDup items →
  ∃ out tree',
    growth_loop per min_ps min_rec rec items tree pattern = Ok (out, tree')
    ∧ grown (_rp_list tree) pattern m items out
    ∧ wf tree' ∧ _rp_list tree' = _rp_list tree
    ∧ (∀ k, is_Some (dict_get (_routes tree') k) →
            is_Some (dict_get (_routes tree) k))
    ∧ (∀ k, k ∈ items → dict_get (_routes tree') k = None).
Proof.
  induction items as [|it items IH]; intros tree Hrec Hwf Hbound Hm Hnd Hitems.
  - exists [], tree. simpl. split_and!; try done; [apply grown_nil|].
    intros k Hk. by apply not_elem_of_nil in Hk.
  - apply NoDup_cons in Hitems as [Hnotin Hitems]. simpl.
    destruct (dict_mem (_routes tree) it) eqn:Hmem.
    + apply dict_mem_true in Hmem.
      destruct (growth_item_spec per min_ps min_rec rec depth tree pattern it m
                  Hrec Hwf Hbound Hm Hnd Hmem)
        as (yielded & tree1 & Hitem & Hg1 & Hwf1 & Hrp1 & Hr1).
      assert (∀ k, is_Some (dict_get (_routes tree1) k) →
                is_Some (dict_get (_routes tree) k)) as Hsub1.
      { intros k Hk. rewrite Hr1 in Hk. destruct (decide (it = k)) as [<-|Hne].
        - rewrite dict_get_del_eq in Hk. by destruct Hk.
        - by rewrite dict_get_del_ne in Hk. }
      destruct (IH tree1 Hrec Hwf1) as (later & tree' & Hloop & Hg' & Hwf' & Hrp' & Hsub' & Hnone');
        [by eapply remove_nodes_bound|done|by rewrite Hrp1|done|].
      exists (yielded ++ later), tree'. rewrite Hitem. simpl. rewrite Hloop. simpl.
      split; [done|]. split; [|split; [done|split; [congruence|split]]].
      * apply grown_app; [done|done|]. by rewrite <- Hrp1.
      * intros k Hk. by apply Hsub1, Hsub'.
      * intros k Hk. apply elem_of_cons in Hk as [->|Hk]; [|by apply Hnone'].
        destruct (dict_get (_routes tree') it) eqn:Hget; [|done].
        assert (is_Some (dict_get (_routes tree1) it)) as Hsome
          by (apply Hsub'; by eexists).
        rewrite Hr1, dict_get_del_eq in Hsome. by destruct Hsome.
    + apply dict_mem_false in Hmem.
      destruct (IH tree Hrec Hwf Hbound Hm Hnd Hitems)
        as (later & tree' & Hloop & Hg' & Hwf' & Hrp' & Hsub' & Hnone').
      exists later, tree'. split; [done|]. split; [by apply grown_skip|].
      split; [done|]. split; [done|]. split; [done|].
      intros k Hk. apply elem_of_cons in Hk as [->|Hk]; [|by apply Hnone'].
      destruct (dict_get (_routes tree') it) eqn:Hget; [|done].
      assert (is_Some (dict_get (_routes tree) it)) as Hsome
        by (apply Hsub'; by eexists).
      rewrite Hmem in Hsome. by destruct Hsome.
Qed.

(** [_rp_growth] returns when the depth of the recursion may exceed the
    rank of every item of the tree. *)
Lemma rp_growth_tree_spec per min_ps min_rec : ∀ depth tree pattern m,
  wf tree → bound tree m → (m < depth)%nat → NoDup (_rp_list tree) →
  ∃ out tree',
    _rp_growth_tree depth per min_ps min_rec tree pattern = Ok (out, tree')
    ∧ grown (_rp_list tree) pattern m (reverse (_rp_list tree)) out
    ∧ wf tree' ∧ _rp_list tree' = _rp_list tree
    ∧ (∀ k, k ∈ _rp_list tree → dict_get (_routes tree') k = None).
Proof.
  induction depth as [|depth IH]; intros tree pattern m Hwf Hbound Hm Hnd; [lia|].
  assert (rec_ok (fun t p => r ← _rp_growth_tree depth per min_ps min_rec t p;
                             Ok r.1) depth) as Hrec.
  { intros t p m' Hwft Hbt Hm' Hndt.
    destruct (IH t p m' Hwft Hbt Hm' Hndt) as (out & t' & Hrun & Hg & _).
    exists out. rewrite Hrun. done. }
  destruct (growth_loop_spec per min_ps min_rec _ depth pattern m
              (reverse (_rp_list tree)) tree Hrec Hwf Hbound ltac:(lia) Hnd)
    as (out & tree' & Hloop & Hg & Hwf' & Hrp' & _ & Hnone).
  { by rewrite reverse_Permutation. }
  exists out, tree'. simpl. rewrite Hloop. split_and!; try done.
  intros k Hk. apply Hnone. by apply elem_of_reverse.
Qed.

(** ** The whole run *)

Lemma mine_spec tdb per min_ps min_rec rp :
  build_rp_list per min_ps min_rec tdb = Ok rp →
  ∃ tree patterns tree',
    build_tree rp (new_tree rp) tdb = Ok tree
    ∧ _rp_growth_tree (S (length rp)) per min_ps min_rec tree []
      = Ok (patterns, tree')
    ∧ growing tree ∧ _rp_list tree = rp
    ∧ grown rp [] (length rp) (reverse rp) patterns
    ∧ (∀ k, k ∈ rp → dict_get (_routes tree') k = None).
Proof.
  intros Hrp. pose proof (build_rp_list_NoDup _ _ _ _ _ Hrp) as Hnd.
  destruct (build_tree_spec rp tdb (new_tree rp) (new_tree_growing rp) eq_refl Hnd)
    as (tree & Hbuild & Hg & Hrpt & Hkeys & _).
  destruct (rp_growth_tree_spec per min_ps min_rec (S (length rp)) tree []
              (length rp) (growing_wf _ Hg))
    as (patterns & tree' & Hrun & Hgrown & _ & _ & Hnone).
  { intros k Hk. rewrite Hrpt. apply pos_lt_length.
    destruct (Hkeys _ Hk) as [?|Hnew]; [done|]. simpl in Hnew. by destruct Hnew. }
  { lia. }
  { by rewrite Hrpt. }
  exists tree, patterns, tree'. rewrite Hrpt in *. done.
Qed.

(** The value of [find_recurring_patterns] is that of its three phases
    in sequence. *)
Lemma find_recurring_patterns_value self :
  (find_recurring_patterns self).1
  = (final_rp_list ← build_rp_list (_per self) (_min_ps self) (_min_rec self)
                        (_tdb self);
     tree ← build_tree final_rp_list (new_tree final_rp_list) (_tdb self);
     _rp_growth (S (length final_rp_list)) (_per self) (_min_ps self)
       (_min_rec self) tree []).
Proof.
  unfold find_recurring_patterns, m_bind, scan_rp_list, scan_tree, mine, m_reads,
    tdb, per, min_ps, min_rec.
  destruct (build_rp_list _ _ _ _) as [rp| | |]; simpl; try done.
  destruct (build_tree _ _ _) as [tree| | |]; simpl; done.
Qed.

Lemma find_recurring_patterns_outcome self :
  (∃ rp patterns,
      build_rp_list (_per self) (_min_ps self) (_min_rec self) (_tdb self) = Ok rp
      ∧ (find_recurring_patterns self).1 = Ok patterns
      ∧ grown rp [] (length rp) (reverse rp) patterns)
  ∨ (_min_ps self = 0
     ∧ (find_recurring_patterns self).1 = Raise ZeroDivisionError).
Proof.
  rewrite find_recurring_patterns_value.
  destruct (build_rp_list_outcome (_per self) (_min_ps self) (_min_rec self)
              (_tdb self)) as [[rp Hrp]|[Hz Hrp]].
  - left. destruct (mine_spec _ _ _ _ _ Hrp)
      as (tree & patterns & tree' & Hbuild & Hrun & _ & _ & Hgrown & _).
    exists rp, patterns. split; [done|]. split; [|done].
    rewrite Hrp. simpl. rewrite Hbuild. simpl. unfold _rp_growth.
    rewrite Hrun. done.
  - right. split; [done|]. by rewrite Hrp.
Qed.

(** ** The root sentinel *)

Lemma remove_nodes_root t it t' :
  wf t → remove_nodes t it = Ok t' →
  wf t' ∧ _rp_list t' = _rp_list t
  ∧ root_item t' = root_item t ∧ root_timestamps t' = root_timestamps t
  ∧ dict_get (_routes t') it = None.
Proof.
  intros Hwf Hrem.
  assert (is_Some (dict_get (_routes t) it)) as Hroute.
  { unfold remove_nodes in Hrem. destruct (dict_get (_routes t) it); [by eexists|done]. }
  destruct (remove_nodes_spec t it Hwf Hroute) as (t2 & Hrem2 & Hwf2 & Hrp2 & Hr2 & Hfr).
  rewrite Hrem in Hrem2. injection Hrem2 as <-.
  split; [done|]. split; [done|].
  destruct (wf_root _ _ (proj1 Hwf)) as (r & Hr & Hrit).
  destruct (proj2 Hfr _ _ Hr) as (r' & Hr' & Hit' & _ & _ & Hts').
  unfold root_item, root_timestamps. rewrite Hr, Hr'.
  split; [done|]. split; [by apply Hts'|]. rewrite Hr2. apply dict_get_del_eq.
Qed.

Lemma remove_seq_root items : ∀ t t',
  wf t → remove_seq t items = Ok t' →
  wf t' ∧ root_item t' = root_item t ∧ root_timestamps t' = root_timestamps t.
Proof.
  induction items as [|it items IH]; simpl; intros t t' Hwf Hseq.
  - by injection Hseq as <-.
  - apply bind_Ok in Hseq as (t1 & Hrem & Hseq).
    destruct (remove_nodes_root _ _ _ Hwf Hrem) as (Hwf1 & _ & Hit1 & Hts1 & _).
    destruct (IH _ _ Hwf1 Hseq) as (Hwf' & Hit' & Hts').
    split; [done|]. split; congruence.
Qed.

Lemma wf_root_item t : wf t → root_item t = None.
Proof.
  intros (Hwf & _). destruct (wf_root _ _ Hwf) as (r & Hr & Hrit).
  unfold root_item. by rewrite Hr.
Qed.

Lemma prefix_tree_wf t it temp pt :
  wf t → prefix_tree t it = Ok (temp, pt) → wf pt.
Proof.
  intros Hwf Hprefix.
  assert (is_Some (dict_get (_routes t) it)) as Hroute.
  { unfold prefix_tree, nodes in Hprefix.
    destruct (dict_get (_routes t) it); [by eexists|done]. }
  destruct (prefix_tree_spec t it Hwf Hroute) as (temp2 & pt2 & Hprefix2 & Hg & _).
  rewrite Hprefix in Hprefix2. injection Hprefix2 as <- <-.
  by apply growing_wf.
Qed.

Lemma derived_wf t t' : wf t → derived t t' → wf t'.
Proof.
  intros Hwf Hd. induction Hd as [|t1 it t2 _ IH Hrem|t1 it temp pt _ IH Hprefix].
  - done.
  - by destruct (remove_nodes_root _ _ _ IH Hrem) as (? & _).
  - by eapply prefix_tree_wf.
Qed.

(** ** A run with [min_ps = 2]

    The pattern [x, d, b] is found with [min_rec = 3] and not with
    [min_rec = 2] on a database whose runs have two timestamps or more. *)
Lemma min_rec_3_not_below_2_pairs :
  (ps ← (find_recurring_patterns (PatternFinder_init tdb_bcdx_pairs 1 2 3)).1;
   Ok (bool_decide (["x"; "d"; "b"]%string ∈ ps))) = Ok true
  ∧ (ps ← (find_recurring_patterns (PatternFinder_init tdb_bcdx_pairs 1 2 2)).1;
     Ok (bool_decide (["x"; "d"; "b"]%string ∈ ps))) = Ok false.
Proof. split; vm_compute; reflexivity. Qed.

(** ** The recurrence test: the recorded intervals *)

Lemma rec_loop_intervals per min_ps l : ∀ s prev,
  last_occurence s = Some prev →
  rec_close min_ps (rec_loop per min_ps s l)
  = sub_db s ++ intervals_from per min_ps (start_ts s) prev (current_ps s) l.
Proof.
  induction l as [|t l IH]; intros s prev Hlast.
  - simpl. unfold rec_close, close_run. rewrite Hlast.
    destruct (min_ps <=? current_ps s); [done|by rewrite app_nil_r].
  - change (rec_loop per min_ps s (t :: l))
      with (rec_loop per min_ps (rec_step per min_ps s t) l).
    rewrite (IH _ t).
    + unfold rec_step. rewrite Hlast. simpl.
      destruct (t - prev <=? per); simpl; [done|]. unfold close_run.
      destruct (min_ps <=? current_ps s); [by rewrite <- app_assoc|done].
    + unfold rec_step. rewrite Hlast. by destruct (t - prev <=? per).
Qed.

Lemma qualifying_cons min_ps (run : list Z) runs :
  run_interval <$> filter (long_enough min_ps) (run :: runs)
  = close_run min_ps (head run) (last run) (Z.of_nat (length run))
    ++ (run_interval <$> filter (long_enough min_ps) runs).
Proof.
  rewrite filter_cons. unfold close_run.
  destruct (Z.leb_spec min_ps (Z.of_nat (length run))).
  - by rewrite decide_True.
  - rewrite decide_False; [done|]. unfold long_enough. lia.
Qed.

Lemma intervals_from_runs per min_ps l : ∀ start prev c,
  intervals_from per min_ps start prev c l =
  match maximal_runs per l with
  | (t' :: run) :: runs =>
      (if (t' - prev <=? per)%Z
       then close_run min_ps start (last (t' :: run))
              (c + Z.of_nat (length (t' :: run)))
       else close_run min_ps start (Some prev) c
            ++ close_run min_ps (Some t') (last (t' :: run))
                 (Z.of_nat (length (t' :: run))))
      ++ (run_interval <$> filter (long_enough min_ps) runs)
  | _ => close_run min_ps start (Some prev) c
  end.
Proof.
  induction l as [|t l IH]; intros start prev c; simpl; [done|].
  pose proof (maximal_runs_nonempty per l) as Hne.
  rewrite !IH. clear IH.
  destruct (maximal_runs per l) as [|[|t' run] runs].
  - change (Z.of_nat (S (length (@nil Z)))) with 1. simpl.
    destruct (t - prev <=? per); by rewrite ?app_nil_r.
  - by inversion Hne.
  - destruct (t' - t <=? per).
    + destruct (t - prev <=? per).
      * f_equal. rewrite last_cons_cons. f_equal. cbn [length]. lia.
      * rewrite <- !app_assoc. f_equal. f_equal. rewrite last_cons_cons.
        f_equal. cbn [length]. lia.
    + rewrite qualifying_cons. cbn [head].
      destruct (t - prev <=? per); cbn [length last];
        change (Z.of_nat 1) with 1; by rewrite <- ?app_assoc.
Qed.

Lemma recurrence_intervals_runs per min_ps l :
  l ≠ [] →
  recurrence_intervals per min_ps l
  = run_interval <$> qualifying_runs per min_ps l.
Proof.
  destruct l as [|t l]; [done|]. intros _.
  unfold recurrence_intervals, qualifying_runs.
  change (rec_loop per min_ps rec_init (t :: l))
    with (rec_loop per min_ps (rec_step per min_ps rec_init t) l).
  rewrite (rec_loop_intervals _ _ _ _ t) by done.
  simpl. rewrite intervals_from_runs.
  pose proof (maximal_runs_nonempty per l) as Hne.
  destruct (maximal_runs per l) as [|[|t' run] runs].
  - rewrite qualifying_cons. simpl. by rewrite app_nil_r.
  - by inversion Hne.
  - destruct (t' - t <=? per).
    + rewrite qualifying_cons. cbn [head]. rewrite last_cons_cons.
      f_equal. f_equal. cbn [length]. lia.
    + rewrite !qualifying_cons. cbn [head length last].
      change (Z.of_nat 1) with 1. by rewrite <- app_assoc.
Qed.

Lemma maximal_runs_concat per l : concat (maximal_runs per l) = l.
Proof.
  induction l as [|t l IH]; simpl; [done|].
  pose proof (maximal_runs_nonempty per l) as Hne.
  destruct (maximal_runs per l) as [|[|t' run] runs].
  - simpl in *. by rewrite <- IH.
  - by inversion Hne.
  - destruct (t' - t <=? per); simpl in *; by rewrite IH.
Qed.

(** *** The count as a function of the sequence and of the thresholds *)

Lemma recurrence_count_cons per min_ps t l :
  recurrence_count per min_ps (t :: l) = Z.of_nat (count_from per min_ps t 1 l).
Proof.
  unfold recurrence_count, recurrence_intervals.
  change (rec_loop per min_ps rec_init (t :: l))
    with (rec_loop per min_ps (rec_step per min_ps rec_init t) l).
  by rewrite (rec_loop_count _ _ _ _ t).
Qed.

Lemma count_from_length per min_ps l : ∀ prev c,
  0 ≤ min_ps → 0 ≤ c →
  min_ps * Z.of_nat (count_from per min_ps prev c l) ≤ c + Z.of_nat (length l).
Proof.
  induction l as [|t l IH]; intros prev c Hps Hc; simpl.
  - unfold closes. destruct (Z.leb_spec min_ps c); lia.
  - destruct (t - prev <=? per).
    + specialize (IH t (c + 1) Hps ltac:(lia)). lia.
    + specialize (IH t 1 Hps ltac:(lia)).
      unfold closes in *. destruct (Z.leb_spec min_ps c); lia.
Qed.

Lemma count_from_shift per min_ps d l : ∀ prev c,
  count_from per min_ps (prev + d) c ((fun t => t + d) <$> l)
  = count_from per min_ps prev c l.
Proof.
  induction l as [|t l IH]; intros prev c; simpl; [done|].
  replace (t + d - (prev + d)) with (t - prev) by lia.
  by rewrite !IH.
Qed.

Lemma count_from_antitone per min_ps min_ps' l : ∀ prev c,
  min_ps ≤ min_ps' →
  (count_from per min_ps' prev c l ≤ count_from per min_ps prev c l)%nat.
Proof.
  assert (∀ c, min_ps ≤ min_ps' → (closes min_ps' c ≤ closes min_ps c)%nat) as Hcl.
  { intros c Hle. unfold closes.
    destruct (Z.leb_spec min_ps' c), (Z.leb_spec min_ps c); lia. }
  induction l as [|t l IH]; intros prev c Hle; simpl; [by apply Hcl|].
  destruct (t - prev <=? per); [by apply IH|].
  specialize (IH t 1 Hle). specialize (Hcl c Hle). lia.
Qed.

(** The runs of [maximal_runs] are runs, and no two of them can be joined. *)
Lemma maximal_runs_gaps per l :
  Forall (gaps_within per) (maximal_runs per l) ∧ gaps_between per (maximal_runs per l).
Proof.
  induction l as [|t l [IHw IHb]]; simpl; [by split; [constructor|]|].
  pose proof (maximal_runs_nonempty per l) as Hne.
  destruct (maximal_runs per l) as [|[|t' run] runs].
  - split; [by repeat constructor|done].
  - by inversion Hne.
  - destruct (Z.leb_spec (t' - t) per) as [Hle|Hgt].
    + apply Forall_cons in IHw as [Hw Hws]. split.
      * constructor; [|done]. by split.
      * destruct IHb as [Hb Hbs]. split; [|done].
        destruct runs as [|run' runs']; [done|].
        intros a b Ha Hb'. apply Hb; [|done].
        by rewrite last_cons_cons in Ha.
    + split.
      * constructor; [done|done].
      * split; [|done]. intros a b [= <-] [= <-]. lia.
Qed.

(** ** The RP-list: supports, order and pruning *)

Lemma count_in_cons a x items :
  count_in a (x :: items) = (if decide (x = a) then 1 else 0) + count_in a items.
Proof.
  unfold count_in. rewrite filter_cons.
  destruct (decide (x = a)); cbn [length]; lia.
Qed.

Lemma count_in_app a l1 l2 : count_in a (l1 ++ l2) = count_in a l1 + count_in a l2.
Proof. unfold count_in. rewrite filter_app, length_app. lia. Qed.

Lemma count_in_nonneg a items : 0 ≤ count_in a items.
Proof. unfold count_in. lia. Qed.

Lemma count_in_pos a items : 0 < count_in a items ↔ a ∈ items.
Proof.
  induction items as [|x items IH]; [by rewrite elem_of_nil|].
  rewrite count_in_cons, elem_of_cons. pose proof (count_in_nonneg a items).
  destruct (decide (x = a)) as [->|Hne]; [intuition lia|].
  rewrite <- IH. intuition (try lia; congruence).
Qed.

Lemma occurrences_cons t items tdb a :
  occurrences ((t, items) :: tdb) a = count_in a items + occurrences tdb a.
Proof. unfold occurrences. simpl. apply count_in_app. Qed.

Lemma occurrences_nonneg tdb a : 0 ≤ occurrences tdb a.
Proof. apply count_in_nonneg. Qed.

Lemma occurrences_pos tdb a :
  0 < occurrences tdb a ↔ ∃ tx, tx ∈ tdb ∧ a ∈ tx.2.
Proof.
  induction tdb as [|[t items] tdb IH].
  - split; [by unfold occurrences, count_in; simpl; lia|].
    intros (tx & Hin & _). by apply not_elem_of_nil in Hin.
  - rewrite occurrences_cons.
    pose proof (count_in_nonneg a items). pose proof (occurrences_nonneg tdb a).
    split.
    + intros Hpos. destruct (decide (a ∈ items)) as [Hin|Hnotin].
      * exists (t, items). split; [apply list_elem_of_here|done].
      * rewrite <- count_in_pos in Hnotin.
        destruct IH as [IH _]. destruct IH as (tx & Hin & Ha); [lia|].
        exists tx. split; [by apply list_elem_of_further|done].
    + intros (tx & Hin & Ha). apply elem_of_cons in Hin as [->|Hin].
      * simpl in Ha. apply count_in_pos in Ha. lia.
      * destruct IH as [_ IH]. specialize (IH (ex_intro _ tx (conj Hin Ha))). lia.
Qed.

(** One more occurrence of the item, at [t]. *)
Lemma rp_scan_item_tally per min_ps t rp rp' a n lt :
  rp_scan_item per min_ps t rp a = Ok rp' →
  tally min_ps a (dict_get rp a) n lt →
  tally min_ps a (dict_get rp' a) (n + 1) (Some t).
Proof.
  intros Hscan Htal. unfold rp_scan_item in Hscan.
  apply bind_Ok in Hscan as (rp1 & Hrp1 & Hscan).
  apply bind_Ok in Hscan as (e1 & He1 & [= <-]).
  rewrite dict_get_set_eq.
  destruct (dict_get rp a) as [e|] eqn:Hget; simpl in Htal.
  - destruct Htal as (Hit & Hsup & Hn & Hlast & Hsome & Hps' & Hbud).
    destruct (last_timestamp e) as [prev|]; [|done].
    destruct (t - prev <=? per).
    + injection Hrp1 as <-. rewrite dict_get_set_eq in He1.
      injection He1 as <-. simpl.
      split_and!; eauto; try lia; intros Hps; specialize (Hbud Hps); lia.
    + apply bind_Ok in Hrp1 as (q & Hq & [= <-]).
      rewrite dict_get_set_eq in He1. injection He1 as <-.
      apply floor_div_Ok in Hq as [_ ->]. simpl.
      split_and!; eauto; try lia; intros Hps; specialize (Hbud Hps);
        assert (0 ≤ periodic_support e / min_ps) by (apply Z.div_pos; lia);
        pose proof (Z.mul_div_le (periodic_support e) min_ps Hps); lia.
  - subst n. injection Hrp1 as <-. rewrite dict_get_set_eq in He1.
    injection He1 as <-. simpl. split_and!; eauto; lia.
Qed.

Lemma rp_scan_items_tally per min_ps t a items : ∀ rp rp' n lt,
  rp_scan_items per min_ps t rp items = Ok rp' →
  tally min_ps a (dict_get rp a) n lt →
  tally min_ps a (dict_get rp' a) (n + count_in a items)
    (if decide (a ∈ items) then Some t else lt).
Proof.
  induction items as [|it items IH]; simpl; intros rp rp' n lt Hscan Htal.
  - injection Hscan as <-. change (count_in a []) with 0.
    by rewrite Z.add_0_r.
  - apply bind_Ok in Hscan as (rp1 & Hrp1 & Hscan).
    rewrite count_in_cons. destruct (decide (it = a)) as [->|Hne].
    + pose proof (rp_scan_item_tally _ _ _ _ _ _ _ _ Hrp1 Htal) as Htal1.
      specialize (IH _ _ _ _ Hscan Htal1).
      rewrite decide_True by apply list_elem_of_here.
      replace (n + (1 + count_in a items)) with (n + 1 + count_in a items) by lia.
      by destruct (decide (a ∈ items)).
    + rewrite <- (rp_scan_item_other _ _ _ _ _ _ a Hrp1) in Htal by done.
      specialize (IH _ _ _ _ Hscan Htal).
      replace (n + (0 + count_in a items)) with (n + count_in a items) by lia.
      destruct (decide (a ∈ items)) as [Hin|Hnotin].
      * rewrite decide_True; [done|]. by apply list_elem_of_further.
      * rewrite decide_False; [done|]. rewrite elem_of_cons. intuition congruence.
Qed.

Lemma rp_scan_tally per min_ps a tdb : ∀ rp rp' n lt,
  rp_scan per min_ps rp tdb = Ok rp' →
  tally min_ps a (dict_get rp a) n lt →
  tally min_ps a (dict_get rp' a) (n + occurrences tdb a)
    (match last (item_timestamps tdb a) with Some t => Some t | None => lt end).
Proof.
  induction tdb as [|[t items] tdb IH]; simpl; intros rp rp' n lt Hscan Htal.
  - injection Hscan as <-. change (occurrences [] a) with 0.
    by rewrite Z.add_0_r.
  - apply bind_Ok in Hscan as (rp1 & Hrp1 & Hscan).
    pose proof (rp_scan_items_tally _ _ _ _ _ _ _ _ _ Hrp1 Htal) as Htal1.
    specialize (IH _ _ _ _ Hscan Htal1).
    rewrite occurrences_cons, item_timestamps_cons.
    replace (n + (count_in a items + occurrences tdb a))
      with (n + count_in a items + occurrences tdb a) by lia.
    destruct (decide (a ∈ items)).
    + destruct (item_timestamps tdb a) as [|t' l] eqn:Heq; [done|].
      rewrite last_cons_cons.
      destruct (last (t' :: l)) eqn:Hl; [done|]. by apply last_None in Hl.
    + done.
Qed.

(** The entries after the first scan. *)
Lemma rp_scan_entries per min_ps tdb rp a :
  rp_scan per min_ps [] tdb = Ok rp →
  tally min_ps a (dict_get rp a) (occurrences tdb a) (last (item_timestamps tdb a)).
Proof.
  intros Hscan.
  pose proof (rp_scan_tally per min_ps a tdb [] rp 0 None Hscan eq_refl) as Htal.
  rewrite Z.add_0_l in Htal. by destruct (last (item_timestamps tdb a)).
Qed.

Lemma rp_flush_item_support min_ps e e' :
  rp_flush_item min_ps e = Ok e' →
  support e' = support e ∧ item e' = item e
  ∧ (0 < min_ps →
     0 ≤ max_recurrence e ∧ 1 ≤ periodic_support e
     ∧ min_ps * max_recurrence e + periodic_support e ≤ support e →
     min_ps * max_recurrence e' ≤ support e').
Proof.
  unfold rp_flush_item. destruct (1 <? periodic_support e).
  - intros Hfl. apply bind_Ok in Hfl as (q & Hq & [= <-]).
    apply floor_div_Ok in Hq as [_ ->]. simpl. split_and!; [done..|].
    intros Hps Hbud. pose proof (Z.mul_div_le (periodic_support e) min_ps Hps). lia.
  - intros [= <-]. split_and!; [done..|]. lia.
Qed.

(** The entries that the flush keeps. *)
Lemma final_entries per min_ps min_rec tdb rp final a e' :
  rp_scan per min_ps [] tdb = Ok rp →
  rp_flush min_ps min_rec rp = Ok final →
  (a, e') ∈ final →
  support e' = occurrences tdb a ∧ 0 < occurrences tdb a
  ∧ min_rec ≤ max_recurrence e'
  ∧ (0 < min_ps → min_ps * max_recurrence e' ≤ occurrences tdb a).
Proof.
  intros Hscan Hflush Hin.
  destruct (rp_flush_elem _ _ _ _ _ _ Hflush Hin) as (e & Hin0 & Hfl & Hrec).
  assert (NoDup (dict_keys rp)) as Hnd.
  { eapply rp_scan_keys; [done|]. apply NoDup_nil_2. }
  apply (dict_get_elem_NoDup _ _ _ Hnd) in Hin0.
  pose proof (rp_scan_entries per min_ps tdb rp a Hscan) as Htal.
  rewrite Hin0 in Htal. destruct Htal as (_ & Hsup & Hpos & _ & _ & _ & Hbud).
  apply rp_flush_item_support in Hfl as (Hsup' & _ & Hfl).
  split_and!; [congruence|done|done|].
  intros Hps. rewrite <- Hsup, <- Hsup'. apply Hfl; [done|]. by apply Hbud.
Qed.

Lemma rp_sorted_elem final a :
  a ∈ rp_sorted final ↔ ∃ e, (a, e) ∈ final.
Proof.
  rewrite rp_sorted_Permutation. unfold dict_keys. rewrite list_elem_of_fmap. split.
  - intros ([a' e] & -> & Hin). by exists e.
  - intros (e & Hin). by exists (a, e).
Qed.

(** *** The order of the RP-list *)

Lemma rp_key_le_total a b : rp_key_le a b = false → rp_key_le b a = true.
Proof.
  unfold rp_key_le. intros Hab.
  apply orb_false_iff in Hab as [Hlt Heq]. apply Z.ltb_ge in Hlt.
  apply orb_true_iff.
  destruct (Z.eqb_spec (- support a.2) (- support b.2)) as [Hs|Hs].
  - right. simpl in Heq. apply andb_true_iff. split; [apply Z.eqb_eq; lia|].
    destruct (String.leb_total a.1 b.1) as [Hle|Hle]; [congruence|done].
  - left. apply Z.ltb_lt. lia.
Qed.

Lemma rp_insert_sorted a l : key_sorted l → key_sorted (rp_insert a l).
Proof.
  induction l as [|b l IH]; simpl; [done|]. intros [Hhd Htl].
  destruct (rp_key_le a b) eqn:Hab; [by split_and!|].
  split; [|by apply IH].
  destruct l as [|c l]; simpl; [by apply rp_key_le_total|].
  destruct (rp_key_le a c); [by apply rp_key_le_total|done].
Qed.

Lemma rp_insert_all_sorted l : key_sorted (foldr rp_insert [] l).
Proof. induction l as [|a l IH]; simpl; [done|]. by apply rp_insert_sorted. Qed.

Lemma key_sorted_adjacent l : ∀ i a b,
  key_sorted l → l !! i = Some a → l !! S i = Some b → rp_key_le a b = true.
Proof.
  induction l as [|x l IH]; intros i a b Hs Ha Hb; [done|].
  destruct Hs as [Hhd Htl]. destruct i as [|i].
  - simpl in Ha. injection Ha as ->. destruct l as [|y l]; [done|].
    simpl in Hb. by injection Hb as ->.
  - by apply (IH i).
Qed.

Lemma rp_insert_all_Permutation l : foldr rp_insert [] l ≡ₚ l.
Proof.
  induction l as [|a l IH]; simpl; [done|].
  by rewrite rp_insert_Permutation, IH.
Qed.

(** *** Pruning *)

Lemma rp_flush_keeps min_ps min_rec rp : ∀ final a e,
  rp_flush min_ps min_rec rp = Ok final → (a, e) ∈ rp →
  ∃ e', rp_flush_item min_ps e = Ok e'
        ∧ (min_rec ≤ max_recurrence e' → (a, e') ∈ final).
Proof.
  induction rp as [|[it e0] rp IH]; simpl; intros final a e Hflush Hin.
  - by apply not_elem_of_nil in Hin.
  - apply bind_Ok in Hflush as (e1 & He1 & Hflush).
    apply bind_Ok in Hflush as (final' & Hfinal' & Hflush).
    apply elem_of_cons in Hin as [[= -> ->]|Hin].
    + exists e1. split; [done|]. intros Hrec.
      destruct (Z.leb_spec min_rec (max_recurrence e1)); [|lia].
      injection Hflush as <-. apply list_elem_of_here.
    + destruct (IH _ _ _ Hfinal' Hin) as (e' & Hfl & Hkeep).
      exists e'. split; [done|]. intros Hrec.
      destruct (min_rec <=? max_recurrence e1); injection Hflush as <-.
      * apply list_elem_of_further. by apply Hkeep.
      * by apply Hkeep.
Qed.

(** The flushed estimate of an entry against the count of the exact test,
    for [min_ps] at least 2. *)
Lemma rp_flush_item_bounds min_ps e e' s :
  2 ≤ min_ps →
  agrees (Some e) s → rp_flush_item min_ps e = Ok e' →
  Z.of_nat (length (rec_close min_ps s)) ≤ max_recurrence e'.
Proof.
  intros Hps (_ & _ & Hcur & Hsub) Hfl.
  unfold rec_close. unfold rp_flush_item in Hfl.
  destruct (Z.ltb_spec 1 (periodic_support e)).
  - apply bind_Ok in Hfl as (q & Hq & [= <-]).
    apply floor_div_Ok in Hq as [_ ->]. simpl.
    destruct (Z.leb_spec min_ps (current_ps s)).
    + rewrite length_app. simpl.
      assert (1 ≤ periodic_support e / min_ps)
        by (apply Z.div_le_lower_bound; lia). lia.
    + assert (0 ≤ periodic_support e / min_ps)
        by (apply Z.div_pos; lia). lia.
  - injection Hfl as <-.
    destruct (Z.leb_spec min_ps (current_ps s)); [lia|lia].
Qed.

(** *** The dividends of the estimate *)

Lemma count_in_le_length a items : count_in a items ≤ Z.of_nat (length items).
Proof. unfold count_in. pose proof (length_filter (fun x => x = a) items). lia. Qed.

(** On a database in the float range, the [periodic_support] that the
    scan leaves in an entry, which the flush divides by [min_ps], is below
    2^53. *)
Lemma scan_dividends_in_range per min_ps tdb rp a e :
  in_float_range tdb min_ps →
  rp_scan per min_ps [] tdb = Ok rp → dict_get rp a = Some e →
  1 ≤ periodic_support e < 2 ^ 53.
Proof.
  intros [Hsize _] Hscan Hget.
  pose proof (rp_scan_entries per min_ps tdb rp a Hscan) as Htal.
  rewrite Hget in Htal. destruct Htal as (_ & Hsup & _ & _ & _ & Hps & _).
  pose proof (count_in_le_length a (concat tdb.*2)) as Hle.
  unfold occurrences in Hsup. lia.
Qed.

(** ** The miner: the patterns it returns *)

Lemma pos_elem l x : (pos l x < length l)%nat → x ∈ l.
Proof.
  induction l as [|y l IH]; simpl; [lia|].
  destruct (decide (y = x)) as [->|Hne]; intros Hlt.
  - apply list_elem_of_here.
  - apply list_elem_of_further, IH. lia.
Qed.

(** The items of a sequence in descending rank that starts in the RP-list
    are in the RP-list. *)
Lemma desc_elem rp x s y :
  x ∈ rp → desc rp (x :: s) → y ∈ x :: s → y ∈ rp.
Proof.
  intros Hx Hdesc Hy. apply elem_of_cons in Hy as [->|Hy]; [done|].
  apply pos_elem. pose proof (pos_lt_length _ _ Hx).
  pose proof (desc_Forall _ _ _ Hdesc) as Hall.
  rewrite Forall_forall in Hall. specialize (Hall _ Hy). lia.
Qed.

(** The items of the RP-list in the database. *)
Lemma rp_list_elem_frequent per min_ps min_rec tdb rp a :
  build_rp_list per min_ps min_rec tdb = Ok rp → a ∈ rp →
  (∃ tx, tx ∈ tdb ∧ a ∈ tx.2)
  ∧ (0 < min_ps → min_ps * min_rec ≤ occurrences tdb a).
Proof.
  intros Hbuild Hin. unfold build_rp_list in Hbuild.
  apply bind_Ok in Hbuild as (rp0 & Hscan & Hbuild).
  apply bind_Ok in Hbuild as (final & Hflush & [= <-]).
  apply rp_sorted_elem in Hin as (e' & Hin).
  destruct (final_entries _ _ _ _ _ _ _ _ Hscan Hflush Hin)
    as (_ & Hpos & Hrec & Hbud).
  split; [by apply occurrences_pos|].
  intros Hps. specialize (Hbud Hps). nia.
Qed.

(** The patterns of a call that starts with the empty prefix. *)
Lemma grown_top rp out q :
  grown rp [] (length rp) (reverse rp) out → q ∈ out →
  q ≠ [] ∧ desc rp q ∧ ∀ x, x ∈ q → x ∈ rp.
Proof.
  intros [_ Hall] Hq. rewrite Forall_forall in Hall.
  destruct (Hall _ Hq) as (it & s & -> & Hit & _ & Hdesc). simpl.
  rewrite elem_of_reverse in Hit.
  split; [done|]. split; [done|]. intros x Hx. by eapply desc_elem.
Qed.

(** A tree without routes: the loop of [_rp_growth] finds no item. *)
Lemma growth_loop_no_routes per min_ps min_rec rec items tree pattern :
  _routes tree = [] →
  growth_loop per min_ps min_rec rec items tree pattern = Ok ([], tree).
Proof.
  intros Hroutes. induction items as [|it items IH]; simpl; [done|].
  unfold dict_mem. by rewrite Hroutes.
Qed.

(** The routes that the loop of [_construct_conditional_from_prefix]
    leaves. *)
Lemma construct_loop_routes per min_ps min_rec timestamps items : ∀ pt,
  wf pt →
  (∀ k, is_Some (dict_get (_routes pt) k) → is_Some (dict_get timestamps k)) →
  ∃ ct, construct_loop per min_ps min_rec items pt timestamps = Ok ct
        ∧ wf ct ∧ _rp_list ct = _rp_list pt
        ∧ (∀ k, is_Some (dict_get (_routes ct) k) ↔
                is_Some (dict_get (_routes pt) k)
                ∧ (k ∈ items → passes_test per min_ps min_rec timestamps k)).
Proof.
  induction items as [|it items IH]; intros pt Hwf Hkeys; simpl.
  - exists pt. split_and!; [done..|]. intros k. split; [|by intros [? _]].
    intros Hk. split; [done|]. intros Hin. by apply not_elem_of_nil in Hin.
  - destruct (dict_mem (_routes pt) it) eqn:Hmem.
    + apply dict_mem_true in Hmem.
      destruct (Hkeys _ Hmem) as [ts Hts]. rewrite Hts. simpl.
      destruct (_get_recurrence per min_ps min_rec (sorted ts)) eqn:Htest; simpl.
      * destruct (IH pt Hwf Hkeys) as (ct & Hloop & Hwf' & Hrp' & Hiff).
        exists ct. split_and!; [done..|]. intros k. rewrite Hiff.
        split; intros [Hk Hpass]; (split; [done|]); intros Hin.
        -- apply elem_of_cons in Hin as [->|Hin]; [by exists ts|by apply Hpass].
        -- by apply Hpass, list_elem_of_further.
      * destruct (remove_nodes_spec pt it Hwf Hmem)
          as (pt1 & Hrem & Hwf1 & Hrp1 & Hr1 & _).
        rewrite Hrem. simpl.
        assert (∀ k, is_Some (dict_get (_routes pt1) k) ↔
                  k ≠ it ∧ is_Some (dict_get (_routes pt) k)) as Hdel.
        { intros k. rewrite Hr1. destruct (decide (it = k)) as [<-|Hne].
          - rewrite dict_get_del_eq. split; [by intros []|by intros []].
          - rewrite dict_get_del_ne by done. intuition congruence. }
        destruct (IH pt1 Hwf1) as (ct & Hloop & Hwf' & Hrp' & Hiff).
        { intros k Hk. by apply Hkeys, Hdel. }
        exists ct. split_and!; [done|done|congruence|].
        intros k. rewrite Hiff, Hdel.
        split.
        -- intros [[Hne Hk] Hpass]. split; [done|]. intros Hin.
           apply elem_of_cons in Hin as [->|Hin]; [done|by apply Hpass].
        -- intros [Hk Hpass]. assert (k ≠ it) as Hne.
           { intros ->. destruct Hpass as (ts' & Hts' & Htest');
               [apply list_elem_of_here|]. congruence. }
           split; [done|]. intros Hin. by apply Hpass, list_elem_of_further.
    + apply dict_mem_false in Hmem.
      destruct (IH pt Hwf Hkeys) as (ct & Hloop & Hwf' & Hrp' & Hiff).
      exists ct. split_and!; [done..|]. intros k. rewrite Hiff.
      split; intros [Hk Hpass]; (split; [done|]); intros Hin.
      * apply elem_of_cons in Hin as [->|Hin]; [|by apply Hpass].
        rewrite Hmem in Hk. by destruct Hk.
      * by apply Hpass, list_elem_of_further.
Qed.

(** ** The tree: links, routes and paths *)

Lemma dict_del_fresh {V : Type} (d : list (string * V)) k :
  dict_get d k = None → dict_del d k = d.
Proof.
  induction d as [|[k0 v0] d IH]; simpl; [done|].
  destruct (decide (k0 = k)); [done|]. intros Hget. by rewrite IH.
Qed.

Lemma dict_del_set_fresh {V : Type} (d : list (string * V)) k v :
  dict_get d k = None → dict_del (dict_set d k v) k = d.
Proof.
  induction d as [|[k0 v0] d IH]; simpl.
  - by rewrite decide_True.
  - destruct (decide (k0 = k)) as [->|Hne]; [done|]. intros Hget. simpl.
    rewrite decide_False by done. by rewrite IH.
Qed.

Lemma dict_mem_del {V : Type} (d : list (string * V)) k k' :
  dict_mem (dict_del d k) k' = true ↔ k' ≠ k ∧ dict_mem d k' = true.
Proof.
  rewrite !dict_mem_true. destruct (decide (k = k')) as [<-|Hne].
  - rewrite dict_get_del_eq. split; [by intros []|by intros []].
  - rewrite dict_get_del_ne by done. intuition congruence.
Qed.

(** The outcome of [remove_nodes] on the routes. *)
Lemma remove_nodes_routes t it t' :
  remove_nodes t it = Ok t' →
  is_Some (dict_get (_routes t) it)
  ∧ _rp_list t' = _rp_list t ∧ _routes t' = dict_del (_routes t) it.
Proof.
  unfold remove_nodes. unfold dict_mem.
  destruct (dict_get (_routes t) it) as [[head tail]|] eqn:Hget; [|done].
  intros Hrem. apply bind_Ok in Hrem as (h & _ & [= <-]). by split; [eexists|].
Qed.

(** *** The timestamps that [prefix_tree] collects *)

Lemma desc_head_Forall rp x l :
  desc rp l → (∀ y, head l = Some y → (pos rp y < pos rp x)%nat) →
  desc rp (x :: l) ∧ x ∉ l.
Proof.
  intros Hdesc Hhead. destruct l as [|y l]; [split; [done|apply not_elem_of_nil]|].
  specialize (Hhead y eq_refl). split; [by split|].
  pose proof (desc_Forall _ _ _ Hdesc) as Hall. rewrite Forall_forall in Hall.
  intros Hin. apply elem_of_cons in Hin as [->|Hin]; [lia|].
  specialize (Hall _ Hin). lia.
Qed.

Lemma labels_up_head rp h fuel node x :
  wf_arena rp h → head (labels_up fuel h node) = Some x →
  ∃ n nd, node = Some n ∧ h !! n = Some nd ∧ _item nd = Some x.
Proof.
  intros Hwf. destruct fuel as [|fuel]; [done|]. destruct node as [n|]; [|done].
  simpl. destruct (h !! n) as [nd|] eqn:Hn; [|done].
  destruct (_item nd) as [it|] eqn:Hit; [|done].
  simpl. intros [= <-]. by exists n, nd.
Qed.

(** The climb credits [current_ts] once to every item on the way up. *)
Lemma climb_credit rp h current_ts : ∀ fuel node path temp path' temp',
  wf_arena rp h →
  climb fuel h node current_ts path temp = Ok (path', temp') →
  desc rp (labels_up fuel h node)
  ∧ ∀ k, dict_get temp' k
         = if decide (k ∈ labels_up fuel h node)
           then Some (default [] (dict_get temp k) ++ current_ts)
           else dict_get temp k.
Proof.
  induction fuel as [|fuel IH]; intros node path temp path' temp' Hwf Hclimb.
  - destruct node as [n|]; simpl in *.
    + destruct (h !! n) as [nd|]; [|done]. simpl in Hclimb.
      destruct (_item nd); [done|]. by injection Hclimb as <- <-.
    + by injection Hclimb as <- <-.
  - destruct node as [n|]; simpl in *;
      [|by injection Hclimb as <- <-].
    destruct (h !! n) as [nd|] eqn:Hn; [|done]. simpl in Hclimb.
    destruct (_item nd) as [it|] eqn:Hit;
      [|by injection Hclimb as <- <-].
    set (temp1 := match dict_get temp it with
                  | Some ts => dict_set temp it (ts ++ current_ts)
                  | None => dict_set temp it current_ts
                  end) in *.
    assert (∀ k, dict_get temp1 k
                 = if decide (k = it)
                   then Some (default [] (dict_get temp k) ++ current_ts)
                   else dict_get temp k) as Htemp1.
    { intros k. unfold temp1. destruct (decide (k = it)) as [->|Hne].
      - destruct (dict_get temp it); by rewrite dict_get_set_eq.
      - destruct (dict_get temp it); by rewrite dict_get_set_ne. }
    destruct (IH _ _ _ _ _ Hwf Hclimb) as [Hdesc Hcredit].
    destruct (desc_head_Forall rp it (labels_up fuel h (_parent nd)) Hdesc)
      as [Hdesc' Hnotin].
    { intros y Hy.
      destruct (labels_up_head _ _ _ _ _ Hwf Hy) as (p & pn & Hpar & Hpn & Hpi).
      destruct (wf_parent _ _ Hwf _ _ _ Hn Hpar) as (pn' & it' & Hpn' & Hit' & Hreg).
      assert (it' = it) as -> by congruence.
      assert (pn' = pn) as -> by congruence.
      destruct (wf_child _ _ Hwf _ _ _ _ Hpn (dict_get_Some_elem _ _ _ Hreg))
        as (_ & _ & Hrank). by apply Hrank. }
    split; [done|]. intros k. rewrite Hcredit, Htemp1.
    destruct (decide (k = it)) as [->|Hne].
    + rewrite decide_False by done. by rewrite decide_True by apply list_elem_of_here.
    + destruct (decide (k ∈ labels_up fuel h (_parent nd))) as [Hin|Hout].
      * by rewrite decide_True by by apply list_elem_of_further.
      * rewrite decide_False; [done|]. rewrite elem_of_cons. intuition congruence.
Qed.

Lemma walk_path_credit rp h node temp pt temp' pt' :
  wf_arena rp h →
  walk_path h node temp pt = Ok (temp', pt') →
  ∀ k, dict_get temp' k
       = if decide (above h k node)
         then Some (default [] (dict_get temp k) ++ timestamps_of h node)
         else dict_get temp k.
Proof.
  intros Hwf Hwalk. unfold walk_path in Hwalk.
  apply bind_Ok in Hwalk as (nd & Hnd & Hwalk). apply deref_Ok in Hnd.
  apply bind_Ok in Hwalk as ([path temp1] & Hclimb & Hwalk).
  apply bind_Ok in Hwalk as (labels & _ & Hwalk).
  apply bind_Ok in Hwalk as ([pt1 rt] & _ & Hwalk).
  destruct path as [|first path]; [done|].
  apply bind_Ok in Hwalk as (f & _ & Hwalk).
  apply bind_Ok in Hwalk as (pa & _ & [= <- <-]).
  destruct (climb_credit _ _ _ _ _ _ _ _ _ Hwf Hclimb) as [_ Hcredit].
  intros k. rewrite Hcredit. unfold above, timestamps_of. by rewrite Hnd.
Qed.

Lemma credited_cons h n ns k :
  credited h (n :: ns) k
  = (if decide (above h k n) then timestamps_of h n else []) ++ credited h ns k.
Proof. done. Qed.

Lemma walk_paths_credit rp h ns : ∀ temp pt temp' pt',
  wf_arena rp h →
  walk_paths h ns temp pt = Ok (temp', pt') →
  ∀ k, dict_get temp' k
       = if decide (Exists (above h k) ns)
         then Some (default [] (dict_get temp k) ++ credited h ns k)
         else dict_get temp k.
Proof.
  induction ns as [|n ns IH]; intros temp pt temp' pt' Hwf Hwalks k; simpl in Hwalks.
  - injection Hwalks as <- <-. rewrite decide_False; [done|].
    intros Hex. by apply Exists_nil in Hex.
  - apply bind_Ok in Hwalks as ([temp1 pt1] & Hwalk & Hwalks).
    rewrite (IH _ _ _ _ Hwf Hwalks k), (walk_path_credit _ _ _ _ _ _ _ Hwf Hwalk k).
    rewrite credited_cons.
    destruct (decide (above h k n)) as [Hn|Hn];
      destruct (decide (Exists (above h k) ns)) as [Hns|Hns].
    + rewrite decide_True by by apply Exists_cons_hd. simpl. by rewrite app_assoc.
    + rewrite decide_True by by apply Exists_cons_hd.
      assert (credited h ns k = []) as ->; [|by rewrite app_nil_r].
      clear -Hns. induction ns as [|m ns IH]; [done|].
      rewrite credited_cons. rewrite decide_False.
      * simpl. apply IH. intros Hex. apply Hns. by apply Exists_cons_tl.
      * intros Hm. apply Hns. by apply Exists_cons_hd.
    + rewrite decide_True by by apply Exists_cons_tl. done.
    + rewrite decide_False; [done|]. rewrite Exists_cons. intuition.
Qed.

Lemma above_own_item h n nd it :
  h !! n = Some nd → _item nd = Some it → above h it n.
Proof.
  intros Hn Hit. unfold above. pose proof (lookup_lt_Some _ _ _ Hn) as Hlt.
  destruct (length h) as [|fuel]; [lia|]. simpl. rewrite Hn, Hit.
  apply list_elem_of_here.
Qed.

Lemma credited_own_item h it ns :
  Forall (fun i => ∃ ndi, h !! i = Some ndi ∧ _item ndi = Some it) ns →
  credited h ns it = concat (timestamps_of h <$> ns).
Proof.
  induction ns as [|n ns IH]; [done|]. intros Hall.
  apply Forall_cons in Hall as [(nd & Hn & Hit) Hall].
  rewrite credited_cons, fmap_cons. simpl. rewrite IH by done.
  by rewrite decide_True by by eapply above_own_item.
Qed.

(** *** One step down, in full

    What [descend] does when it creates the child: the new node is the
    last of the arena, it is registered under [current_node], and the tail
    of the route of its item, if there is one, gets it as neighbor. *)
Lemma descend_effect t current it t' next :
  descend t current it = Ok (t', next) →
  (t' = t ∧ ∃ cur, arena t !! current = Some cur ∧ get_child cur it = Some next)
  ∨ (∃ cur, arena t !! current = Some cur ∧ get_child cur it = None)
    ∧ next = length (arena t)
    ∧ _rp_list t' = _rp_list t
    ∧ _routes t' = route_with (_routes t) it next
    ∧ length (arena t') = S (length (arena t))
    ∧ (∀ i nd, arena t !! i = Some nd →
         ∃ nd', arena t' !! i = Some nd'
           ∧ _item nd' = _item nd ∧ _parent nd' = _parent nd
           ∧ _timestamps nd' = _timestamps nd
           ∧ _children nd'
             = (if decide (i = current) then dict_set (_children nd) it next
                else _children nd)
           ∧ _neighbor nd'
             = (if decide (route_tail (_routes t) it = Some i) then Some next
                else _neighbor nd))
    ∧ (∃ nn, arena t' !! next = Some nn
         ∧ _item nn = Some it ∧ _parent nn = Some current
         ∧ _children nn = [] ∧ _timestamps nn = []
         ∧ (route_tail (_routes t) it ≠ Some next → _neighbor nn = None)).
Proof.
  unfold descend. intros Hd.
  apply bind_Ok in Hd as (cur & Hcur & Hd). apply deref_Ok in Hcur.
  destruct (get_child cur it) as [c|] eqn:Hget.
  { injection Hd as <- <-. left. split; [done|]. by exists cur. }
  right. split; [by exists cur|].
  pose proof (lookup_lt_Some _ _ _ Hcur) as Hcl.
  set (len := length (arena t)) in *.
  set (h0 := arena t ++ [new_node (Some it)]) in *.
  assert (h0 !! current = Some cur) as Hcur0 by by apply lookup_app_l_Some.
  assert (h0 !! len = Some (new_node (Some it))) as Hnext0
    by (by apply list_lookup_middle).
  assert (length h0 = S len) as Hlen0
    by (unfold h0; rewrite length_app; simpl; lia).
  apply bind_Ok in Hd as (h1 & Hadd & Hd).
  unfold add in Hadd. rewrite Hcur0, Hnext0 in Hadd. simpl in Hadd.
  unfold get_child in Hget. rewrite Hget in Hadd.
  rewrite list_lookup_insert_ne in Hadd by lia. rewrite Hnext0 in Hadd.
  simpl in Hadd. injection Hadd as <-.
  set (s1 := with_children cur (dict_set (_children cur) it len)) in *.
  set (c1 := with_parent (new_node (Some it)) (Some current)) in *.
  set (h1 := <[len := c1]> (<[current := s1]> h0)) in *.
  assert (length h1 = S len) as Hlen1 by (unfold h1; by rewrite !length_insert).
  assert (h1 !! len = Some c1) as Hnext1.
  { unfold h1. apply list_lookup_insert_eq. rewrite length_insert. lia. }
  assert (∀ i nd, arena t !! i = Some nd →
            h1 !! i = Some (if decide (i = current) then s1 else nd)) as Hold1.
  { intros i nd Hi. pose proof (lookup_lt_Some _ _ _ Hi) as Hil.
    unfold h1. rewrite list_lookup_insert_ne by (unfold len in *; lia).
    destruct (decide (i = current)) as [->|Hne].
    - apply list_lookup_insert_eq. lia.
    - rewrite list_lookup_insert_ne by done. by apply lookup_app_l_Some. }
  apply bind_Ok in Hd as (t1 & Hroute & [= <- <-]).
  unfold _update_route in Hroute. simpl in Hroute. rewrite Hnext1 in Hroute.
  simpl in Hroute. unfold route_with, route_tail.
  destruct (dict_get (_routes t) it) as [[head tail]|] eqn:Hr.
  - apply bind_Ok in Hroute as (tl & Htl & [= <-]). apply deref_Ok in Htl.
    simpl. pose proof (lookup_lt_Some _ _ _ Htl) as Htll.
    split_and!; [done|done|done|by rewrite length_insert| |].
    + intros i nd Hi. pose proof (lookup_lt_Some _ _ _ Hi) as Hil.
      specialize (Hold1 _ _ Hi).
      destruct (decide (Some tail = Some i)) as [[= ->]|Hne].
      * rewrite Hold1 in Htl. injection Htl as <-.
        eexists. split; [apply list_lookup_insert_eq; lia|].
        simpl. destruct (decide (i = current)) as [->|?]; simpl.
        -- rewrite Hcur in Hi. by injection Hi as <-.
        -- done.
      * rewrite list_lookup_insert_ne by congruence. rewrite Hold1.
        eexists. split; [done|].
        destruct (decide (i = current)) as [->|?]; simpl.
        -- rewrite Hcur in Hi. by injection Hi as <-.
        -- done.
    + destruct (decide (tail = len)) as [->|Hne].
      * eexists. split; [apply list_lookup_insert_eq; lia|].
        rewrite Hnext1 in Htl. injection Htl as <-. simpl.
        split_and!; [done..|]. by intros [].
      * exists c1. split; [by rewrite list_lookup_insert_ne|]. done.
  - injection Hroute as <-. simpl.
    split_and!; [done|done|done|done| |].
    + intros i nd Hi. specialize (Hold1 _ _ Hi). rewrite Hold1.
      eexists. split; [done|].
      destruct (decide (i = current)) as [->|?]; simpl.
      * rewrite Hcur in Hi. by injection Hi as <-.
      * done.
    + exists c1. by split.
Qed.

(** *** Paths *)

(** A step down keeps the children that a node has. *)
Lemma descend_children_mono t current it t' next i nd k c :
  descend t current it = Ok (t', next) →
  arena t !! i = Some nd → get_child nd k = Some c →
  ∃ nd', arena t' !! i = Some nd' ∧ get_child nd' k = Some c.
Proof.
  intros Hd Hi Hk.
  destruct (descend_effect _ _ _ _ _ Hd)
    as [[-> _]|([cur [Hcur Hnone]] & _ & _ & _ & _ & Hold & _)]; [by exists nd|].
  destruct (Hold _ _ Hi) as (nd' & Hi' & _ & _ & _ & Hch & _).
  exists nd'. split; [done|]. unfold get_child in *. rewrite Hch.
  destruct (decide (i = current)) as [->|Hne]; [|done].
  rewrite dict_get_set_ne; [done|]. intros <-.
  rewrite Hcur in Hi. injection Hi as <-. congruence.
Qed.

Lemma descend_child t current it t' next :
  descend t current it = Ok (t', next) →
  ∃ cur', arena t' !! current = Some cur' ∧ get_child cur' it = Some next.
Proof.
  intros Hd.
  destruct (descend_effect _ _ _ _ _ Hd)
    as [[-> ?]|([cur [Hcur Hnone]] & _ & _ & _ & _ & Hold & _)]; [done|].
  destruct (Hold _ _ Hcur) as (cur' & Hcur' & _ & _ & _ & Hch & _).
  exists cur'. split; [done|]. unfold get_child. rewrite Hch.
  rewrite decide_True by done. apply dict_get_set_eq.
Qed.

Lemma descend_all_children_mono items : ∀ t current t' last i nd k c,
  descend_all t current items = Ok (t', last) →
  arena t !! i = Some nd → get_child nd k = Some c →
  ∃ nd', arena t' !! i = Some nd' ∧ get_child nd' k = Some c.
Proof.
  induction items as [|it items IH]; intros t current t' last i nd k c Hall Hi Hk;
    simpl in Hall.
  - injection Hall as <- <-. by exists nd.
  - apply bind_Ok in Hall as ([t1 next] & Hd & Hall).
    destruct (descend_children_mono _ _ _ _ _ _ _ _ _ Hd Hi Hk) as (nd1 & Hi1 & Hk1).
    by eapply IH.
Qed.

(** The paths that a tree has stay when children are added. *)
Lemma get_path_mono h h' items : ∀ n m,
  (∀ i nd k c, h !! i = Some nd → get_child nd k = Some c →
     ∃ nd', h' !! i = Some nd' ∧ get_child nd' k = Some c) →
  get_path h n items = Some m → get_path h' n items = Some m.
Proof.
  induction items as [|it items IH]; intros n m Hmono Hpath; simpl in *; [done|].
  destruct (h !! n) as [nd|] eqn:Hn; [|done].
  destruct (get_child nd it) as [c|] eqn:Hc; [|done].
  destruct (Hmono _ _ _ _ Hn Hc) as (nd' & -> & ->). by apply IH.
Qed.

(** [descend_all] ends at the node that the items lead to. *)
Lemma descend_all_path items : ∀ t current t' last,
  descend_all t current items = Ok (t', last) →
  get_path (arena t') current items = Some last.
Proof.
  induction items as [|it items IH]; intros t current t' last Hall; simpl in Hall.
  - by injection Hall as <- <-.
  - apply bind_Ok in Hall as ([t1 next] & Hd & Hall).
    destruct (descend_child _ _ _ _ _ Hd) as (cur' & Hcur' & Hget).
    destruct (descend_all_children_mono _ _ _ _ _ _ _ _ _ Hall Hcur' Hget)
      as (cur2 & Hcur2 & Hget2).
    simpl. rewrite Hcur2, Hget2. by eapply IH.
Qed.

(** Where the items lead to a node, [descend_all] creates nothing. *)
Lemma descend_all_existing items : ∀ t current last,
  get_path (arena t) current items = Some last →
  descend_all t current items = Ok (t, last).
Proof.
  induction items as [|it items IH]; intros t current last Hpath; simpl in *.
  - by injection Hpath as <-.
  - destruct (arena t !! current) as [nd|] eqn:Hn; [|done].
    destruct (get_child nd it) as [c|] eqn:Hc; [|done].
    unfold descend. rewrite Hn. simpl. rewrite Hc. simpl. by apply IH.
Qed.

Lemma get_path_same_shape h h' items : ∀ n m,
  same_shape h h' → get_path h n items = Some m → get_path h' n items = Some m.
Proof.
  intros n m Hsh. apply get_path_mono. intros i nd k c Hi Hk.
  destruct (same_shape_lookup h' h i nd (same_shape_sym _ _ Hsh) Hi)
    as (nd' & Hi' & Hshape).
  exists nd'. split; [done|]. apply shape_inv in Hshape as (_ & _ & Hch & _).
  unfold get_child in *. congruence.
Qed.

Lemma get_path_snoc h items : ∀ n it,
  get_path h n (items ++ [it])
  = match get_path h n items with
    | Some m =>
        match h !! m with
        | Some nd => get_child nd it
        | None => None
        end
    | None => None
    end.
Proof.
  induction items as [|k items IH]; intros n it; simpl.
  - destruct (h !! n) as [nd|]; [|done]. by destruct (get_child nd it).
  - destruct (h !! n) as [nd|]; [|done].
    destruct (get_child nd k) as [c|]; [|done]. apply IH.
Qed.

(** In a tree whose children are owned, a node is reached from the root
    by one list of items only. *)
Lemma get_path_inj rp h p : ∀ q n,
  wf_arena rp h → owned h →
  get_path h root p = Some n → get_path h root q = Some n → p = q.
Proof.
  intros q n Hwf Hown. revert q n.
  destruct (wf_root _ _ Hwf) as (r & Hr & Hrit).
  assert (∀ q it, get_path h root (q ++ [it]) = Some root → False) as Hroot.
  { intros q it Hq. rewrite get_path_snoc in Hq.
    destruct (get_path h root q) as [m'|]; [|done].
    destruct (h !! m') as [nd|] eqn:Hm'; [|done].
    destruct (Hown _ _ _ _ Hm' Hq) as (cn & Hcn & _ & Hit). congruence. }
  induction p as [|it p IH] using rev_ind; intros q n Hp Hq.
  - simpl in Hp. injection Hp as <-.
    destruct q as [|it' q _] using rev_ind; [done|]. exfalso. by eapply (Hroot q).
  - destruct q as [|it' q _] using rev_ind.
    { simpl in Hq. injection Hq as <-. exfalso. by eapply (Hroot p). }
    rewrite get_path_snoc in Hp, Hq.
    destruct (get_path h root p) as [m|] eqn:Hpm; [|done].
    destruct (get_path h root q) as [m'|] eqn:Hqm; [|done].
    destruct (h !! m) as [nd|] eqn:Hm; [|done].
    destruct (h !! m') as [nd'|] eqn:Hm'; [|done].
    destruct (Hown _ _ _ _ Hm Hp) as (cn & Hcn & Hpar & Hit).
    destruct (Hown _ _ _ _ Hm' Hq) as (cn' & Hcn' & Hpar' & Hit').
    assert (cn' = cn) as -> by congruence.
    assert (m' = m) as -> by congruence.
    assert (it' = it) as -> by congruence.
    f_equal. by eapply IH.
Qed.

Lemma get_path_le rp h items : ∀ n m,
  wf_arena rp h → get_path h n items = Some m → (n ≤ m)%nat.
Proof.
  induction items as [|it items IH]; intros n m Hwf Hpath; simpl in Hpath.
  - injection Hpath as <-. lia.
  - destruct (h !! n) as [nd|] eqn:Hn; [|done].
    destruct (get_child nd it) as [c|] eqn:Hc; [|done].
    destruct (wf_child _ _ Hwf _ _ _ _ Hn (dict_get_Some_elem _ _ _ Hc)) as (Hlt & _).
    specialize (IH _ _ Hwf Hpath). lia.
Qed.

Lemma get_path_in_arena rp h items : ∀ n m,
  wf_arena rp h → is_Some (h !! n) → get_path h n items = Some m → is_Some (h !! m).
Proof.
  induction items as [|it items IH]; intros n m Hwf Hin Hpath; simpl in Hpath.
  - by injection Hpath as <-.
  - destruct (h !! n) as [nd|] eqn:Hn; [|done].
    destruct (get_child nd it) as [c|] eqn:Hc; [|done].
    destruct (wf_child _ _ Hwf _ _ _ _ Hn (dict_get_Some_elem _ _ _ Hc))
      as (_ & (cn & Hcn & _) & _).
    eapply IH; [done| |done]. by eexists.
Qed.

(** *** What a descent keeps and what it adds *)

Lemma descend_grows t current it t' next :
  descend t current it = Ok (t', next) → grows (arena t) (arena t').
Proof.
  intros Hd.
  destruct (descend_effect _ _ _ _ _ Hd)
    as [[-> _]|(_ & _ & _ & _ & Hlen & Hold & _)]; [apply grows_refl|].
  split; [lia|]. intros i nd Hi.
  destruct (Hold _ _ Hi) as (nd' & Hi' & ? & _ & ? & _). by exists nd'.
Qed.

Lemma descend_all_grows items : ∀ t current t' last,
  descend_all t current items = Ok (t', last) → grows (arena t) (arena t').
Proof.
  induction items as [|it items IH]; intros t current t' last Hall; simpl in Hall.
  - injection Hall as <- <-. apply grows_refl.
  - apply bind_Ok in Hall as ([t1 next] & Hd & Hall).
    eapply grows_trans; [by eapply descend_grows|by eapply IH].
Qed.

Lemma descend_owned t current it t' next :
  owned (arena t) → descend t current it = Ok (t', next) → owned (arena t').
Proof.
  intros Hown Hd.
  destruct (descend_effect _ _ _ _ _ Hd)
    as [[-> _]|([cur [Hcur Hnone]] & -> & _ & _ & Hlen & Hold & Hnew)]; [done|].
  destruct Hnew as (nn & Hnn & Hnit & Hnpar & Hnch & _).
  intros p pn' k c Hp Hk.
  destruct (decide (p = length (arena t))) as [->|Hne].
  { rewrite Hnn in Hp. injection Hp as <-. unfold get_child in Hk.
    by rewrite Hnch in Hk. }
  assert (is_Some (arena t !! p)) as [pn Hpn].
  { apply lookup_lt_is_Some. apply lookup_lt_Some in Hp. lia. }
  destruct (Hold _ _ Hpn) as (pn2 & Hpn2 & _ & _ & _ & Hch & _).
  assert (pn2 = pn') as -> by congruence.
  unfold get_child in Hk. rewrite Hch in Hk.
  assert (get_child pn k = Some c ∨ (p = current ∧ k = it ∧ c = length (arena t)))
    as [Hold_k|(-> & -> & ->)].
  { destruct (decide (p = current)) as [->|?]; [|by left].
    destruct (decide (it = k)) as [->|?].
    - rewrite dict_get_set_eq in Hk. injection Hk as <-. by right.
    - rewrite dict_get_set_ne in Hk by done. by left. }
  - destruct (Hown _ _ _ _ Hpn Hold_k) as (cn & Hcn & Hpar & Hit).
    destruct (Hold _ _ Hcn) as (cn' & Hcn' & Hit' & Hpar' & _).
    exists cn'. split; [done|]. split; congruence.
  - by exists nn.
Qed.

Lemma descend_all_owned items : ∀ t current t' last,
  owned (arena t) → descend_all t current items = Ok (t', last) → owned (arena t').
Proof.
  induction items as [|it items IH]; intros t current t' last Hown Hall;
    simpl in Hall.
  - by injection Hall as <- <-.
  - apply bind_Ok in Hall as ([t1 next] & Hd & Hall).
    eapply IH; [|done]. by eapply descend_owned.
Qed.

Lemma same_shape_owned h h' : same_shape h h' → owned h → owned h'.
Proof.
  intros Hsh Hown p pn' k c Hp Hk.
  destruct (same_shape_lookup _ _ _ _ Hsh Hp) as (pn & Hpn & Hshape).
  apply shape_inv in Hshape as (_ & _ & Hch & _).
  unfold get_child in Hk. rewrite <- Hch in Hk.
  destruct (Hown _ _ _ _ Hpn Hk) as (cn & Hcn & Hpar & Hit).
  destruct (same_shape_lookup _ _ c cn (same_shape_sym _ _ Hsh) Hcn)
    as (cn' & Hcn' & Hshape').
  apply shape_inv in Hshape' as (Hit' & Hpar' & _).
  exists cn'. split; [done|]. split; congruence.
Qed.

(** The nodes that a descent creates hold no timestamp. *)
Lemma descend_all_fresh items : ∀ t current t' last i nd,
  descend_all t current items = Ok (t', last) →
  (length (arena t) ≤ i)%nat → arena t' !! i = Some nd → _timestamps nd = [].
Proof.
  induction items as [|it items IH]; intros t current t' last i nd Hall Hle Hi;
    simpl in Hall.
  - injection Hall as <- <-. apply lookup_lt_Some in Hi. lia.
  - apply bind_Ok in Hall as ([t1 next] & Hd & Hall).
    destruct (decide (length (arena t1) ≤ i)%nat) as [Hle1|Hlt1];
      [by eapply IH|].
    destruct (descend_effect _ _ _ _ _ Hd)
      as [[-> _]|(_ & -> & _ & _ & Hlen & _ & Hnew)]; [lia|].
    destruct Hnew as (nn & Hnn & _ & _ & _ & Hts & _).
    assert (i = length (arena t)) as -> by lia.
    destruct (descend_all_grows _ _ _ _ _ Hall) as [_ Hkeep].
    destruct (Hkeep _ _ Hnn) as (nd' & Hi' & _ & Hts'). congruence.
Qed.

(** A child that a descent finds at an old node, and that is an old node,
    was a child before. *)
Lemma descend_children_reflect t current it t' next i nd' k c :
  descend t current it = Ok (t', next) →
  arena t' !! i = Some nd' → get_child nd' k = Some c →
  (i < length (arena t))%nat → (c < length (arena t))%nat →
  ∃ nd, arena t !! i = Some nd ∧ get_child nd k = Some c.
Proof.
  intros Hd Hi Hk Hil Hcl.
  destruct (descend_effect _ _ _ _ _ Hd)
    as [[-> _]|(_ & -> & _ & _ & _ & Hold & _)]; [by exists nd'|].
  assert (is_Some (arena t !! i)) as [nd Hnd] by by apply lookup_lt_is_Some.
  destruct (Hold _ _ Hnd) as (nd2 & Hnd2 & _ & _ & _ & Hch & _).
  assert (nd2 = nd') as -> by congruence.
  exists nd. split; [done|]. unfold get_child in *. rewrite Hch in Hk.
  destruct (decide (i = current)) as [->|?]; [|done].
  destruct (decide (it = k)) as [->|?].
  - rewrite dict_get_set_eq in Hk. injection Hk as <-. lia.
  - by rewrite dict_get_set_ne in Hk.
Qed.

Lemma descend_all_children_reflect items : ∀ t current t' last i nd' k c,
  descend_all t current items = Ok (t', last) →
  arena t' !! i = Some nd' → get_child nd' k = Some c →
  (i < length (arena t))%nat → (c < length (arena t))%nat →
  ∃ nd, arena t !! i = Some nd ∧ get_child nd k = Some c.
Proof.
  induction items as [|it items IH]; intros t current t' last i nd' k c Hall Hi Hk
    Hil Hcl; simpl in Hall.
  - injection Hall as <- <-. by exists nd'.
  - apply bind_Ok in Hall as ([t1 next] & Hd & Hall).
    destruct (descend_grows _ _ _ _ _ Hd) as [Hlen _].
    destruct (IH _ _ _ _ _ _ _ _ Hall Hi Hk ltac:(lia) ltac:(lia))
      as (nd1 & Hi1 & Hk1).
    by eapply descend_children_reflect.
Qed.

(** A path of the tree after a descent, between nodes that were there
    before, was a path before. *)
Lemma descend_all_path_reflect rp items t current t' last q : ∀ n m,
  descend_all t current items = Ok (t', last) → wf_arena rp (arena t') →
  get_path (arena t') n q = Some m →
  (n < length (arena t))%nat → (m < length (arena t))%nat →
  get_path (arena t) n q = Some m.
Proof.
  induction q as [|k q IH]; intros n m Hall Hwf Hpath Hnl Hml; simpl in *; [done|].
  destruct (arena t' !! n) as [nd'|] eqn:Hn; [|done].
  destruct (get_child nd' k) as [c|] eqn:Hc; [|done].
  pose proof (get_path_le _ _ _ _ _ Hwf Hpath) as Hcm.
  destruct (descend_all_children_reflect _ _ _ _ _ _ _ _ _ Hall Hn Hc Hnl ltac:(lia))
    as (nd & -> & ->).
  apply IH; [done|done|done|lia|done].
Qed.
(** *** The transactions that a tree holds *)

Lemma stored_snoc rp seen ts raw p :
  stored rp (seen ++ [(ts, raw)]) p
  = stored rp seen p ++ (if decide (sorted_items rp raw = p) then [ts] else []).
Proof.
  unfold stored. rewrite filter_app, fmap_app. f_equal.
  rewrite filter_cons. simpl. by destruct (decide (sorted_items rp raw = p)).
Qed.

Lemma timestamps_of_insert h n nd ts i :
  h !! n = Some nd →
  timestamps_of (<[n := with_timestamps nd ts]> h) i
  = if decide (i = n) then ts else timestamps_of h i.
Proof.
  intros Hn. unfold timestamps_of. destruct (decide (i = n)) as [->|Hne].
  - by rewrite list_lookup_insert_eq by by eapply lookup_lt_Some.
  - by rewrite list_lookup_insert_ne.
Qed.

Lemma insert_node_holds t seen raw ts t' :
  growing t → owned (arena t) → NoDup (_rp_list t) → holds t seen →
  insert_node t (sorted_items (_rp_list t) raw) ts = Ok t' →
  growing t' ∧ owned (arena t') ∧ _rp_list t' = _rp_list t
  ∧ holds t' (seen ++ [(ts, raw)]).
Proof.
  intros Hg Hown Hnd [Hcontent Hpaths] Hins.
  set (rp := _rp_list t) in *. set (items := sorted_items rp raw) in *.
  assert (chain rp None items) as Hchain by by apply chain_sorted_items.
  destruct (insert_node_spec t items ts Hg Hchain) as (t2 & Hins2 & Hg' & Hrp' & _).
  rewrite Hins in Hins2. injection Hins2 as <-.
  split; [done|].
  destruct (wf_root _ _ (proj1 Hg)) as (r & Hr & Hrit).
  destruct (descend_all_spec items t root r Hg Hr)
    as (t1 & last & ln & Hall & Hg1 & Hrp1 & Hln & _);
    [by rewrite Hrit|].
  unfold insert_node in Hins. rewrite Hall in Hins. simpl in Hins.
  unfold add_timestamp in Hins. rewrite Hln in Hins. simpl in Hins.
  injection Hins as <-. simpl in *.
  set (h' := <[last := with_timestamps ln (_timestamps ln ++ [ts])]> (arena t1)).
  assert (same_shape (arena t1) h') as Hsh by by eapply insert_same_shape.
  pose proof (descend_all_owned _ _ _ _ _ Hown Hall) as Hown1.
  pose proof (descend_all_path _ _ _ _ _ Hall) as Hpath1.
  pose proof (descend_all_grows _ _ _ _ _ Hall) as [Hlen Hkeep].
  pose proof (lookup_lt_Some _ _ _ Hr) as Hrl.
  assert (∀ p n, get_path (arena t) root p = Some n →
            get_path (arena t1) root p = Some n) as Hmono.
  { intros p n. apply get_path_mono. intros i nd k c Hi Hk.
    by eapply descend_all_children_mono. }
  assert (∀ p n, get_path (arena t1) root p = Some n →
            timestamps_of (arena t1) n = stored rp seen p) as Hcontent1.
  { intros p n Hp.
    assert (is_Some (arena t1 !! root)) as Hroot1.
    { destruct (Hkeep _ _ Hr) as (r1 & Hr1 & _). by rewrite Hr1. }
    destruct (get_path_in_arena _ _ p root n (proj1 Hg1) Hroot1 Hp) as [nd1 Hnd1].
    destruct (decide (n < length (arena t))%nat) as [Hold|Hnew].
    - pose proof (descend_all_path_reflect _ _ _ _ _ _ _ _ _ Hall (proj1 Hg1) Hp
                    Hrl Hold) as Hp0.
      rewrite <- (Hcontent _ _ Hp0).
      destruct (lookup_lt_is_Some_2 _ _ Hold) as [nd0 Hnd0].
      destruct (Hkeep _ _ Hnd0) as (nd' & Hnd' & _ & Hts).
      unfold timestamps_of. by rewrite Hnd0, Hnd'.
    - unfold timestamps_of. rewrite Hnd1.
      assert (length (arena t) ≤ n)%nat as Hge by lia.
      rewrite (descend_all_fresh _ _ _ _ _ _ _ Hall Hge Hnd1).
      destruct (stored rp seen p) as [|x l] eqn:Hst; [done|]. exfalso.
      destruct (Hpaths p) as [m Hm]; [by rewrite Hst|].
      destruct (get_path_in_arena _ _ p root m (proj1 Hg) ltac:(by eexists) Hm)
        as [? Hmn].
      apply lookup_lt_Some in Hmn. apply Hmono in Hm. rewrite Hp in Hm.
      injection Hm as <-. lia. }
  split; [by eapply same_shape_owned|]. split; [done|]. split.
  - intros p n Hp. simpl in Hp.
    apply (get_path_same_shape _ _ _ _ _ (same_shape_sym _ _ Hsh)) in Hp.
    simpl. unfold h'. rewrite timestamps_of_insert by done.
    rewrite Hrp1. fold rp. rewrite stored_snoc. fold items.
    destruct (decide (n = last)) as [->|Hne].
    + assert (p = items) as -> by by eapply get_path_inj, Hpath1; [apply Hg1|..].
      rewrite decide_True by done. f_equal.
      rewrite <- (Hcontent1 _ _ Hpath1). unfold timestamps_of. by rewrite Hln.
    + rewrite decide_False; [by rewrite app_nil_r; apply Hcontent1|].
      intros <-. congruence.
  - intros p Hp. simpl in *. rewrite Hrp1 in Hp. fold rp in Hp.
    rewrite stored_snoc in Hp. fold items in Hp.
    destruct (stored rp seen p) as [|x l] eqn:Hst.
    + destruct (decide (items = p)) as [<-|?]; [|done].
      exists last. by eapply get_path_same_shape.
    + destruct (Hpaths p) as [m Hm]; [by rewrite Hst|].
      exists m. eapply get_path_same_shape; [done|]. by apply Hmono.
Qed.

Lemma build_tree_holds rp tdb : ∀ t seen,
  growing t → owned (arena t) → _rp_list t = rp → NoDup rp → holds t seen →
  ∃ t', build_tree rp t tdb = Ok t'
        ∧ growing t' ∧ owned (arena t') ∧ _rp_list t' = rp
        ∧ holds t' (seen ++ tdb).
Proof.
  induction tdb as [|[ts raw] tdb IH]; intros t seen Hg Hown Hrp Hnd Hholds; simpl.
  - exists t. by rewrite app_nil_r.
  - destruct (insert_node_spec t (sorted_items rp raw) ts Hg)
      as (t1 & Hins & _); [rewrite Hrp; by apply chain_sorted_items|].
    rewrite Hins. simpl. rewrite <- Hrp in Hins, Hnd.
    destruct (insert_node_holds _ _ _ _ _ Hg Hown Hnd Hholds Hins)
      as (Hg1 & Hown1 & Hrp1 & Hholds1).
    destruct (IH t1 (seen ++ [(ts, raw)]) Hg1 Hown1) as (t' & Hbuild & Hrest);
      [congruence|congruence|done|].
    exists t'. split; [done|]. by rewrite <- app_assoc in Hrest.
Qed.

Lemma new_tree_holds rp : owned (arena (new_tree rp)) ∧ holds (new_tree rp) [].
Proof.
  split.
  - intros [|p] pn it c Hp Hc; [|done]. simpl in Hp. by injection Hp as <-.
  - split; [|done]. intros [|it p] n Hp; simpl in Hp; [|done].
    by injection Hp as <-.
Qed.

(** ** The miner over the store *)

Lemma extends_refl σ : extends σ σ.
Proof. by intros ref o. Qed.

Lemma extends_trans σ1 σ2 σ3 : extends σ1 σ2 → extends σ2 σ3 → extends σ1 σ3.
Proof. intros H12 H23 ref o Href. by apply H23, H12. Qed.

Lemma extends_length σ σ' : extends σ σ' → (length σ ≤ length σ')%nat.
Proof.
  intros Hext. destruct (decide (length σ = 0)%nat) as [->|Hne]; [lia|].
  destruct (lookup_lt_is_Some_2 σ (length σ - 1)) as [o Ho]; [lia|].
  apply Hext, lookup_lt_Some in Ho. lia.
Qed.

(** What a step of a sequence keeps, the sequence keeps. *)
Lemma op_bind_keeps {A B : Type} (Q : list pyobj → Prop) (m : op A) (f : A → op B)
    σ r σ' :
  op_bind m f σ = (r, σ') →
  (∀ r1 σ1, m σ = (r1, σ1) → Q σ1) →
  (∀ a σ1, m σ = (Ok a, σ1) → Q σ1 → f a σ1 = (r, σ') → Q σ') →
  Q σ'.
Proof.
  unfold op_bind. intros Hbind Hm Hf.
  destruct (m σ) as [[a| | |] σ1] eqn:Hmσ.
  - eapply Hf; [done| |done]. by eapply Hm.
  - injection Hbind as <- <-. by eapply Hm.
  - injection Hbind as <- <-. by eapply Hm.
  - injection Hbind as <- <-. by eapply Hm.
Qed.

Lemma op_lift_store {A : Type} (m : res A) σ r σ' : op_lift m σ = (r, σ') → σ' = σ.
Proof. unfold op_lift. by intros [= _ <-]. Qed.

Lemma list_elements_store ref σ r σ' : list_elements ref σ = (r, σ') → σ' = σ.
Proof.
  unfold list_elements. destruct (σ !! ref) as [[?|?]|]; by intros [= _ <-].
Qed.

Lemma dict_items_store ref σ r σ' : dict_items ref σ = (r, σ') → σ' = σ.
Proof.
  unfold dict_items. destruct (σ !! ref) as [[?|?]|]; by intros [= _ <-].
Qed.

(** An append to a list that was created after [σ0] leaves the objects of
    [σ0] alone. *)
Lemma list_append_above σ0 ref x σ r σ' :
  list_append ref x σ = (r, σ') →
  (length σ0 ≤ ref)%nat → extends σ0 σ → extends σ0 σ'.
Proof.
  unfold list_append. intros Happ Hle Hext.
  destruct (σ !! ref) as [[?|elements]|]; injection Happ as <- <-; [done| |done].
  intros ref' o Href'. pose proof (lookup_lt_Some _ _ _ Href').
  rewrite list_lookup_insert_ne by lia. by apply Hext.
Qed.

Lemma sort_items_obj_above σ0 items sorted_items final_rp_list : ∀ σ r σ',
  sort_items_obj final_rp_list items sorted_items σ = (r, σ') →
  (length σ0 ≤ sorted_items)%nat → extends σ0 σ → extends σ0 σ'.
Proof.
  induction final_rp_list as [|it rest IH]; intros σ r σ' Hsort Hle Hext;
    simpl in Hsort.
  - by injection Hsort as <- <-.
  - eapply (op_bind_keeps (extends σ0)); [exact Hsort| |].
    + intros r1 σ1 Hread. by rewrite (list_elements_store _ _ _ _ Hread).
    + intros elements σ1 _ Hext1 Hrest.
      eapply (op_bind_keeps (extends σ0)); [exact Hrest| |].
      * intros r2 σ2 Hstep. destruct (bool_decide (it ∈ elements)).
        -- by eapply list_append_above.
        -- by injection Hstep as <- <-.
      * intros [] σ2 _ Hext2 Hrec. by eapply IH.
Qed.

Lemma new_list_above σ0 σ r σ' :
  new_list σ = (r, σ') → extends σ0 σ →
  extends σ0 σ' ∧ r = Ok (length σ) ∧ σ' = σ ++ [PyList []].
Proof.
  intros [= <- <-] Hext. split; [|done].
  intros ref o Href. apply lookup_app_l_Some. by apply Hext.
Qed.

Lemma build_tree_obj_above σ0 final_rp_list entries : ∀ tree σ r σ',
  build_tree_obj final_rp_list tree entries σ = (r, σ') →
  extends σ0 σ → extends σ0 σ'.
Proof.
  induction entries as [|[timestamp items] entries IH]; intros tree σ r σ' Hbuild Hext;
    simpl in Hbuild.
  - by injection Hbuild as <- <-.
  - pose proof (extends_length _ _ Hext) as Hlen.
    eapply (op_bind_keeps (extends σ0)); [exact Hbuild| |].
    + intros r1 σ1 Hnew. by destruct (new_list_above _ _ _ _ Hnew Hext).
    + intros sorted_items σ1 Hnew Hext1 Hrest.
      destruct (new_list_above _ _ _ _ Hnew Hext) as (_ & [= ->] & _).
      eapply (op_bind_keeps (extends σ0)); [exact Hrest| |].
      * intros r2 σ2 Hsort. by eapply sort_items_obj_above.
      * intros [] σ2 _ Hext2 Hrest2.
        eapply (op_bind_keeps (extends σ0)); [exact Hrest2| |].
        -- intros r3 σ3 Hread. by rewrite (list_elements_store _ _ _ _ Hread).
        -- intros elements σ3 _ Hext3 Hrest3.
           eapply (op_bind_keeps (extends σ0)); [exact Hrest3| |].
           ++ intros r4 σ4 Hlift. by rewrite (op_lift_store _ _ _ _ Hlift).
           ++ intros tree1 σ4 _ Hext4 Hrec. cbv beta in Hrec. by eapply IH.
Qed.

Lemma rp_scan_obj_store per min_ps entries : ∀ rp_list σ r σ',
  rp_scan_obj per min_ps rp_list entries σ = (r, σ') → σ' = σ.
Proof.
  induction entries as [|[timestamp items] entries IH]; intros rp_list σ r σ' Hscan;
    simpl in Hscan.
  - by injection Hscan as _ <-.
  - eapply (op_bind_keeps (fun σ1 => σ1 = σ)); [exact Hscan| |].
    + intros r1 σ1 Hread. by eapply list_elements_store.
    + intros elements σ1 _ -> Hrest.
      eapply (op_bind_keeps (fun σ1 => σ1 = σ)); [exact Hrest| |].
      * intros r2 σ2 Hlift. by eapply op_lift_store.
      * intros rp1 σ2 _ -> Hrec. cbv beta in Hrec. by eapply IH.
Qed.

(** The objects that a store holds when [find_recurring_patterns] is
    called are in the store that the call leaves. *)
Lemma find_recurring_patterns_obj_above self σ :
  extends σ (find_recurring_patterns_obj self σ).2.
Proof.
  destruct (find_recurring_patterns_obj self σ) as [r σ'] eqn:Hfind. simpl.
  unfold find_recurring_patterns_obj in Hfind.
  eapply (op_bind_keeps (extends σ)); [exact Hfind| |].
  - intros r1 σ1 Hd. rewrite (dict_items_store _ _ _ _ Hd). apply extends_refl.
  - intros entries σ1 _ Hext1 Hrest.
    eapply (op_bind_keeps (extends σ)); [exact Hrest| |].
    + intros r2 σ2 Hscan. by rewrite (rp_scan_obj_store _ _ _ _ _ _ _ Hscan).
    + intros rp_list σ2 _ Hext2 Hrest2.
      eapply (op_bind_keeps (extends σ)); [exact Hrest2| |].
      * intros r3 σ3 Hlift. by rewrite (op_lift_store _ _ _ _ Hlift).
      * intros final σ3 _ Hext3 Hrest3.
        eapply (op_bind_keeps (extends σ)); [exact Hrest3| |].
        -- intros r4 σ4 Hd. by rewrite (dict_items_store _ _ _ _ Hd).
        -- intros entries2 σ4 _ Hext4 Hrest4.
           eapply (op_bind_keeps (extends σ)); [exact Hrest4| |].
           ++ intros r5 σ5 Hbuild. by eapply build_tree_obj_above.
           ++ intros tree σ5 _ Hext5 Hlift.
              by rewrite (op_lift_store _ _ _ _ Hlift).
Qed.

(** *** The store model against the model on values *)

Lemma read_entries_extends σ0 σ entries : ∀ tdb,
  extends σ0 σ → read_entries σ0 entries = Some tdb →
  read_entries σ entries = Some tdb.
Proof.
  induction entries as [|[timestamp items] entries IH]; intros tdb Hext Hread;
    simpl in *; [done|].
  destruct (σ0 !! items) as [[?|elements]|] eqn:Hitems; [done| |done].
  destruct (read_entries σ0 entries) as [tdb'|]; [|done].
  rewrite (Hext _ _ Hitems). by rewrite (IH tdb').
Qed.

Lemma read_tdb_extends σ0 σ ref tdb :
  extends σ0 σ → read_tdb σ0 ref = Some tdb → read_tdb σ ref = Some tdb.
Proof.
  unfold read_tdb. intros Hext Hread.
  destruct (σ0 !! ref) as [[entries|?]|] eqn:Href; [|done..].
  rewrite (Hext _ _ Href). by eapply read_entries_extends.
Qed.

Lemma rp_scan_obj_value per min_ps σ entries : ∀ tdb rp_list,
  read_entries σ entries = Some tdb →
  rp_scan_obj per min_ps rp_list entries σ = (rp_scan per min_ps rp_list tdb, σ).
Proof.
  induction entries as [|[timestamp items] entries IH]; intros tdb rp_list Hread;
    simpl in *.
  - by injection Hread as <-.
  - destruct (σ !! items) as [[?|elements]|] eqn:Hitems; [done| |done].
    destruct (read_entries σ entries) as [tdb'|]; [|done].
    injection Hread as <-. simpl.
    unfold op_bind, list_elements, op_lift. rewrite Hitems.
    destruct (rp_scan_items per min_ps timestamp rp_list elements); simpl; [|done..].
    by apply IH.
Qed.

Lemma sort_items_obj_value items target elements final_rp_list : ∀ σ acc,
  σ !! items = Some (PyList elements) →
  σ !! target = Some (PyList acc) → target ≠ items →
  sort_items_obj final_rp_list items target σ
  = (Ok (), <[target := PyList (acc ++ sorted_items final_rp_list elements)]> σ).
Proof.
  induction final_rp_list as [|it rest IH]; intros σ acc Hitems Hsorted Hne; simpl.
  - unfold op_ret. rewrite app_nil_r. by rewrite list_insert_id.
  - unfold op_bind at 1. unfold list_elements at 1. rewrite Hitems.
    unfold sorted_items. rewrite filter_cons.
    pose proof (lookup_lt_Some _ _ _ Hsorted) as Hlt.
    destruct (decide (it ∈ elements)) as [Hin|Hout].
    + rewrite bool_decide_eq_true_2 by done.
      unfold op_bind at 1. unfold list_append. rewrite Hsorted.
      rewrite (IH _ (acc ++ [it])).
      * by rewrite list_insert_insert_eq, <- app_assoc.
      * by rewrite list_lookup_insert_ne.
      * by rewrite list_lookup_insert_eq.
      * done.
    + rewrite bool_decide_eq_false_2 by done.
      unfold op_bind at 1. unfold op_ret at 1. by apply IH.
Qed.

Lemma build_tree_obj_value σ0 final_rp_list entries : ∀ tdb tree σ,
  extends σ0 σ → read_entries σ0 entries = Some tdb →
  (build_tree_obj final_rp_list tree entries σ).1
  = build_tree final_rp_list tree tdb.
Proof.
  induction entries as [|[timestamp items] entries IH]; intros tdb tree σ Hext Hread;
    simpl in *.
  - by injection Hread as <-.
  - destruct (σ0 !! items) as [[?|elements]|] eqn:Hitems; [done| |done].
    destruct (read_entries σ0 entries) as [tdb'|] eqn:Hread'; [|done].
    injection Hread as <-. simpl.
    pose proof (extends_length _ _ Hext) as Hlen.
    pose proof (lookup_lt_Some _ _ _ Hitems) as Hil.
    set (σ1 := σ ++ [PyList []]).
    assert (σ1 !! items = Some (PyList elements)) as Hitems1
      by (apply lookup_app_l_Some; by apply Hext).
    assert (σ1 !! length σ = Some (PyList [])) as Hsorted1
      by (by apply list_lookup_middle).
    unfold op_bind at 1. unfold new_list. fold σ1.
    unfold op_bind at 1.
    rewrite (sort_items_obj_value items (length σ) elements final_rp_list σ1 [])
      by (done || lia).
    simpl app.
    set (σ2 := <[length σ := PyList (sorted_items final_rp_list elements)]> σ1).
    assert (σ2 !! length σ = Some (PyList (sorted_items final_rp_list elements)))
      as Hsorted2 by (apply list_lookup_insert_eq; by eapply lookup_lt_Some).
    unfold op_bind at 1. unfold list_elements. rewrite Hsorted2.
    unfold op_bind at 1. unfold op_lift.
    destruct (insert_node tree (sorted_items final_rp_list elements) timestamp)
      as [tree1| | |]; simpl; [|done..].
    apply IH; [|done].
    intros ref o Href. pose proof (lookup_lt_Some _ _ _ Href).
    unfold σ2. rewrite list_lookup_insert_ne by lia.
    apply lookup_app_l_Some. by apply Hext.
Qed.

Lemma find_recurring_patterns_obj_value self σ tdb :
  read_tdb σ (obj_tdb self) = Some tdb →
  (find_recurring_patterns_obj self σ).1
  = (find_recurring_patterns
       (PatternFinder_init tdb (obj_per self) (obj_min_ps self) (obj_min_rec self))).1.
Proof.
  intros Hread. rewrite find_recurring_patterns_value. simpl.
  unfold read_tdb in Hread.
  destruct (σ !! obj_tdb self) as [[entries|?]|] eqn:Href; [|done..].
  unfold find_recurring_patterns_obj, build_rp_list.
  unfold op_bind at 1. unfold dict_items at 1. rewrite Href.
  unfold op_bind at 1. rewrite (rp_scan_obj_value _ _ _ _ tdb) by done.
  destruct (rp_scan (obj_per self) (obj_min_ps self) [] tdb) as [rp_list| | |];
    simpl; [|done..].
  unfold op_bind at 1. unfold op_lift at 1.
  destruct (rp_flush (obj_min_ps self) (obj_min_rec self) rp_list) as [final| | |];
    simpl; [|done..].
  unfold op_bind at 1. unfold dict_items. rewrite Href.
  unfold op_bind.
  pose proof (build_tree_obj_value σ (rp_sorted final) entries tdb
                (new_tree (rp_sorted final)) σ (extends_refl σ) Hread) as Hbuild.
  destruct (build_tree_obj (rp_sorted final) (new_tree (rp_sorted final)) entries σ)
    as [r σ'].
  simpl in Hbuild. rewrite <- Hbuild. by destruct r.
Qed.

(** ** The routes of a tree that is being built *)

Lemma filter_ext_elem {A : Type} (P Q : A → Prop) `{∀ x, Decision (P x)}
    `{∀ x, Decision (Q x)} (l : list A) :
  (∀ x, x ∈ l → (P x ↔ Q x)) → filter P l = filter Q l.
Proof.
  induction l as [|x l IH]; intros Hext; [done|].
  rewrite !filter_cons.
  assert (P x ↔ Q x) as Hx by apply Hext, list_elem_of_here.
  rewrite IH by (intros y Hy; by apply Hext, list_elem_of_further).
  destruct (decide (P x)), (decide (Q x)); tauto || done.
Qed.

Lemma item_nodes_elem h it i :
  i ∈ item_nodes h it ↔ ∃ nd, h !! i = Some nd ∧ _item nd = Some it.
Proof.
  unfold item_nodes. rewrite list_elem_of_filter, elem_of_seq. split.
  - intros [Hlabel _]. destruct (h !! i) as [nd|]; [|done]. by exists nd.
  - intros (nd & Hi & Hit). rewrite Hi. split; [done|].
    apply lookup_lt_Some in Hi. lia.
Qed.

Lemma item_nodes_NoDup h it : NoDup (item_nodes h it).
Proof. apply NoDup_filter, NoDup_seq. Qed.

Lemma item_nodes_length h it : (length (item_nodes h it) ≤ length h)%nat.
Proof.
  unfold item_nodes. etrans; [apply length_filter|]. by rewrite length_seq.
Qed.

(** The nodes of an item after a node was added at the end of the
    arena. *)
Lemma item_nodes_alloc h h' it k :
  length h' = S (length h) →
  (∀ i nd, h !! i = Some nd → ∃ nd', h' !! i = Some nd' ∧ _item nd' = _item nd) →
  (∃ nn, h' !! length h = Some nn ∧ _item nn = Some it) →
  item_nodes h' k = item_nodes h k ++ (if decide (k = it) then [length h] else []).
Proof.
  intros Hlen Hold (nn & Hnn & Hnit). unfold item_nodes.
  rewrite Hlen, seq_S, filter_app. simpl. f_equal.
  - apply filter_ext_elem. intros i Hi. apply elem_of_seq in Hi.
    destruct (lookup_lt_is_Some_2 h i) as [nd Hnd]; [lia|].
    destruct (Hold _ _ Hnd) as (nd' & Hnd' & Hit'). rewrite Hnd, Hnd'. simpl.
    by rewrite Hit'.
  - rewrite filter_cons, filter_nil. rewrite Hnn. simpl. rewrite Hnit.
    destruct (decide (k = it)) as [->|Hne].
    + by rewrite decide_True.
    + rewrite decide_False; [done|]. congruence.
Qed.

Lemma item_nodes_same_items h h' k :
  length h' = length h →
  (∀ i nd, h !! i = Some nd → ∃ nd', h' !! i = Some nd' ∧ _item nd' = _item nd) →
  item_nodes h' k = item_nodes h k.
Proof.
  intros Hlen Hold. unfold item_nodes. rewrite Hlen.
  apply filter_ext_elem. intros i Hi. apply elem_of_seq in Hi.
  destruct (lookup_lt_is_Some_2 h i) as [nd Hnd]; [lia|].
  destruct (Hold _ _ Hnd) as (nd' & Hnd' & Hit'). rewrite Hnd, Hnd'. simpl.
  by rewrite Hit'.
Qed.

(** A route stays a route when its nodes keep their neighbors. *)
Lemma is_route_ext h h' ns : ∀ n,
  is_route h n ns →
  (∀ i nd, i ∈ ns → h !! i = Some nd →
     ∃ nd', h' !! i = Some nd' ∧ _neighbor nd' = _neighbor nd) →
  is_route h' n ns.
Proof.
  induction ns as [|m rest IH]; intros n Hroute Hkeep; [done|].
  destruct Hroute as (-> & nd & Hn & Hrest).
  destruct (Hkeep n nd) as (nd' & Hn' & Hnb); [apply list_elem_of_here|done|].
  split; [done|]. exists nd'. split; [done|]. rewrite Hnb.
  destruct rest as [|nb rest']; [done|].
  destruct Hrest as [Hnext Hroute]. split; [done|].
  apply IH; [done|]. intros i ndi Hi. apply Hkeep. by apply list_elem_of_further.
Qed.

(** Chaining a new node behind the tail of a route. *)
Lemma is_route_snoc h h' ns tail point : ∀ n,
  is_route h n ns → last ns = Some tail → NoDup ns →
  (∀ i nd, i ∈ ns → i ≠ tail → h !! i = Some nd →
     ∃ nd', h' !! i = Some nd' ∧ _neighbor nd' = _neighbor nd) →
  (∃ tl, h' !! tail = Some tl ∧ _neighbor tl = Some point) →
  (∃ pn, h' !! point = Some pn ∧ _neighbor pn = None) →
  is_route h' n (ns ++ [point]).
Proof.
  induction ns as [|m rest IH]; intros n Hroute Hlast Hnd Hkeep Htail Hpoint; [done|].
  destruct Hroute as (-> & nd & Hn & Hrest).
  apply NoDup_cons in Hnd as [Hnotin Hnd].
  destruct rest as [|nb rest'].
  - simpl in Hlast. injection Hlast as <-. simpl.
    destruct Htail as (tl & Htl & Hnb). split; [done|]. exists tl.
    split; [done|]. split; [done|]. split; [done|].
    destruct Hpoint as (pn & Hpn & Hpnb). by exists pn.
  - rewrite last_cons_cons in Hlast. destruct Hrest as [Hnext Hroute].
    assert (n ≠ tail) as Hne.
    { intros ->. apply Hnotin. by apply last_Some_elem_of. }
    destruct (Hkeep n nd) as (nd' & Hn' & Hnb); [apply list_elem_of_here|done..|].
    change ((n :: nb :: rest') ++ [point]) with (n :: (nb :: rest') ++ [point]).
    split; [done|]. exists nd'. split; [done|]. rewrite Hnb.
    change ((nb :: rest') ++ [point]) with (nb :: (rest' ++ [point])).
    split; [done|].
    change (nb :: (rest' ++ [point])) with ((nb :: rest') ++ [point]).
    apply IH; [done..| |done|done].
    intros i ndi Hi. apply Hkeep. by apply list_elem_of_further.
Qed.

Lemma is_route_walk h ns : ∀ fuel n,
  is_route h n ns → (length ns ≤ fuel)%nat → route_walk fuel h (Some n) = Ok ns.
Proof.
  induction ns as [|m rest IH]; intros fuel n Hroute Hfuel; [done|].
  destruct Hroute as (-> & nd & Hn & Hrest).
  destruct fuel as [|fuel]; [simpl in Hfuel; lia|]. simpl. rewrite Hn. simpl.
  destruct rest as [|nb rest'].
  - rewrite Hrest. by destruct fuel.
  - destruct Hrest as [-> Hroute].
    rewrite (IH fuel nb Hroute) by (simpl in *; lia). done.
Qed.

(** The routes of a routed tree yield the nodes of their item. *)
Lemma routed_nodes t it :
  routed t →
  match dict_get (_routes t) it with
  | Some _ => nodes t it = Ok (item_nodes (arena t) it)
              ∧ item_nodes (arena t) it ≠ []
  | None => nodes t it = Raise KeyError ∧ item_nodes (arena t) it = []
  end.
Proof.
  intros Hrouted. specialize (Hrouted it). unfold nodes.
  destruct (dict_get (_routes t) it) as [[head tail]|]; [|done].
  destruct Hrouted as [Hroute Hlast]. split.
  - apply is_route_walk; [done|apply item_nodes_length].
  - intros Hnil. by rewrite Hnil in Hlast.
Qed.

Lemma route_with_get routes it point k :
  dict_get (route_with routes it point) k
  = if decide (k = it)
    then Some (match dict_get routes it with
               | Some (head, _) => (head, point)
               | None => (point, point)
               end)
    else dict_get routes k.
Proof.
  unfold route_with. destruct (decide (k = it)) as [->|Hne].
  - apply dict_get_set_eq.
  - by apply dict_get_set_ne.
Qed.

(** A step down keeps the routes complete. *)
Lemma descend_routed t current it t' next :
  routed t → descend t current it = Ok (t', next) → routed t'.
Proof.
  intros Hrouted Hd.
  destruct (descend_effect _ _ _ _ _ Hd)
    as [[-> _]|(_ & -> & _ & Hroutes & Hlen & Hold & Hnew)]; [done|].
  destruct Hnew as (nn & Hnn & Hnit & _ & _ & _ & Hnnb).
  assert (∀ k, item_nodes (arena t') k
               = item_nodes (arena t) k
                 ++ (if decide (k = it) then [length (arena t)] else [])) as Hnodes.
  { intros k. apply item_nodes_alloc; [done| |by exists nn].
    intros i nd Hi. destruct (Hold _ _ Hi) as (nd' & Hi' & Hit' & _). by exists nd'. }
  assert (∀ tail, route_tail (_routes t) it = Some tail →
            tail ∈ item_nodes (arena t) it) as Htail.
  { intros tail Ht. unfold route_tail in Ht. specialize (Hrouted it).
    destruct (dict_get (_routes t) it) as [[head tail']|]; [|done].
    injection Ht as ->. destruct Hrouted as [_ Hlast]. by apply last_Some_elem_of. }
  assert (route_tail (_routes t) it ≠ Some (length (arena t))) as Hfresh.
  { intros Ht. apply Htail, item_nodes_elem in Ht as (nd & Hi & _).
    apply lookup_lt_Some in Hi. lia. }
  specialize (Hnnb Hfresh).
  intros k. rewrite Hroutes, route_with_get, Hnodes.
  destruct (decide (k = it)) as [->|Hne].
  - pose proof (Hrouted it) as Hit. unfold route_tail in Htail.
    destruct (dict_get (_routes t) it) as [[head tail]|] eqn:Hr.
    + destruct Hit as [Hroute Hlast]. split; [|apply last_snoc].
      eapply is_route_snoc; [done|done|apply item_nodes_NoDup| | |by exists nn].
      * intros i nd Hi Hine Hnd.
        destruct (Hold _ _ Hnd) as (nd' & Hnd' & _ & _ & _ & _ & Hnb).
        exists nd'. split; [done|]. rewrite Hnb. unfold route_tail. rewrite Hr.
        rewrite decide_False; [done|]. congruence.
      * assert (tail ∈ item_nodes (arena t) it) as Hin by by apply Htail.
        apply item_nodes_elem in Hin as (tl & Htl & _).
        destruct (Hold _ _ Htl) as (tl' & Htl' & _ & _ & _ & _ & Hnb).
        exists tl'. split; [done|]. rewrite Hnb. unfold route_tail. rewrite Hr.
        by rewrite decide_True.
    + rewrite Hit. simpl. split; [|done]. split; [done|]. by exists nn.
  - rewrite app_nil_r. pose proof (Hrouted k) as Hk.
    destruct (dict_get (_routes t) k) as [[head tail]|]; [|done].
    destruct Hk as [Hroute Hlast]. split; [|done].
    eapply is_route_ext; [done|]. intros i nd Hi Hnd.
    destruct (Hold _ _ Hnd) as (nd' & Hnd' & _ & _ & _ & _ & Hnb).
    exists nd'. split; [done|]. rewrite Hnb. rewrite decide_False; [done|].
    intros Ht. apply Htail, item_nodes_elem in Ht as (nd2 & Hnd2 & Hit2).
    apply item_nodes_elem in Hi as (nd3 & Hnd3 & Hit3). congruence.
Qed.

Lemma descend_all_routed items : ∀ t current t' last,
  routed t → descend_all t current items = Ok (t', last) → routed t'.
Proof.
  induction items as [|it items IH]; intros t current t' last Hrouted Hall;
    simpl in Hall.
  - by injection Hall as <- <-.
  - apply bind_Ok in Hall as ([t1 next] & Hd & Hall).
    eapply IH; [|done]. by eapply descend_routed.
Qed.

Lemma same_shape_routed h h' rp routes :
  same_shape h h' → routed (mk_RPTree h rp routes) → routed (mk_RPTree h' rp routes).
Proof.
  intros Hsh Hrouted k. specialize (Hrouted k). simpl in *.
  assert (∀ i nd, h !! i = Some nd →
            ∃ nd', h' !! i = Some nd' ∧ _item nd' = _item nd
                   ∧ _neighbor nd' = _neighbor nd) as Hold.
  { intros i nd Hi.
    destruct (same_shape_lookup h' h i nd (same_shape_sym _ _ Hsh) Hi)
      as (nd' & Hi' & Hshape).
    apply shape_inv in Hshape as (? & _ & _ & ?). by exists nd'. }
  assert (item_nodes h' k = item_nodes h k) as ->.
  { apply item_nodes_same_items; [by apply same_shape_length|].
    intros i nd Hi. destruct (Hold _ _ Hi) as (nd' & ? & ? & _). by exists nd'. }
  destruct (dict_get routes k) as [[head tail]|]; [|done].
  destruct Hrouted as [Hroute Hlast]. split; [|done].
  eapply is_route_ext; [done|]. intros i nd _ Hi.
  destruct (Hold _ _ Hi) as (nd' & ? & _ & ?). by exists nd'.
Qed.

Lemma insert_node_routed t items ts t' :
  routed t → insert_node t items ts = Ok t' → routed t'.
Proof.
  intros Hrouted Hins. unfold insert_node in Hins.
  apply bind_Ok in Hins as ([t1 n] & Hall & Hins).
  apply bind_Ok in Hins as (h & Hadd & [= <-]).
  pose proof (descend_all_routed _ _ _ _ _ Hrouted Hall) as Hrouted1.
  eapply same_shape_routed; [by eapply add_timestamp_shape|]. by destruct t1.
Qed.

Lemma build_tree_routed rp tdb : ∀ t t',
  routed t → build_tree rp t tdb = Ok t' → routed t'.
Proof.
  induction tdb as [|[ts raw] tdb IH]; intros t t' Hrouted Hbuild; simpl in Hbuild.
  - by injection Hbuild as <-.
  - apply bind_Ok in Hbuild as (t1 & Hins & Hbuild).
    eapply IH; [|done]. by eapply insert_node_routed.
Qed.

Lemma new_tree_routed rp : routed (new_tree rp).
Proof. intros it. reflexivity. Qed.

(** *** The nodes of a tree that is being built *)

(** Every node of the arena is reached from the root, by a list of items
    that ends with its own. *)
Lemma growing_reachable t : growing t →
  ∀ i nd, arena t !! i = Some nd →
    ∃ p, get_path (arena t) root p = Some i ∧ (i ≠ root → last p = _item nd).
Proof.
  intros (Hwf & _ & Hpr) i. induction i as [i IH] using lt_wf_ind. intros nd Hi.
  destruct (decide (i = root)) as [->|Hne]; [by exists []|].
  destruct (Hpr _ _ Hi Hne) as [p Hpar].
  destruct (wf_parent _ _ Hwf _ _ _ Hi Hpar) as (pn & it & Hpn & Hit & Hreg).
  destruct (wf_child _ _ Hwf _ _ _ _ Hpn (dict_get_Some_elem _ _ _ Hreg)) as (Hlt & _).
  destruct (IH p Hlt pn Hpn) as (q & Hq & _).
  exists (q ++ [it]). split.
  - rewrite get_path_snoc, Hq, Hpn. done.
  - intros _. rewrite Hit. apply last_snoc.
Qed.

Lemma get_path_last_item rp h q it n :
  wf_arena rp h → get_path h root (q ++ [it]) = Some n →
  ∃ nd, h !! n = Some nd ∧ _item nd = Some it.
Proof.
  intros Hwf Hpath. rewrite get_path_snoc in Hpath.
  destruct (get_path h root q) as [m|]; [|done].
  destruct (h !! m) as [pn|] eqn:Hm; [|done].
  by destruct (wf_child _ _ Hwf _ _ _ _ Hm (dict_get_Some_elem _ _ _ Hpath))
    as (_ & ? & _).
Qed.

Lemma get_path_prefix h p : ∀ q n m,
  get_path h n (p ++ q) = Some m → is_Some (get_path h n p).
Proof.
  induction p as [|it p IH]; intros q n m Hpath; simpl in *; [by eexists|].
  destruct (h !! n) as [nd|]; [|done].
  destruct (get_child nd it) as [c|]; [|done]. by eapply IH.
Qed.

(** The nodes of an item are the nodes that a list of items ending with
    it leads to. *)
Lemma item_nodes_reached t it n :
  growing t →
  n ∈ item_nodes (arena t) it ↔ ∃ q, get_path (arena t) root (q ++ [it]) = Some n.
Proof.
  intros Hg. rewrite item_nodes_elem. split.
  - intros (nd & Hn & Hit).
    destruct (growing_reachable t Hg n nd Hn) as (p & Hp & Hlast).
    assert (n ≠ root) as Hne.
    { intros ->. destruct (wf_root _ _ (proj1 Hg)) as (r & Hr & Hrit). congruence. }
    specialize (Hlast Hne). rewrite Hit in Hlast.
    apply last_Some in Hlast as [q ->]. by exists q.
  - intros [q Hq]. by eapply get_path_last_item, Hq; apply Hg.
Qed.

Lemma filter_all {A : Type} (P : A → Prop) `{∀ x, Decision (P x)} (l : list A) :
  Forall P l → filter P l = l.
Proof.
  induction 1 as [|x l Hx Hl IH]; [done|].
  rewrite filter_cons, decide_True by done. by rewrite IH.
Qed.

(** * The claims *)

Open Scope string_scope.

(** ** C1: the RP-list estimate as an upper bound *)

(** C1.  The estimate [max_recurrence] is meant to bound the exact
    recurrence count of every item the RP-list keeps, for all positive
    [per], [min_ps] and [min_rec].  With [per = 2], [min_ps = 1] and
    [min_rec = 1] on the database [{1: [a], 10: [a]}] the item [a] is kept
    with the estimate 1, while the exact test counts 2 intervals on its
    timestamps [1, 10]: the flush after the scan skips the last run
    because its length is 1, where the scan itself counted the first run of
    length 1.  With [min_rec = 2] the item is pruned and the miner returns
    no pattern, although the exact test accepts [a]. *)
Theorem C1_estimate_below_exact_count :
  ascending tdb_two_singletons.*1
  ∧ (∃ e, (rp ← rp_scan 2 1 [] tdb_two_singletons; rp_flush 1 1 rp) = Ok [("a", e)]
          ∧ max_recurrence e = 1)
  ∧ recurrence_count 2 1 (sorted (item_timestamps tdb_two_singletons "a")) = 2
  ∧ _get_recurrence 2 1 2 (sorted (item_timestamps tdb_two_singletons "a")) = true
  ∧ (find_recurring_patterns (PatternFinder_init tdb_two_singletons 2 1 2)).1 = Ok [].
Proof.
  split; [simpl; lia|]. split; [|by vm_compute].
  eexists. split; [by vm_compute|done].
Qed.

(** ** C2: the recurrence test and the maximal runs *)

(** C2, as stated for every sequence, fails on the empty one: with
    [min_ps = 1] and [min_rec = 1] there is no run, but the loop never
    runs, [current_ps] keeps its initial value 1, and the statement after
    the loop records the interval [(None, None)]: the test returns
    true. *)
Theorem C2_empty_sequence_qualifies :
  recurrence_intervals 2 1 [] = [(None, None)]
  ∧ _get_recurrence 2 1 1 [] = true
  ∧ maximal_runs 2 [] = []
  ∧ qualifies_by_runs 2 1 1 [] = false.
Proof. by vm_compute. Qed.

(** C2, amended.  On every sequence that holds a timestamp, ascending or
    not, and on the empty sequence when [min_ps] is above 1,
    [_get_recurrence] returns true if and only if at least [min_rec] of
    the maximal runs have at least [min_ps] timestamps, for all integers
    [per], [min_ps] and [min_rec]; the maximal runs split the sequence
    into stretches whose consecutive timestamps are at most [per] apart,
    and two consecutive runs are more than [per] apart. *)
Theorem C2_test_counts_long_runs (per min_ps min_rec : Z) (l : list Z) :
  l ≠ [] ∨ (1 < min_ps)%Z →
  concat (maximal_runs per l) = l
  ∧ Forall (gaps_within per) (maximal_runs per l)
  ∧ gaps_between per (maximal_runs per l)
  ∧ (_get_recurrence per min_ps min_rec l = true
     ↔ (min_rec ≤ Z.of_nat (length (filter (long_enough min_ps)
                                    (maximal_runs per l))))%Z)
  ∧ _get_recurrence per min_ps min_rec l = qualifies_by_runs per min_ps min_rec l.
Proof.
  intros Hl. split; [apply maximal_runs_concat|].
  split; [apply maximal_runs_gaps|]. split; [apply maximal_runs_gaps|].
  pose proof (get_recurrence_runs per min_ps min_rec l Hl) as Hruns.
  split; [|done]. rewrite Hruns. unfold qualifies_by_runs, qualifying_runs.
  apply Z.leb_le.
Qed.

(** [C2_test_counts_long_runs] on [1, 2, 3, 7, 8, 9, 20] with [per = 1]
    and [min_ps = 3]: two of the three maximal runs are long enough, and
    the test accepts [min_rec = 2]. *)
Lemma C2_test_counts_long_runs_witness :
  maximal_runs 1 [1; 2; 3; 7; 8; 9; 20] = [[1; 2; 3]; [7; 8; 9]; [20]]
  ∧ (_get_recurrence 1 3 2 [1; 2; 3; 7; 8; 9; 20] = true
     ↔ (2 ≤ Z.of_nat (length (filter (long_enough 3)
                                (maximal_runs 1 [1; 2; 3; 7; 8; 9; 20]))))%Z).
Proof.
  split; [reflexivity|].
  destruct (C2_test_counts_long_runs 1 3 2 [1; 2; 3; 7; 8; 9; 20])
    as (_ & _ & _ & Hiff & _); [left; discriminate|].
  exact Hiff.
Defined.

(** ** C3: conservation of timestamps by [remove_nodes] *)

(** C3.  [remove_nodes] is meant to conserve the timestamps of a tree, up
    to those dropped under the root.  After inserting [a, b, c, d] at 1
    and [a, c] at 2 the tree holds 2 timestamps.  Removing [b], whose
    parent is [a] and not the root, hands the child [c] of [b] to
    [a.add], which already has a child [c] and only copies the (empty)
    timestamps of the orphan: the node [d] below it, with timestamp 1,
    is no longer below the root.  One timestamp remains, none was
    dropped under the root.  Counting along the routes instead, where the
    orphan stays, does not save the claim: after inserting [a, b, c] at 1
    and [a, c] at 2, removing [b] copies timestamp 1 to the other child
    [c] and leaves it in the orphan, and the routes hold 3 timestamps. *)
Theorem C3_remove_nodes_loses_timestamps :
  (t ← tree_abcd_ac;
   Ok (tree_timestamps t, discarded_at_root t "b")) = Ok (2%nat, 0%nat)
  ∧ (t ← tree_abcd_ac;
     t' ← remove_nodes t "b";
     Ok (tree_timestamps t')) = Ok 1%nat
  ∧ (t ← tree_abc_ac;
     Ok (route_timestamps t, discarded_at_root t "b")) = Ok (2%nat, 0%nat)
  ∧ (t ← tree_abc_ac;
     t' ← remove_nodes t "b";
     Ok (route_timestamps t')) = Ok 3%nat.
Proof. split_and!; vm_compute; reflexivity. Qed.

(** ** C4: the root sentinel *)

(** C4, as stated, fails: with [per = 1], [min_ps = 2] and [min_rec = 1]
    the RP-list of [tdb_b_filtered] is [a]; the transaction at timestamp 5
    keeps no item, [insert_node] is called with the empty list and appends
    5 to the timestamps of the root.  The root of the prefix tree of [a]
    holds timestamps too: [walk_path] adds those of an occurrence node
    that has no ancestor to the root of the prefix tree. *)
Lemma C4_root_holds_a_timestamp :
  (rp ← build_rp_list 1 2 1 tdb_b_filtered;
   t ← build_tree rp (new_tree rp) tdb_b_filtered;
   Ok (rp, sorted_items rp ["b"], root_timestamps t)) = Ok (["a"], [], [5])
  ∧ (t ← insert_node (new_tree ["a"]) [] 5; Ok (root_timestamps t)) = Ok [5]
  ∧ (rp ← build_rp_list 1 2 1 tdb_b_filtered;
     t ← build_tree rp (new_tree rp) tdb_b_filtered;
     '(_, pt) ← prefix_tree t "a";
     Ok (root_timestamps pt)) = Ok [1; 2].
Proof. split_and!; vm_compute; reflexivity. Qed.

(** C4, amended.  In every state of the tree that is built from a
    database and then mined by [remove_nodes] calls, the root has no item
    label, and its timestamps are those of the transactions that keep no
    item of the RP-list, in the order of the database; every tree that the
    miner derives from such a state, by removing items and by taking
    prefix trees, has a root without item label. *)
Theorem C4_root_sentinel tdb per min_ps min_rec removed rp tree :
  mined_tree per min_ps min_rec tdb removed = Ok (rp, tree) →
  root_item tree = None
  ∧ root_timestamps tree
    = (filter (fun tx => sorted_items rp tx.2 = []) tdb).*1
  ∧ ∀ t, derived tree t → root_item t = None.
Proof.
  unfold mined_tree. intros Hm.
  apply bind_Ok in Hm as (rp0 & Hrp & Hm).
  apply bind_Ok in Hm as (t0 & Hbuild & Hm).
  apply bind_Ok in Hm as (t1 & Hseq & [= <- <-]).
  pose proof (build_rp_list_NoDup _ _ _ _ _ Hrp) as Hnd.
  destruct (build_tree_spec rp0 tdb (new_tree rp0) (new_tree_growing rp0) eq_refl Hnd)
    as (t0' & Hbuild' & Hg & _ & _ & Hit0 & Hts0).
  rewrite Hbuild in Hbuild'. injection Hbuild' as <-.
  destruct (remove_seq_root _ _ _ (growing_wf _ Hg) Hseq) as (Hwf1 & Hit1 & Hts1).
  split; [congruence|]. split; [by rewrite Hts1, Hts0|].
  intros t Hd. apply wf_root_item. by eapply derived_wf.
Qed.

(** [C4_root_sentinel] on [tdb_b_filtered], after [a] was removed: the
    root holds the timestamp 5. *)
Lemma C4_root_sentinel_witness :
  mined_tree 1 2 1 tdb_b_filtered ["a"] = Ok (["a"], tree_b_filtered)
  ∧ root_item tree_b_filtered = None
  ∧ root_timestamps tree_b_filtered
    = (filter (fun tx => sorted_items ["a"] tx.2 = []) tdb_b_filtered).*1.
Proof.
  split; [vm_compute; reflexivity|].
  destruct (C4_root_sentinel tdb_b_filtered 1 2 1 ["a"] ["a"] tree_b_filtered)
    as (Hitem & Hts & _); [vm_compute; reflexivity|].
  split; [exact Hitem|exact Hts].
Defined.

(** ** C5: the parameters at the entry point *)




(** ** C6: relaxing [min_rec] *)

(** C6.  The patterns found with [min_rec = k] are meant to include those
    found with [min_rec = k + 1].  On [tdb_bcdx] with [per = 1] and
    [min_ps = 1] the pattern [x, d, b] is found with [min_rec = 3] and not
    with [min_rec = 2], and no pattern found with [min_rec = 2] holds the
    same items.  The transactions that hold [x], [d] and [b] are those at
    1 to 5, a single run: the exact test rejects the pattern for
    [min_rec = 3]. *)
Theorem C6_min_rec_not_antitone :
  ∃ ps2 ps3,
    (find_recurring_patterns (PatternFinder_init tdb_bcdx 1 1 2)).1 = Ok ps2
    ∧ (find_recurring_patterns (PatternFinder_init tdb_bcdx 1 1 3)).1 = Ok ps3
    ∧ ["x"; "d"; "b"] ∈ ps3
    ∧ (["x"; "d"; "b"] ∉ ps2)
    ∧ Forall (fun p => ¬ same_items p ["x"; "d"; "b"]) ps2
    ∧ pattern_timestamps tdb_bcdx ["x"; "d"; "b"] = [1; 2; 3; 4; 5]
    ∧ _get_recurrence 1 1 3 (sorted (pattern_timestamps tdb_bcdx ["x"; "d"; "b"]))
      = false.
Proof.
  do 2 eexists. split; [by vm_compute|]. split; [by vm_compute|].
  split; [|split; [|split; [|split; vm_compute; reflexivity]]].
  - repeat (first [apply list_elem_of_here | apply list_elem_of_further]).
  - rewrite list_elem_of_In. simpl. intuition congruence.
  - repeat constructor; intros Hs.
    all: try (specialize (proj2 (Hs "d") ltac:(repeat constructor));
              rewrite list_elem_of_In; simpl; intuition congruence).
    all: try (specialize (proj2 (Hs "b") ltac:(repeat constructor));
              rewrite list_elem_of_In; simpl; intuition congruence).
    all: try (specialize (proj2 (Hs "x") ltac:(repeat constructor));
              rewrite list_elem_of_In; simpl; intuition congruence).
    all: try (specialize (proj1 (Hs "c") ltac:(repeat constructor));
              rewrite list_elem_of_In; simpl; intuition congruence).
Qed.

(** ** C7: no pattern twice *)

(** C7.  Every pattern that [find_recurring_patterns] returns holds every
    item once, and no two patterns of the result hold the same items. *)
Theorem C7_patterns_distinct (self : PatternFinder) (patterns : list (list string)) :
  (find_recurring_patterns self).1 = Ok patterns →
  Forall (fun p => NoDup p) patterns
  ∧ ∀ i j p q, patterns !! i = Some p → patterns !! j = Some q →
               same_items p q → i = j.
Proof.
  intros Hrun.
  destruct (find_recurring_patterns_outcome self)
    as [(rp & patterns' & _ & Hrun' & Hnd & Hall)|[_ Hrun']];
    rewrite Hrun in Hrun'; [|done].
  injection Hrun' as <-.
  assert (Forall (desc rp) patterns) as Hdesc.
  { eapply Forall_impl; [done|]. by intros q (it & s & -> & _ & _ & ?). }
  rewrite Forall_forall in Hdesc. split.
  - apply Forall_forall. intros p Hp. eapply desc_NoDup. by apply Hdesc.
  - intros i j p q Hi Hj Hsame.
    assert (p = q) as <-.
    { eapply desc_same_items; [| |done]; apply Hdesc;
        by eapply list_elem_of_lookup_2. }
    by eapply NoDup_lookup.
Qed.

(** [C7_patterns_distinct] on the database of the paper, with [per = 2],
    [min_ps = 3] and [min_rec = 2]. *)
Lemma C7_patterns_distinct_witness :
  (find_recurring_patterns (PatternFinder_init paper_tdb 2 3 2)).1 = Ok paper_patterns
  ∧ Forall (fun p => NoDup p) paper_patterns
  ∧ ∀ i j p q, paper_patterns !! i = Some p → paper_patterns !! j = Some q →
               same_items p q → i = j.
Proof.
  split; [vm_compute; reflexivity|].
  apply (C7_patterns_distinct (PatternFinder_init paper_tdb 2 3 2) paper_patterns).
  vm_compute; reflexivity.
Defined.

(** ** C8: termination of the pattern growth *)

(** C8.  On the tree of every database the pattern growth returns, with a
    recursion of depth at most the number of items of the RP-list plus the
    outer call; every pattern has at most as many items as the RP-list;
    every iteration of the loop leaves the tree without the item it was
    run for, and the outer loop leaves it without any item of the
    RP-list. *)
Theorem C8_growth_terminates tdb per min_ps min_rec rp :
  build_rp_list per min_ps min_rec tdb = Ok rp →
  (∃ tree patterns tree',
      build_tree rp (new_tree rp) tdb = Ok tree
      ∧ _rp_growth_tree (S (length rp)) per min_ps min_rec tree []
        = Ok (patterns, tree')
      ∧ Forall (fun p => (length p ≤ length rp)%nat) patterns
      ∧ ∀ it, it ∈ rp → dict_get (_routes tree') it = None)
  ∧ ∀ rec t pattern it yielded t',
      growth_item per min_ps min_rec rec t pattern it = Ok (yielded, t') →
      dict_get (_routes t') it = None.
Proof.
  intros Hrp. split.
  - destruct (mine_spec _ _ _ _ _ Hrp)
      as (tree & patterns & tree' & Hbuild & Hrun & _ & _ & [_ Hall] & Hnone).
    exists tree, patterns, tree'. split_and!; try done.
    eapply Forall_impl; [done|].
    intros q (it & s & -> & _ & Hlt & Hdesc).
    pose proof (desc_length rp (it :: s) Hdesc) as Hlen.
    cbn [app length] in *. lia.
  - intros rec t pattern it yielded t' Hitem. unfold growth_item in Hitem.
    apply bind_Ok in Hitem as ([temp pt] & _ & Hitem).
    apply bind_Ok in Hitem as (ts & _ & Hitem).
    apply bind_Ok in Hitem as (ys & _ & Hitem).
    apply bind_Ok in Hitem as (t2 & Hrem & [= _ <-]).
    unfold remove_nodes in Hrem.
    destruct (dict_get (_routes t) it) as [[head tail]|] eqn:Hget; [|done].
    apply bind_Ok in Hrem as (h & _ & [= <-]). simpl.
    unfold dict_mem. rewrite Hget. apply dict_get_del_eq.
Qed.

(** [C8_growth_terminates] on the database of the paper. *)
Lemma C8_growth_terminates_witness :
  build_rp_list 2 3 2 paper_tdb = Ok ["a"; "b"; "c"; "d"; "e"; "f"]
  ∧ ∃ tree patterns tree',
      build_tree ["a"; "b"; "c"; "d"; "e"; "f"]
        (new_tree ["a"; "b"; "c"; "d"; "e"; "f"]) paper_tdb = Ok tree
      ∧ _rp_growth_tree 7 2 3 2 tree [] = Ok (patterns, tree')
      ∧ Forall (fun p => (length p ≤ 6)%nat) patterns
      ∧ ∀ it, it ∈ ["a"; "b"; "c"; "d"; "e"; "f"] →
              dict_get (_routes tree') it = None.
Proof.
  split; [vm_compute; reflexivity|].
  apply (C8_growth_terminates paper_tdb 2 3 2 ["a"; "b"; "c"; "d"; "e"; "f"]).
  vm_compute; reflexivity.
Defined.

(** ** C9: an item without a route *)

(** C9.  For an item that has no route in the tree, [nodes], consumed, and
    [remove_nodes] raise [KeyError]. *)
Theorem C9_absent_item_raises_KeyError (t : RPTree) (it : string) :
  dict_get (_routes t) it = None →
  nodes t it = Raise KeyError ∧ remove_nodes t it = Raise KeyError.
Proof. intros Hnone. unfold nodes, remove_nodes. by rewrite Hnone. Qed.

(** [C9_absent_item_raises_KeyError] on an empty tree. *)
Lemma C9_absent_item_raises_KeyError_witness :
  dict_get (_routes (new_tree ["a"])) "a" = None
  ∧ nodes (new_tree ["a"]) "a" = Raise KeyError
  ∧ remove_nodes (new_tree ["a"]) "a" = Raise KeyError.
Proof.
  split; [reflexivity|].
  apply (C9_absent_item_raises_KeyError (new_tree ["a"]) "a"). reflexivity.
Defined.

(** ** C10: the database after the call *)

(** C10.  [find_recurring_patterns] leaves the database as it was.  Over a
    store that holds the dictionary of the database and the list objects
    of its transactions, the call appends only to the [sorted_items] lists
    that it creates itself: every object that the store held before the
    call, the dictionary and the item lists among them, is the same
    object after it, whether the call returns or raises; the dictionary
    then stands for the same timestamps bound to the same items, and what
    the call returns is what the miner returns on that database. *)
Theorem C10_database_objects_unchanged (self : PatternFinder_obj) (σ : list pyobj) :
  extends σ (find_recurring_patterns_obj self σ).2
  ∧ ∀ tdb, read_tdb σ (obj_tdb self) = Some tdb →
      read_tdb (find_recurring_patterns_obj self σ).2 (obj_tdb self) = Some tdb
      ∧ (find_recurring_patterns_obj self σ).1
        = (find_recurring_patterns
             (PatternFinder_init tdb (obj_per self) (obj_min_ps self)
                (obj_min_rec self))).1.
Proof.
  pose proof (find_recurring_patterns_obj_above self σ) as Hext.
  split; [done|]. intros tdb Hread. split.
  - by eapply read_tdb_extends.
  - by apply find_recurring_patterns_obj_value.
Qed.

(** [C10_database_objects_unchanged] on a store that holds the database
    [{1: [a, b], 2: [a]}], with [per = min_ps = min_rec = 1]: the call
    leaves its two [sorted_items] lists in the store, after the three
    objects of the database, which are as they were. *)
Lemma C10_database_objects_unchanged_witness :
  (find_recurring_patterns_obj (mk_PatternFinder_obj 0 1 1 1)
     [PyDict [(1, 1%nat); (2, 2%nat)]; PyList ["a"; "b"]; PyList ["a"]]).2
  = [PyDict [(1, 1%nat); (2, 2%nat)]; PyList ["a"; "b"]; PyList ["a"];
     PyList ["a"]; PyList ["a"]]
  ∧ extends [PyDict [(1, 1%nat); (2, 2%nat)]; PyList ["a"; "b"]; PyList ["a"]]
      (find_recurring_patterns_obj (mk_PatternFinder_obj 0 1 1 1)
         [PyDict [(1, 1%nat); (2, 2%nat)]; PyList ["a"; "b"]; PyList ["a"]]).2.
Proof.
  split; [vm_compute; reflexivity|].
  apply (C10_database_objects_unchanged (mk_PatternFinder_obj 0 1 1 1)
           [PyDict [(1, 1%nat); (2, 2%nat)]; PyList ["a"; "b"]; PyList ["a"]]).
Defined.

Close Scope string_scope.

(** * Further properties of the code *)

(** ** The recurrence test ([PatternFinder._get_recurrence]) *)

(** X1.  On a sequence that holds a timestamp, the list [sub_db] that
    [_get_recurrence] builds holds, in order, the first and the last
    timestamp of every maximal run of at least [min_ps] timestamps, where
    a run is a stretch of the sequence whose consecutive timestamps are at
    most [per] apart and that cannot be extended; the number the test
    compares with [min_rec] is the number of these runs. *)
Theorem recurrence_intervals_are_long_runs (per min_ps : Z) (l : list Z) :
  l ≠ [] →
  concat (maximal_runs per l) = l
  ∧ Forall (gaps_within per) (maximal_runs per l)
  ∧ gaps_between per (maximal_runs per l)
  ∧ recurrence_intervals per min_ps l
    = run_interval <$> filter (long_enough min_ps) (maximal_runs per l)
  ∧ recurrence_count per min_ps l
    = Z.of_nat (length (filter (long_enough min_ps) (maximal_runs per l))).
Proof.
  intros Hl. split; [apply maximal_runs_concat|].
  split; [apply maximal_runs_gaps|]. split; [apply maximal_runs_gaps|].
  split; [by apply recurrence_intervals_runs|by apply recurrence_count_runs].
Qed.

(** [recurrence_intervals_are_long_runs] on [1, 2, 5, 6, 9] with [per = 1]
    and [min_ps = 2]: the intervals are (1, 2) and (5, 6). *)
Lemma recurrence_intervals_are_long_runs_witness :
  [1; 2; 5; 6; 9] ≠ []
  ∧ recurrence_intervals 1 2 [1; 2; 5; 6; 9]
    = [(Some 1, Some 2); (Some 5, Some 6)].
Proof.
  split; [done|].
  pose proof (recurrence_intervals_are_long_runs 1 2 [1; 2; 5; 6; 9]
                ltac:(done)) as (_ & _ & _ & H & _).
  rewrite H. reflexivity.
Defined.

(** X2.  A sequence that passes the test is long enough to hold
    [min_rec] runs of [min_ps] timestamps each: for a non-empty sequence
    and a [min_ps] that is not negative, [_get_recurrence] returns true
    only if the sequence holds at least [min_rec * min_ps] timestamps. *)
Theorem recurring_needs_enough_timestamps (per min_ps min_rec : Z) (l : list Z) :
  l ≠ [] → 0 ≤ min_ps →
  _get_recurrence per min_ps min_rec l = true →
  min_rec * min_ps ≤ Z.of_nat (length l).
Proof.
  destruct l as [|t l]; [done|]. intros _ Hps Hrec.
  unfold _get_recurrence in Hrec. apply Z.leb_le in Hrec.
  rewrite recurrence_count_cons in Hrec.
  pose proof (count_from_length per min_ps l t 1 Hps ltac:(lia)) as Hlen.
  cbn [length]. nia.
Qed.

(** [recurring_needs_enough_timestamps] on [1, 2, 5, 6] with [per = 1],
    [min_ps = 2] and [min_rec = 2]. *)
Lemma recurring_needs_enough_timestamps_witness :
  2 * 2 ≤ Z.of_nat (length [1; 2; 5; 6]).
Proof.
  apply (recurring_needs_enough_timestamps 1 2 2 [1; 2; 5; 6]);
    [done|lia|reflexivity].
Defined.

(** X3.  The test reads the timestamps through their differences only:
    adding the same number to every timestamp changes neither the count
    of recurrences nor the answer. *)
Theorem get_recurrence_shift (per min_ps min_rec d : Z) (l : list Z) :
  recurrence_count per min_ps ((fun t => t + d) <$> l) = recurrence_count per min_ps l
  ∧ _get_recurrence per min_ps min_rec ((fun t => t + d) <$> l)
    = _get_recurrence per min_ps min_rec l.
Proof.
  assert (recurrence_count per min_ps ((fun t => t + d) <$> l)
          = recurrence_count per min_ps l) as Hcount.
  { destruct l as [|t l]; [done|]. rewrite fmap_cons.
    by rewrite !recurrence_count_cons, count_from_shift. }
  split; [done|]. unfold _get_recurrence. by rewrite Hcount.
Qed.

(** X4.  Relaxing the thresholds never turns an accepted sequence into a
    rejected one: a sequence that passes the test for [min_ps'] and
    [min_rec'] passes it for every smaller [min_ps] and [min_rec], with
    the same [per]. *)
Theorem get_recurrence_antitone (per min_ps min_ps' min_rec min_rec' : Z) (l : list Z) :
  min_ps ≤ min_ps' → min_rec ≤ min_rec' →
  _get_recurrence per min_ps' min_rec' l = true →
  _get_recurrence per min_ps min_rec l = true.
Proof.
  intros Hps Hrec. unfold _get_recurrence. rewrite !Z.leb_le. intros Hle.
  enough (recurrence_count per min_ps' l ≤ recurrence_count per min_ps l) by lia.
  destruct l as [|t l].
  - unfold recurrence_count. rewrite !recurrence_intervals_nil.
    destruct (Z.leb_spec min_ps' 1), (Z.leb_spec min_ps 1); simpl; lia.
  - rewrite !recurrence_count_cons.
    pose proof (count_from_antitone per min_ps min_ps' l t 1 Hps). lia.
Qed.

(** [get_recurrence_antitone] on [1, 2, 3, 7, 8, 9] with [per = 1]: from
    [min_ps = 3] and [min_rec = 2] to [min_ps = 2] and [min_rec = 1]. *)
Lemma get_recurrence_antitone_witness :
  _get_recurrence 1 2 1 [1; 2; 3; 7; 8; 9] = true.
Proof.
  apply (get_recurrence_antitone 1 2 3 1 2 [1; 2; 3; 7; 8; 9]);
    [lia|lia|reflexivity].
Defined.

(** ** The RP-list (Algorithm 1 in [find_recurring_patterns]) *)

(** X5.  After the first scan the entry of an item has counted its
    occurrences: [support] is the number of times the item is listed in
    the database (an item listed twice in a transaction is counted
    twice), [last_timestamp] is the timestamp of the last transaction that
    lists it, and [item] is the item itself.  An item has no entry exactly
    when no transaction lists it. *)
Theorem scan_counts_occurrences (per min_ps : Z) (tdb : tdb_t)
    (rp : list (string * Item)) (a : string) :
  rp_scan per min_ps [] tdb = Ok rp →
  match dict_get rp a with
  | Some e =>
      item e = a ∧ support e = occurrences tdb a ∧ 0 < occurrences tdb a
      ∧ last_timestamp e = last (item_timestamps tdb a)
  | None => occurrences tdb a = 0
  end.
Proof.
  intros Hscan. pose proof (rp_scan_entries per min_ps tdb rp a Hscan) as Htal.
  destruct (dict_get rp a) as [e|]; [|done].
  destruct Htal as (? & ? & ? & ? & _). split_and!; [done|done|lia|done].
Qed.

(** [scan_counts_occurrences] on the database of the paper: the item [a]
    is listed 8 times, the last time at timestamp 14. *)
Lemma scan_counts_occurrences_witness :
  ∃ rp e, rp_scan 2 3 [] paper_tdb = Ok rp
          ∧ dict_get rp "a"%string = Some e
          ∧ support e = 8 ∧ last_timestamp e = Some 14.
Proof.
  destruct (rp_scan 2 3 [] paper_tdb) as [rp| | |] eqn:Hscan;
    [|vm_compute in Hscan; discriminate..].
  pose proof (scan_counts_occurrences 2 3 paper_tdb rp "a"%string Hscan) as H.
  destruct (dict_get rp "a"%string) as [e|] eqn:Hget;
    [|vm_compute in H; discriminate].
  exists rp, e. destruct H as (_ & Hsup & _ & Hlast).
  split; [reflexivity|]. split; [exact Hget|].
  split; [rewrite Hsup|rewrite Hlast]; vm_compute; reflexivity.
Defined.

(** X6.  The RP-list names no item twice, and every item it names is
    listed in the database; for a positive [min_ps] the item is listed at
    least [min_ps * min_rec] times, because every recurrence of the
    estimate stands for [min_ps] occurrences of their own. *)
Theorem rp_list_items_are_frequent (per min_ps min_rec : Z) (tdb : tdb_t)
    (rp : list string) :
  build_rp_list per min_ps min_rec tdb = Ok rp →
  NoDup rp
  ∧ ∀ a, a ∈ rp →
      (∃ tx, tx ∈ tdb ∧ a ∈ tx.2)
      ∧ (0 < min_ps → min_ps * min_rec ≤ occurrences tdb a).
Proof.
  intros Hbuild. split; [by eapply build_rp_list_NoDup|].
  intros a Hin. by eapply rp_list_elem_frequent.
Qed.

(** [rp_list_items_are_frequent] on the database of the paper, with
    [per = 2], [min_ps = 3] and [min_rec = 2]. *)
Lemma rp_list_items_are_frequent_witness :
  ∃ rp, build_rp_list 2 3 2 paper_tdb = Ok rp ∧ NoDup rp.
Proof.
  destruct (build_rp_list 2 3 2 paper_tdb) as [rp| | |] eqn:Hbuild;
    [|vm_compute in Hbuild; discriminate..].
  exists rp. split; [reflexivity|].
  apply (rp_list_items_are_frequent 2 3 2 paper_tdb rp Hbuild).
Defined.

(** X7.  The RP-list is ordered by support, the most frequent item first,
    and by name among the items of equal support: of two neighbours, the
    first is listed more often in the database, or as often and its name
    is the smaller one. *)
Theorem rp_list_order (per min_ps min_rec : Z) (tdb : tdb_t) (rp : list string)
    (i : nat) (a b : string) :
  build_rp_list per min_ps min_rec tdb = Ok rp →
  rp !! i = Some a → rp !! S i = Some b →
  occurrences tdb b < occurrences tdb a
  ∨ (occurrences tdb b = occurrences tdb a ∧ String.leb a b = true ∧ a ≠ b).
Proof.
  intros Hbuild Ha Hb.
  assert (NoDup rp) as Hnd by by eapply build_rp_list_NoDup.
  assert (a ≠ b) as Hne.
  { intros ->. pose proof (NoDup_lookup _ _ _ _ Hnd Ha Hb). lia. }
  unfold build_rp_list in Hbuild.
  apply bind_Ok in Hbuild as (rp0 & Hscan & Hbuild).
  apply bind_Ok in Hbuild as (final & Hflush & [= <-]).
  unfold rp_sorted in Ha, Hb. rewrite list_lookup_fmap in Ha, Hb.
  destruct (foldr rp_insert [] final !! i) as [[a' ea]|] eqn:Hia; [|done].
  destruct (foldr rp_insert [] final !! S i) as [[b' eb]|] eqn:Hib; [|done].
  simpl in Ha, Hb. injection Ha as ->. injection Hb as ->.
  pose proof (key_sorted_adjacent _ _ _ _ (rp_insert_all_sorted final) Hia Hib) as Hle.
  assert (∀ j x e, foldr rp_insert [] final !! j = Some (x, e) →
                   support e = occurrences tdb x) as Hsup.
  { intros j x e Hj. apply list_elem_of_lookup_2 in Hj.
    rewrite rp_insert_all_Permutation in Hj.
    by destruct (final_entries _ _ _ _ _ _ _ _ Hscan Hflush Hj) as (? & _). }
  apply Hsup in Hia, Hib. unfold rp_key_le in Hle. simpl in Hle.
  rewrite Hia, Hib in Hle. apply orb_true_iff in Hle as [Hlt|Heq].
  - left. apply Z.ltb_lt in Hlt. lia.
  - right. apply andb_true_iff in Heq as [Heq Hab]. apply Z.eqb_eq in Heq.
    split_and!; [lia|done|done].
Qed.

(** [rp_list_order] on the database of the paper: [a], listed 8 times, is
    first and [b], listed 7 times, is second. *)
Lemma rp_list_order_witness :
  occurrences paper_tdb "b"%string < occurrences paper_tdb "a"%string
  ∨ (occurrences paper_tdb "b"%string = occurrences paper_tdb "a"%string
     ∧ String.leb "a" "b" = true ∧ "a"%string ≠ "b"%string).
Proof.
  destruct (build_rp_list 2 3 2 paper_tdb) as [rp| | |] eqn:Hbuild;
    [|vm_compute in Hbuild; discriminate..].
  apply (rp_list_order 2 3 2 paper_tdb rp 0 "a"%string "b"%string Hbuild).
  - vm_compute in Hbuild. injection Hbuild as <-. reflexivity.
  - vm_compute in Hbuild. injection Hbuild as <-. reflexivity.
Defined.

(** X8.  With [min_ps] at least 2, the estimate prunes no item that the
    exact test accepts: on a database read in ascending order of its
    timestamps, with [per] not negative and a positive [min_rec], the scan
    returns, and an item whose timestamps pass [_get_recurrence] is in the
    RP-list. *)
Theorem pruning_keeps_recurring_items (per min_ps min_rec : Z) (tdb : tdb_t)
    (a : string) :
  ascending tdb.*1 → 0 ≤ per → 2 ≤ min_ps → 0 < min_rec →
  _get_recurrence per min_ps min_rec (sorted (item_timestamps tdb a)) = true →
  ∃ rp, build_rp_list per min_ps min_rec tdb = Ok rp ∧ a ∈ rp.
Proof.
  intros Hasc Hper Hps Hrec Htest.
  destruct (build_rp_list_outcome per min_ps min_rec tdb) as [[rp Hbuild]|[? _]];
    [|lia].
  exists rp. split; [done|].
  unfold build_rp_list in Hbuild.
  apply bind_Ok in Hbuild as (rp0 & Hscan & Hbuild).
  apply bind_Ok in Hbuild as (final & Hflush & [= <-]).
  rewrite sorted_ascending in Htest by by apply ascending_item_timestamps.
  unfold _get_recurrence in Htest. apply Z.leb_le in Htest.
  pose proof (rp_scan_agrees per min_ps a tdb [] rp0 rec_init
                Hper ltac:(lia) Hscan eq_refl) as Hag.
  destruct (dict_get rp0 a) as [e|] eqn:Hget.
  - destruct (rp_flush_keeps _ _ _ _ _ _ Hflush (dict_get_Some_elem _ _ _ Hget))
      as (e' & Hfl & Hkeep).
    pose proof (rp_flush_item_bounds _ _ _ _ Hps Hag Hfl) as Hbound.
    apply rp_sorted_elem. exists e'. apply Hkeep.
    unfold recurrence_count, recurrence_intervals in Htest. lia.
  - simpl in Hag. unfold recurrence_count, recurrence_intervals in Htest.
    rewrite Hag in Htest. unfold rec_close in Htest. simpl in Htest.
    destruct (Z.leb_spec min_ps 1); [lia|]. simpl in Htest. lia.
Qed.

(** [pruning_keeps_recurring_items] on the database of the paper, for the
    item [f] with [per = 2], [min_ps = 3] and [min_rec = 2]. *)
Lemma pruning_keeps_recurring_items_witness :
  ∃ rp, build_rp_list 2 3 2 paper_tdb = Ok rp ∧ "f"%string ∈ rp.
Proof.
  apply (pruning_keeps_recurring_items 2 3 2 paper_tdb "f"%string);
    [simpl; lia|lia|lia|lia|vm_compute; reflexivity].
Defined.

(** ** The miner ([find_recurring_patterns] and [_rp_growth]) *)

(** X9.  Every pattern that [find_recurring_patterns] returns is made of
    items of the RP-list, listed from the last-ranked (least frequent) to
    the first-ranked: it is not empty, the rank of its items in the
    RP-list falls strictly from one item to the next, every item is
    listed in some transaction and, for a positive [min_ps], at least
    [min_ps * min_rec] times in the database. *)
Theorem patterns_use_frequent_items (self : PatternFinder)
    (patterns : list (list string)) :
  (find_recurring_patterns self).1 = Ok patterns →
  ∃ rp, build_rp_list (per self) (min_ps self) (min_rec self) (tdb self) = Ok rp
    ∧ Forall (fun p =>
        p ≠ [] ∧ desc rp p
        ∧ ∀ x, x ∈ p →
            x ∈ rp ∧ (∃ tx, tx ∈ tdb self ∧ x ∈ tx.2)
            ∧ (0 < min_ps self →
               min_ps self * min_rec self ≤ occurrences (tdb self) x)) patterns.
Proof.
  intros Hfind.
  destruct (find_recurring_patterns_outcome self)
    as [(rp & patterns' & Hbuild & Hfind' & Hgrown)|[_ Hraise]];
    [|congruence].
  rewrite Hfind in Hfind'. injection Hfind' as <-.
  exists rp. split; [done|]. apply Forall_forall. intros p Hp.
  destruct (grown_top _ _ _ Hgrown Hp) as (Hne & Hdesc & Hin).
  split; [done|]. split; [done|]. intros x Hx. split; [by apply Hin|].
  eapply rp_list_elem_frequent; [done|by apply Hin].
Qed.

(** [patterns_use_frequent_items] on the database of the paper, with
    [per = 2], [min_ps = 3] and [min_rec = 2]. *)
Lemma patterns_use_frequent_items_witness :
  ∃ rp, build_rp_list 2 3 2 paper_tdb = Ok rp
    ∧ Forall (fun p =>
        p ≠ [] ∧ desc rp p
        ∧ ∀ x, x ∈ p →
            x ∈ rp ∧ (∃ tx, tx ∈ paper_tdb ∧ x ∈ tx.2)
            ∧ (0 < 3 → 3 * 2 ≤ occurrences paper_tdb x)) paper_patterns.
Proof.
  apply (patterns_use_frequent_items (PatternFinder_init paper_tdb 2 3 2)
           paper_patterns).
  vm_compute. reflexivity.
Defined.



(** X11.  On a tree that has no route, whatever its nodes, [_rp_growth]
    yields nothing and removes nothing: the test [node_count > 0] before
    the recursive call only skips a call that would return at once. *)
Theorem growth_of_routeless_tree (depth : nat) (per min_ps min_rec : Z)
    (tree : RPTree) (pattern : list string) :
  node_count tree = 0%nat →
  _rp_growth_tree (S depth) per min_ps min_rec tree pattern = Ok ([], tree)
  ∧ _rp_growth (S depth) per min_ps min_rec tree pattern = Ok [].
Proof.
  intros Hcount. unfold node_count in Hcount.
  apply length_zero_iff_nil in Hcount.
  assert (_rp_growth_tree (S depth) per min_ps min_rec tree pattern = Ok ([], tree))
    as Hgrowth by (simpl; by apply growth_loop_no_routes).
  split; [done|]. unfold _rp_growth. by rewrite Hgrowth.
Qed.

(** [growth_of_routeless_tree] on a new tree. *)
Lemma growth_of_routeless_tree_witness :
  _rp_growth 1 2 3 2 (new_tree ["a"%string; "b"%string]) [] = Ok [].
Proof.
  apply (growth_of_routeless_tree 0 2 3 2 (new_tree ["a"%string; "b"%string]) []).
  reflexivity.
Defined.

(** X12.  [_construct_conditional_from_prefix] filters the items of a
    well-formed prefix tree by the exact test: when the dictionary of
    timestamps has an entry for every item that has a route, the call
    returns a tree with the same RP-list in which an item of the RP-list
    has a route exactly when it had one and its timestamps pass
    [_get_recurrence]; the routes of items outside the RP-list stay. *)
Theorem conditional_tree_keeps_passing_items (per min_ps min_rec : Z)
    (prefix : RPTree) (timestamps : list (string * list Z)) :
  wf prefix →
  (∀ k, is_Some (dict_get (_routes prefix) k) → is_Some (dict_get timestamps k)) →
  ∃ ct, _construct_conditional_from_prefix per min_ps min_rec prefix timestamps = Ok ct
    ∧ _rp_list ct = _rp_list prefix
    ∧ ∀ k, is_Some (dict_get (_routes ct) k) ↔
           is_Some (dict_get (_routes prefix) k)
           ∧ (k ∈ _rp_list prefix → passes_test per min_ps min_rec timestamps k).
Proof.
  intros Hwf Hkeys. unfold _construct_conditional_from_prefix.
  destruct (construct_loop_routes per min_ps min_rec timestamps
              (reverse (_rp_list prefix)) prefix Hwf Hkeys)
    as (ct & Hloop & _ & Hrp & Hiff).
  exists ct. split_and!; [done..|]. intros k. rewrite Hiff.
  by rewrite elem_of_reverse.
Qed.

(** [conditional_tree_keeps_passing_items] on the tree of the single
    transaction [a, b] at timestamp 1, with the timestamps [1] for both
    items and [per = min_ps = min_rec = 1]. *)
Lemma conditional_tree_keeps_passing_items_witness :
  ∃ pt ct,
    insert_node (new_tree ["a"%string; "b"%string]) ["a"%string; "b"%string] 1 = Ok pt
    ∧ _construct_conditional_from_prefix 1 1 1 pt
        [("a"%string, [1]); ("b"%string, [1])] = Ok ct
    ∧ _rp_list ct = _rp_list pt.
Proof.
  destruct (insert_node_spec (new_tree ["a"%string; "b"%string])
              ["a"%string; "b"%string] 1 (new_tree_growing _))
    as (pt & Hins & Hg & _ & Hk & _).
  { split; [exact I|]. split; [vm_compute; lia|exact I]. }
  destruct (conditional_tree_keeps_passing_items 1 1 1 pt
              [("a"%string, [1]); ("b"%string, [1])] (growing_wf _ Hg))
    as (ct & Hc & Hrp & _).
  { intros k Hk'. destruct (Hk _ Hk') as [Hin|Hnone].
    - apply elem_of_cons in Hin as [->|Hin]; [by eexists|].
      apply elem_of_cons in Hin as [->|Hin]; [by eexists|].
      by apply not_elem_of_nil in Hin.
    - simpl in Hnone. by destruct Hnone. }
  exists pt, ct. split; [exact Hins|]. split; [exact Hc|exact Hrp].
Defined.

(** ** The tree ([RPTree] and [RPNode]) *)

(** X13.  Linking a new leaf and unlinking it again leaves the tree as it
    was: for a node [child] that has no parent and no child, and a node
    [self] that has no child for the item of [child], [self.add(child)]
    registers [child] under its item ([get_child] returns it) and sets its
    parent to [self], and [self.remove(child)] after it returns and
    restores every node. *)
Theorem add_then_remove (h : list RPNode) (self child : nat) (s c : RPNode)
    (ci : string) :
  h !! self = Some s → h !! child = Some c → self ≠ child →
  _item c = Some ci → _parent c = None → _children c = [] →
  get_child s ci = None →
  ∃ h1 s1 c1,
    add h self child = Ok h1
    ∧ h1 !! self = Some s1 ∧ get_child s1 ci = Some child
    ∧ h1 !! child = Some c1 ∧ _parent c1 = Some self
    ∧ remove h1 self child = Ok h.
Proof.
  intros Hs Hc Hne Hci Hpar Hleaf Hget. unfold get_child in Hget.
  pose proof (lookup_lt_Some _ _ _ Hs) as Hsl.
  pose proof (lookup_lt_Some _ _ _ Hc) as Hcl.
  set (s1 := with_children s (dict_set (_children s) ci child)).
  set (c1 := with_parent c (Some self)).
  set (h1 := <[child := c1]> (<[self := s1]> h)).
  assert (h1 !! self = Some s1) as Hs1.
  { unfold h1. rewrite list_lookup_insert_ne by done.
    by apply list_lookup_insert_eq. }
  assert (h1 !! child = Some c1) as Hc1.
  { unfold h1. apply list_lookup_insert_eq. by rewrite length_insert. }
  exists h1, s1, c1. split_and!; [|done| |done|done|].
  - unfold add. rewrite Hs, Hc. simpl. rewrite Hci. simpl. rewrite Hget.
    rewrite list_lookup_insert_ne by done. by rewrite Hc.
  - unfold get_child. simpl. apply dict_get_set_eq.
  - unfold remove. rewrite Hs1, Hc1. simpl. rewrite Hci. simpl.
    unfold dict_mem. rewrite dict_get_set_eq. simpl.
    unfold is_leaf. simpl. rewrite Hleaf. simpl.
    rewrite Hs1. simpl. rewrite dict_get_set_eq. simpl. rewrite Hc1. simpl.
    rewrite list_lookup_insert_ne by done. rewrite Hs1. simpl. f_equal.
    rewrite dict_del_set_fresh by done.
    unfold h1. rewrite list_insert_insert_eq.
    rewrite list_insert_insert_ne by done. rewrite list_insert_insert_eq.
    rewrite (list_insert_id h self) by (rewrite Hs; by destruct s).
    apply list_insert_id. rewrite Hc. destruct c. simpl in *. by subst.
Qed.

(** [add_then_remove] on an arena of a root and a new node for [a]. *)
Lemma add_then_remove_witness :
  ∃ h1, add [new_node None; new_node (Some "a"%string)] 0 1 = Ok h1
        ∧ remove h1 0 1 = Ok [new_node None; new_node (Some "a"%string)].
Proof.
  destruct (add_then_remove [new_node None; new_node (Some "a"%string)] 0 1
              (new_node None) (new_node (Some "a"%string)) "a"%string)
    as (h1 & _ & _ & Hadd & _ & _ & _ & _ & Hrem);
    [reflexivity|reflexivity|lia|reflexivity|reflexivity|reflexivity|reflexivity|].
  exists h1. split; [exact Hadd|exact Hrem].
Defined.

(** X14.  [remove_nodes] takes the item out of the routes and leaves the
    other routes and the RP-list alone: after a call that returns,
    [items_ordered] yields the items it yielded before except the removed
    one, in the same order, and [nodes], [prefix_tree] and a second
    [remove_nodes] for the item raise [KeyError]. *)
Theorem remove_nodes_unroutes (t t' : RPTree) (it : string) :
  remove_nodes t it = Ok t' →
  _rp_list t' = _rp_list t
  ∧ (∀ k, dict_get (_routes t') k
          = if decide (k = it) then None else dict_get (_routes t) k)
  ∧ items_ordered t' = filter (fun k => k ≠ it) (items_ordered t)
  ∧ nodes t' it = Raise KeyError
  ∧ prefix_tree t' it = Raise KeyError
  ∧ remove_nodes t' it = Raise KeyError.
Proof.
  intros Hrem. apply remove_nodes_routes in Hrem as (_ & Hrp & Hroutes).
  assert (dict_get (_routes t') it = None) as Hnone
    by (rewrite Hroutes; apply dict_get_del_eq).
  split_and!.
  - done.
  - intros k. rewrite Hroutes. destruct (decide (k = it)) as [->|Hne].
    + apply dict_get_del_eq.
    + by apply dict_get_del_ne.
  - unfold items_ordered. rewrite Hrp, Hroutes, list_filter_filter.
    apply list_filter_iff. intros k. apply dict_mem_del.
  - unfold nodes. by rewrite Hnone.
  - unfold prefix_tree, nodes. by rewrite Hnone.
  - unfold remove_nodes. by rewrite Hnone.
Qed.

(** [remove_nodes_unroutes] on the tree of the transactions [a, b, c, d]
    and [a, c], for the item [b]. *)
Lemma remove_nodes_unroutes_witness :
  ∃ t t', tree_abcd_ac = Ok t ∧ remove_nodes t "b"%string = Ok t'
          ∧ items_ordered t' = ["d"%string; "c"%string; "a"%string].
Proof.
  destruct tree_abcd_ac as [t| | |] eqn:Ht; [|vm_compute in Ht; discriminate..].
  destruct (remove_nodes t "b"%string) as [t'| | |] eqn:Hrem;
    [|vm_compute in Ht; injection Ht as <-; vm_compute in Hrem; discriminate..].
  exists t, t'. split; [reflexivity|]. split; [exact Hrem|].
  destruct (remove_nodes_unroutes t t' "b"%string Hrem) as (_ & _ & -> & _).
  vm_compute in Ht. injection Ht as <-. vm_compute. reflexivity.
Defined.

(** X15.  The dictionary that [prefix_tree] returns for an item of a
    well-formed tree maps every item that lies on the way up from a node
    of the item, that node included, to the timestamps of those nodes of
    the item that have it on their way up, concatenated in the order of
    the route, and holds no other key; in particular the item itself is
    mapped to the timestamps of all its nodes.  The prefix tree has the
    RP-list of the tree and routes for items of an earlier rank only. *)
Theorem prefix_tree_collects_timestamps (t : RPTree) (it : string)
    (temp : list (string * list Z)) (pt : RPTree) :
  wf t → prefix_tree t it = Ok (temp, pt) →
  ∃ ns, nodes t it = Ok ns
    ∧ (∀ k, dict_get temp k
            = if decide (Exists (above (arena t) k) ns)
              then Some (credited (arena t) ns k) else None)
    ∧ dict_get temp it = Some (concat (timestamps_of (arena t) <$> ns))
    ∧ _rp_list pt = _rp_list t
    ∧ ∀ k, is_Some (dict_get (_routes pt) k) →
           (pos (_rp_list t) k < pos (_rp_list t) it)%nat.
Proof.
  intros Hwf Hprefix.
  assert (is_Some (dict_get (_routes t) it)) as Hroute.
  { unfold prefix_tree, nodes in Hprefix.
    destruct (dict_get (_routes t) it); [by eexists|done]. }
  destruct (nodes_spec t it Hwf Hroute) as (n & ns & Hnodes & Hall).
  destruct (prefix_tree_spec t it Hwf Hroute)
    as (temp0 & pt0 & Hprefix0 & _ & Hrp & _ & Hkeys).
  rewrite Hprefix in Hprefix0. injection Hprefix0 as <- <-.
  assert (walk_paths (arena t) (n :: ns) [] (new_tree (_rp_list t)) = Ok (temp, pt))
    as Hwalks by (unfold prefix_tree in Hprefix; by rewrite Hnodes in Hprefix).
  pose proof (walk_paths_credit _ _ _ _ _ _ _ (proj1 Hwf) Hwalks) as Hcredit.
  exists (n :: ns). split; [done|]. split; [|split; [|split; [done|]]].
  - intros k. rewrite Hcredit. by destruct (decide _).
  - rewrite Hcredit. rewrite decide_True.
    + simpl. f_equal. by apply credited_own_item.
    + apply Exists_cons_hd. apply Forall_cons in Hall as [(nd & Hn & Hit) _].
      by eapply above_own_item.
  - intros k Hk. by apply Hkeys.
Qed.

(** [prefix_tree_collects_timestamps] on the tree of the transactions
    [a, b] at 1, [a, b] at 2 and [b] at 3, for the item [b]: the nodes of
    [b] hold [1, 2] and [3]. *)
Lemma prefix_tree_collects_timestamps_witness :
  ∃ t temp pt,
    build_tree ["a"%string; "b"%string] (new_tree ["a"%string; "b"%string])
      [(1, ["a"%string; "b"%string]); (2, ["a"%string; "b"%string]);
       (3, ["b"%string])] = Ok t
    ∧ prefix_tree t "b"%string = Ok (temp, pt)
    ∧ dict_get temp "b"%string = Some [1; 2; 3]
    ∧ dict_get temp "a"%string = Some [1; 2].
Proof.
  destruct (build_tree_spec ["a"%string; "b"%string]
              [(1, ["a"%string; "b"%string]); (2, ["a"%string; "b"%string]);
               (3, ["b"%string])] (new_tree ["a"%string; "b"%string])
              (new_tree_growing _) eq_refl)
    as (t & Hbuild & Hg & _);
    [apply (bool_decide_unpack _); vm_compute; exact I|].
  destruct (prefix_tree t "b"%string) as [[temp pt]| | |] eqn:Hprefix;
    [|vm_compute in Hbuild; injection Hbuild as <-;
      vm_compute in Hprefix; discriminate..].
  destruct (prefix_tree_collects_timestamps t "b"%string temp pt
              (growing_wf _ Hg) Hprefix) as (ns & Hnodes & Hall & _).
  exists t, temp, pt. split; [exact Hbuild|]. split; [exact Hprefix|].
  rewrite !Hall. vm_compute in Hbuild. injection Hbuild as <-.
  vm_compute in Hnodes. injection Hnodes as <-.
  split; vm_compute; reflexivity.
Defined.

(** X16.  After [insert_node] has returned, the items of the transaction
    lead from the root, child by child, to a node whose last timestamp is
    the one inserted; inserting the same items again creates no node and
    no route, it only appends the new timestamp to that node. *)
Theorem insert_node_twice (t t1 : RPTree) (items : list string) (ts ts' : Z) :
  insert_node t items ts = Ok t1 →
  ∃ n nd,
    get_path (arena t1) root items = Some n
    ∧ arena t1 !! n = Some nd
    ∧ last (_timestamps nd) = Some ts
    ∧ insert_node t1 items ts'
      = Ok (mk_RPTree (<[n := with_timestamps nd (_timestamps nd ++ [ts'])]> (arena t1))
              (_rp_list t1) (_routes t1)).
Proof.
  intros Hins. unfold insert_node in Hins.
  apply bind_Ok in Hins as ([t0 n] & Hall & Hins).
  apply bind_Ok in Hins as (h & Hadd & [= <-]). simpl.
  unfold add_timestamp in Hadd.
  apply bind_Ok in Hadd as (ln & Hln & [= <-]). apply deref_Ok in Hln.
  pose proof (descend_all_path _ _ _ _ _ Hall) as Hpath.
  set (nd := with_timestamps ln (_timestamps ln ++ [ts])).
  assert (same_shape (arena t0) (<[n := nd]> (arena t0))) as Hsh
    by by eapply insert_same_shape.
  assert (<[n := nd]> (arena t0) !! n = Some nd) as Hn
    by (apply list_lookup_insert_eq; by eapply lookup_lt_Some).
  exists n, nd. split_and!.
  - by eapply get_path_same_shape.
  - done.
  - simpl. apply last_snoc.
  - unfold insert_node.
    rewrite (descend_all_existing items
               (mk_RPTree (<[n := nd]> (arena t0)) (_rp_list t0) (_routes t0)) root n)
      by (by eapply get_path_same_shape).
    simpl. unfold add_timestamp. by rewrite Hn.
Qed.

(** [insert_node_twice] on a new tree and the transaction [a, b]. *)
Lemma insert_node_twice_witness :
  ∃ t1 n nd,
    insert_node (new_tree ["a"%string; "b"%string]) ["a"%string; "b"%string] 1 = Ok t1
    ∧ get_path (arena t1) root ["a"%string; "b"%string] = Some n
    ∧ arena t1 !! n = Some nd
    ∧ last (_timestamps nd) = Some 1.
Proof.
  destruct (insert_node (new_tree ["a"%string; "b"%string])
              ["a"%string; "b"%string] 1) as [t1| | |] eqn:Hins;
    [|vm_compute in Hins; discriminate..].
  destruct (insert_node_twice _ t1 _ 1 2 Hins) as (n & nd & Hpath & Hn & Hlast & _).
  exists t1, n, nd. split; [reflexivity|]. split; [exact Hpath|].
  split; [exact Hn|exact Hlast].
Defined.

(** X17.  The tree that the second scan builds holds the database without
    loss: the item list that a transaction is turned into (its items in
    the order of the RP-list) leads from the root to a node, and the
    node that any item list leads to holds exactly the timestamps of the
    transactions that are turned into that item list, in the order of the
    database (for the root: the transactions that keep no item). *)
Theorem build_tree_stores_transactions (rp : list string)
    (tdb : list (Z * list string)) (t : RPTree) :
  NoDup rp → build_tree rp (new_tree rp) tdb = Ok t →
  (∀ tx, tx ∈ tdb → is_Some (get_path (arena t) root (sorted_items rp tx.2)))
  ∧ (∀ p n, get_path (arena t) root p = Some n →
       timestamps_of (arena t) n = stored rp tdb p).
Proof.
  intros Hnd Hbuild.
  destruct (new_tree_holds rp) as [Hown Hholds].
  destruct (build_tree_holds rp tdb (new_tree rp) [] (new_tree_growing rp) Hown
              eq_refl Hnd Hholds) as (t' & Hbuild' & _ & _ & Hrp & [Hcontent Hpaths]).
  rewrite Hbuild in Hbuild'. injection Hbuild' as <-.
  rewrite Hrp in Hcontent, Hpaths. simpl in Hcontent, Hpaths. split; [|done].
  intros tx Hin. apply Hpaths. unfold stored.
  assert (tx ∈ filter (fun tx' : Z * list string =>
                         sorted_items rp tx'.2 = sorted_items rp tx.2) tdb) as Hf
    by by apply list_elem_of_filter.
  intros Hnil. apply fmap_nil_inv in Hnil. rewrite Hnil in Hf.
  by apply not_elem_of_nil in Hf.
Qed.

(** [build_tree_stores_transactions] on the transactions [a, b] at 1,
    [b, a] at 2 and [b] at 3, with the RP-list [a, b]: the node that
    [a, b] leads to holds the timestamps 1 and 2. *)
Lemma build_tree_stores_transactions_witness :
  ∃ t n,
    build_tree ["a"%string; "b"%string] (new_tree ["a"%string; "b"%string])
      [(1, ["a"%string; "b"%string]); (2, ["b"%string; "a"%string]);
       (3, ["b"%string])] = Ok t
    ∧ get_path (arena t) root ["a"%string; "b"%string] = Some n
    ∧ timestamps_of (arena t) n = [1; 2].
Proof.
  destruct (build_tree ["a"%string; "b"%string] (new_tree ["a"%string; "b"%string])
              [(1, ["a"%string; "b"%string]); (2, ["b"%string; "a"%string]);
               (3, ["b"%string])]) as [t| | |] eqn:Hbuild;
    [|vm_compute in Hbuild; discriminate..].
  destruct (build_tree_stores_transactions ["a"%string; "b"%string]
              [(1, ["a"%string; "b"%string]); (2, ["b"%string; "a"%string]);
               (3, ["b"%string])] t) as [Hpaths Hcontent];
    [apply (bool_decide_unpack _); vm_compute; exact I|exact Hbuild|].
  destruct (Hpaths (1, ["a"%string; "b"%string])) as [n Hn];
    [apply list_elem_of_here|].
  exists t, n. split; [reflexivity|]. split; [exact Hn|].
  rewrite (Hcontent _ _ Hn). vm_compute. reflexivity.
Defined.

(** X18.  In the tree that the second scan builds, [nodes] yields the
    nodes of the tree that hold the item, each of them once: a node is
    yielded exactly when a list of items that ends with the item leads to
    it from the root; and [nodes] raises [KeyError] exactly when no node
    of the tree holds the item. *)
Theorem nodes_yields_the_nodes_of_the_item (rp : list string) (tdb : tdb_t)
    (t : RPTree) (it : string) :
  NoDup rp → build_tree rp (new_tree rp) tdb = Ok t →
  (nodes t it = Raise KeyError
   ∧ ∀ q, get_path (arena t) root (q ++ [it]) = None)
  ∨ ∃ ns, nodes t it = Ok ns ∧ ns ≠ [] ∧ NoDup ns
      ∧ ∀ n, n ∈ ns ↔ ∃ q, get_path (arena t) root (q ++ [it]) = Some n.
Proof.
  intros Hnd Hbuild.
  destruct (build_tree_spec rp tdb (new_tree rp) (new_tree_growing rp) eq_refl Hnd)
    as (t' & Hbuild' & Hg & _).
  rewrite Hbuild in Hbuild'. injection Hbuild' as <-.
  pose proof (build_tree_routed _ _ _ _ (new_tree_routed rp) Hbuild) as Hrouted.
  pose proof (routed_nodes t it Hrouted) as Hnodes.
  destruct (dict_get (_routes t) it) as [route|].
  - right. destruct Hnodes as [Hnodes Hne]. exists (item_nodes (arena t) it).
    split; [done|]. split; [done|]. split; [apply item_nodes_NoDup|].
    intros n. by apply item_nodes_reached.
  - left. destruct Hnodes as [Hnodes Hnil]. split; [done|]. intros q.
    destruct (get_path (arena t) root (q ++ [it])) as [n|] eqn:Hq; [|done].
    assert (n ∈ item_nodes (arena t) it) as Hin
      by (apply item_nodes_reached; [done|by exists q]).
    rewrite Hnil in Hin. by apply not_elem_of_nil in Hin.
Qed.

(** [nodes_yields_the_nodes_of_the_item] on the tree of the transactions
    [a, b] at 1, [a, b] at 2 and [b] at 3, for the item [b]: two nodes. *)
Lemma nodes_yields_the_nodes_of_the_item_witness :
  ∃ t ns,
    build_tree ["a"%string; "b"%string] (new_tree ["a"%string; "b"%string])
      [(1, ["a"%string; "b"%string]); (2, ["a"%string; "b"%string]);
       (3, ["b"%string])] = Ok t
    ∧ nodes t "b"%string = Ok ns ∧ length ns = 2%nat ∧ NoDup ns.
Proof.
  destruct (build_tree ["a"%string; "b"%string] (new_tree ["a"%string; "b"%string])
              [(1, ["a"%string; "b"%string]); (2, ["a"%string; "b"%string]);
               (3, ["b"%string])]) as [t| | |] eqn:Hbuild;
    [|vm_compute in Hbuild; discriminate..].
  destruct (nodes_yields_the_nodes_of_the_item ["a"%string; "b"%string]
              [(1, ["a"%string; "b"%string]); (2, ["a"%string; "b"%string]);
               (3, ["b"%string])] t "b"%string)
    as [[Hraise _]|(ns & Hnodes & _ & Hnd & _)];
    [apply (bool_decide_unpack _); vm_compute; exact I|exact Hbuild| |].
  - vm_compute in Hbuild. injection Hbuild as <-. vm_compute in Hraise. discriminate.
  - exists t, ns. split; [reflexivity|]. split; [exact Hnodes|]. split; [|exact Hnd].
    vm_compute in Hbuild. injection Hbuild as <-.
    vm_compute in Hnodes. injection Hnodes as <-. reflexivity.
Defined.

(** X19.  Every item of the RP-list has a route in the tree that
    [find_recurring_patterns] builds, and no other item has one, so that
    [items_ordered] on that tree yields the whole RP-list in reverse, the
    last-ranked item first. *)
Theorem growth_visits_every_item (per min_ps min_rec : Z)
    (tdb : list (Z * list string)) (rp : list string) (t : RPTree) :
  build_rp_list per min_ps min_rec tdb = Ok rp →
  build_tree rp (new_tree rp) tdb = Ok t →
  items_ordered t = reverse rp
  ∧ ∀ a, is_Some (dict_get (_routes t) a) ↔ a ∈ rp.
Proof.
  intros Hrp Hbuild.
  assert (NoDup rp) as Hnd by by eapply build_rp_list_NoDup.
  destruct (new_tree_holds rp) as [Hown Hholds].
  destruct (build_tree_holds rp tdb (new_tree rp) [] (new_tree_growing rp) Hown
              eq_refl Hnd Hholds) as (t' & Hbuild' & Hg & _ & Hrpt & [_ Hpaths]).
  rewrite Hbuild in Hbuild'. injection Hbuild' as <-.
  rewrite Hrpt in Hpaths. simpl in Hpaths.
  pose proof (build_tree_routed _ _ _ _ (new_tree_routed rp) Hbuild) as Hrouted.
  assert (∀ a, a ∈ rp → is_Some (dict_get (_routes t) a)) as Hall.
  { intros a Ha.
    destruct (rp_list_elem_frequent _ _ _ _ _ a Hrp Ha) as [(tx & Hin & Hatx) _].
    assert (a ∈ sorted_items rp tx.2) as Hsorted
      by (unfold sorted_items; by apply list_elem_of_filter).
    apply list_elem_of_split in Hsorted as (q & rest & Hsplit).
    destruct (Hpaths (sorted_items rp tx.2)) as [m Hm].
    { unfold stored. intros Hnil. apply fmap_nil_inv in Hnil.
      assert (tx ∈ filter (fun tx' : Z * list string =>
                             sorted_items rp tx'.2 = sorted_items rp tx.2) tdb) as Hf
        by by apply list_elem_of_filter.
      rewrite Hnil in Hf. by apply not_elem_of_nil in Hf. }
    rewrite Hsplit in Hm.
    change (q ++ a :: rest) with (q ++ [a] ++ rest) in Hm. rewrite app_assoc in Hm.
    destruct (get_path_prefix _ _ _ _ _ Hm) as [n Hn].
    assert (n ∈ item_nodes (arena t) a) as Hnode
      by (apply item_nodes_reached; [done|by exists q]).
    pose proof (routed_nodes t a Hrouted) as Hnodes.
    destruct (dict_get (_routes t) a); [by eexists|].
    destruct Hnodes as [_ Hnil]. rewrite Hnil in Hnode.
    by apply not_elem_of_nil in Hnode. }
  split.
  - unfold items_ordered. rewrite Hrpt. apply filter_all.
    apply Forall_forall. intros a Ha. rewrite elem_of_reverse in Ha.
    by apply dict_mem_true, Hall.
  - intros a. split; [|by apply Hall]. intros Hroute.
    destruct (build_tree_spec rp tdb (new_tree rp) (new_tree_growing rp) eq_refl Hnd)
      as (t' & Hbuild' & _ & _ & Hkeys & _).
    rewrite Hbuild in Hbuild'. injection Hbuild' as <-.
    destruct (Hkeys _ Hroute) as [?|Hnew]; [done|]. simpl in Hnew. by destruct Hnew.
Qed.

(** [growth_visits_every_item] on the database of the paper, with
    [per = 2], [min_ps = 3] and [min_rec = 2]. *)
Lemma growth_visits_every_item_witness :
  ∃ rp t,
    build_rp_list 2 3 2 paper_tdb = Ok rp
    ∧ build_tree rp (new_tree rp) paper_tdb = Ok t
    ∧ items_ordered t = reverse rp.
Proof.
  destruct (build_rp_list 2 3 2 paper_tdb) as [rp| | |] eqn:Hrp;
    [|vm_compute in Hrp; discriminate..].
  destruct (build_tree rp (new_tree rp) paper_tdb) as [t| | |] eqn:Hbuild;
    [|vm_compute in Hrp; injection Hrp as <-;
      vm_compute in Hbuild; discriminate..].
  exists rp, t. split; [reflexivity|]. split; [exact Hbuild|].
  apply (growth_visits_every_item 2 3 2 paper_tdb rp t Hrp Hbuild).
Defined.
